(** * kvmemdb: an in-memory multi-version key-value store

    A shallow embedding of the Go packages [kvmemdb/mvcc] (versioned values
    and version histories) and [kvmemdb] (database, snapshots, transactions
    and the commit protocol), with the properties of the specification stated
    and proved over it.

    Conventions of the embedding:
    - Go's [int64] is [Z] with the wrap-around of the arithmetic written out
      ([wrap64]); slice indices and lengths are [nat];
    - a Go [map] is a [gmap]; ranging over a map visits [map_to_list];
    - [*Transaction] and [*Snapshot] are indices into a heap of records, so
      that the peers kept in [concurrentMap] alias the live objects;
    - a run-time panic (explicit [panic], nil dereference) is the [Panic]
      outcome; an [error] result is a value of [Error]. *)

From Stdlib Require Import ZArith Lia.
From stdpp Require Import gmap strings list fin_maps sorting.

Open Scope Z_scope.

(** ** Machine integers *)

Definition MaxInt64 : Z := 9223372036854775807.
Definition MinInt64 : Z := -9223372036854775808.

Definition wrap64 (z : Z) : Z := (z + 2 ^ 63) mod 2 ^ 64 - 2 ^ 63.

Definition int64_range (z : Z) : Prop := MinInt64 <= z <= MaxInt64.

Lemma wrap64_id z : int64_range z -> wrap64 z = z.
Proof.
  unfold int64_range, MinInt64, MaxInt64, wrap64. intros H.
  rewrite Z.mod_small; lia.
Qed.

Lemma wrap64_range z : int64_range (wrap64 z).
Proof.
  unfold int64_range, MinInt64, MaxInt64, wrap64.
  pose proof (Z.mod_pos_bound (z + 2 ^ 63) (2 ^ 64)). lia.
Qed.

(** ** Outcomes: a returned value or a run-time panic *)

Inductive outcome (A : Type) : Type :=
| Ret (a : A)
| Panic (msg : string).
Arguments Ret {A} a.
Arguments Panic {A} msg.

#[global] Instance outcome_ret : MRet outcome := fun _ a => Ret a.

#[global] Instance outcome_bind : MBind outcome := fun _ _ k m =>
  match m with
  | Ret a => k a
  | Panic msg => Panic msg
  end.

#[global] Instance outcome_fmap : FMap outcome := fun _ _ f m =>
  match m with
  | Ret a => Ret (f a)
  | Panic msg => Panic msg
  end.

(** ** Package mvcc *)

Module mvcc.

(** [Value]: a negative [version] field encodes a deleted value. *)
Record Value : Type := mkValue { version : Z; data : string }.

#[global] Instance Value_eq_dec : EqDecision Value.
Proof. solve_decision. Defined.

Definition IsDeleted (v : Value) : bool := version v <? 0.

Definition Version (v : Value) : Z :=
  if IsDeleted v then wrap64 (- version v) else version v.

Definition Data (v : Value) : string := data v.

Definition NewValue (ver : Z) : outcome Value :=
  if ver <=? 0 then Panic "version value cannot be zero or -ve"
  else Ret {| version := ver; data := "" |}.

Definition SetData (v : Value) (d : string) : Value :=
  {| version := if IsDeleted v then wrap64 (- version v) else version v;
     data := d |}.

Definition Delete (v : Value) : Value :=
  if 0 <? version v then {| version := wrap64 (- version v); data := "" |}
  else v.

(** [Clone]: a live copy of the data at a newer version. The guard compares
    the requested version with the raw [version] field. *)
Definition Clone (v : Value) (ver : Z) : outcome Value :=
  if ver <=? 0 then Panic "version value cannot be -ve"
  else if ver <=? version v
  then Panic "new version cannot be smaller than data version"
  else Ret {| version := ver; data := data v |}.

(** [MultiValue]: values at versions in sorted order. *)
Record MultiValue : Type := mkMultiValue { values : list Value }.

#[global] Instance MultiValue_eq_dec : EqDecision MultiValue.
Proof. solve_decision. Defined.

Definition NewMultiValue (v : Value) : MultiValue := {| values := [v] |}.

(** [findValue]: the three-way comparison used by the binary search. *)
Definition findValue (v : Value) (version : Z) : Z :=
  let ver := Version v in
  if ver =? version then 0
  else if ver <? version then -1
  else 1.

(** [slices.BinarySearchFunc]: the loop narrows [i, j) around the first
    position whose element does not compare below the target. [fuel] bounds
    the number of iterations; the length of the slice is always enough. *)
Fixpoint bsearch_loop (fuel : nat) (x : list Value) (target : Z)
    (i j : nat) : nat :=
  match fuel with
  | O => i
  | S fuel' =>
      if (i <? j)%nat then
        let h := ((i + j) / 2)%nat in
        match x !! h with
        | Some e =>
            if findValue e target <? 0
            then bsearch_loop fuel' x target (h + 1)%nat j
            else bsearch_loop fuel' x target i h
        | None => i
        end
      else i
  end.

Definition BinarySearchFunc (x : list Value) (target : Z) : nat * bool :=
  let n := length x in
  let i := bsearch_loop n x target 0%nat n in
  (i, match x !! i with
      | Some e => findValue e target =? 0
      | None => false
      end).

(** [Fetch]: the value at the given version or at the closest lower one;
    [None] stands for the [(nil, false)] result. *)
Definition Fetch (mv : MultiValue) (version : Z) : option Value :=
  let '(index, ok) := BinarySearchFunc (values mv) version in
  if ok then values mv !! index
  else
    let closest := Z.of_nat index - 1 in
    if (0 <=? closest) && (closest <? Z.of_nat (length (values mv)))
    then values mv !! Z.to_nat closest
    else None.

(** [slices.IsSortedFunc] with the comparison [int(a.Version() - b.Version())]. *)
Fixpoint IsSortedFunc (x : list Value) : bool :=
  match x with
  | [] => true
  | a :: rest =>
      match rest with
      | [] => true
      | b :: _ => negb (wrap64 (Version b - Version a) <? 0) && IsSortedFunc rest
      end
  end.

(** [Append]: a copy of the history with a newer version at the end. *)
Definition Append (mv : option MultiValue) (v : Value) : outcome MultiValue :=
  match mv with
  | None => Ret {| values := [v] |}
  | Some m =>
      match last (values m) with
      | None => Ret {| values := [v] |}
      | Some lastv =>
          if negb (IsSortedFunc (values m))
          then Panic "multi-value versions are not in sorted order"
          else if Version v <=? Version lastv
          then Panic "appending version is not larger than existing multi-value versions"
          else
            let newvs := values m ++ [v] in
            if negb (IsSortedFunc newvs)
            then Panic "newer multi-value versions are not in sorted order"
            else Ret {| values := newvs |}
      end
  end.

(** [Compact]: drops the versions older than the newest one at or below
    [minVersion]; [None] stands for the nil result. *)
Definition Compact (mv : option MultiValue) (minVersion : Z) : option MultiValue :=
  match mv with
  | None => None
  | Some m =>
      match values m with
      | [] => None
      | [v] =>
          if IsDeleted v && (Version v <? minVersion) then None else Some m
      | _ =>
          let '(index0, ok) := BinarySearchFunc (values m) minVersion in
          let index := if ok then Z.of_nat index0 else Z.of_nat index0 - 1 in
          if index <? 0 then Some m
          else
            match values m !! Z.to_nat index with
            | None => Some m
            | Some pivot =>
                let newvs :=
                  filter (fun v => ¬ (Version v < Version pivot)) (values m) in
                if (length newvs =? length (values m))%nat then Some m
                else Some {| values := newvs |}
            end
      end
  end.

End mvcc.

(** ** Package kvmemdb *)

Import mvcc.

(** Errors. Wrapped errors ([fmt.Errorf] with [%w]) are identified with the
    error they wrap; the conflict errors of [commit] carry their keys. *)
Inductive Error : Type :=
| ErrInvalid
| ErrNotExist
| ErrSSIReadsUpdated (ks : list string) (peer : nat)
| ErrSSIWritesRead (ks : list string) (peer : nat)
| ErrWWDeleted (key : string)
| ErrWWCreated (key : string)
| ErrWWUpdated (key : string)
| ErrIO (msg : string).

#[global] Instance Error_eq_dec : EqDecision Error.
Proof. solve_decision. Defined.

Definition is_rw_dependency (e : Error) : bool :=
  match e with
  | ErrSSIReadsUpdated _ _ | ErrSSIWritesRead _ _ => true
  | _ => false
  end.

Definition is_ww_conflict (e : Error) : bool :=
  match e with
  | ErrWWDeleted _ | ErrWWCreated _ | ErrWWUpdated _ => true
  | _ => false
  end.

(** An [io.Reader], as [io.ReadAll] sees it: chunks of bytes ended by the end
    of the input or by a read error. *)
Inductive Reader : Type :=
| EOF
| ReadErr (msg : string)
| Chunk (bytes : string) (rest : Reader).

Fixpoint ReadAll (r : Reader) : string * option Error :=
  match r with
  | EOF => (""%string, None)
  | ReadErr msg => (""%string, Some (ErrIO msg))
  | Chunk bytes rest =>
      let '(d, err) := ReadAll rest in ((bytes ++ d)%string, err)
  end.

(** [Transaction]. [db] is [true] while the handle points to its database
    and [false] once it is nil. A [None] in [writes] is a deleted key. *)
Record Transaction : Type := mkTransaction {
  db : bool;
  snapshotVersion : Z;
  committed : bool;
  reads : gmap string Value;
  writes : gmap string (option string)
}.

Record Snapshot : Type := mkSnapshot {
  snap_db : bool;
  snap_snapshotVersion : Z
}.

(** [Database]; transactions and snapshots are named by their heap index. *)
Record Database : Type := mkDatabase {
  liveTxes : list nat;
  liveSnaps : list nat;
  concurrentMap : gmap nat (list nat);
  maxCommitVersion : Z;
  kvs : gmap string MultiValue
}.

(** The program state: one database and the heap of the handles it issued. *)
Record World : Type := mkWorld {
  database : Database;
  txs : list Transaction;
  snaps : list Snapshot
}.

Definition New : World :=
  {| database := {| liveTxes := []; liveSnaps := []; concurrentMap := ∅;
                    maxCommitVersion := 0; kvs := ∅ |};
     txs := []; snaps := [] |}.

Definition set_database (w : World) (d : Database) : World :=
  {| database := d; txs := txs w; snaps := snaps w |}.

Definition set_tx (w : World) (t : nat) (T : Transaction) : World :=
  {| database := database w; txs := <[t := T]> (txs w); snaps := snaps w |}.

Definition set_snap (w : World) (s : nat) (sn : Snapshot) : World :=
  {| database := database w; txs := txs w; snaps := <[s := sn]> (snaps w) |}.

(** The peers recorded for a transaction; a missing entry is the nil slice. *)
Definition peers_of (d : Database) (t : nat) : list nat :=
  default [] (concurrentMap d !! t).

Definition min_over (snapver : nat -> option Z) (l : list nat) (v : Z) : Z :=
  foldl (fun v p => match snapver p with Some sv => Z.min v sv | None => v end)
        v l.

Definition tx_snapver (w : World) (t : nat) : option Z :=
  snapshotVersion <$> txs w !! t.

Definition snap_snapver (w : World) (s : nat) : option Z :=
  snap_snapshotVersion <$> snaps w !! s.

(** [minVersionLocked]: the smallest version among the live transactions,
    their concurrent counterparts and the live snapshots. *)
Definition minVersionLocked (w : World) : Z :=
  let d := database w in
  let v :=
    foldl (fun v tx =>
             let v := match tx_snapver w tx with
                      | Some sv => Z.min v sv
                      | None => v
                      end in
             min_over (tx_snapver w) (peers_of d tx) v)
          MaxInt64 (liveTxes d) in
  min_over (snap_snapver w) (liveSnaps d) v.

Definition NewSnapshot (w : World) : World * nat :=
  let s := {| snap_db := true;
              snap_snapshotVersion := maxCommitVersion (database w) |} in
  ({| database := database w; txs := txs w; snaps := snaps w ++ [s] |},
   length (snaps w)).

Definition closeSnapshot (w : World) (s : nat) : World :=
  let d := database w in
  let d' := {| liveTxes := liveTxes d;
               liveSnaps := filter (fun v => v ≠ s) (liveSnaps d);
               concurrentMap := concurrentMap d;
               maxCommitVersion := maxCommitVersion d;
               kvs := kvs d |} in
  match snaps w !! s with
  | Some sn =>
      set_snap (set_database w d') s
        {| snap_db := false; snap_snapshotVersion := snap_snapshotVersion sn |}
  | None => set_database w d'
  end.

Definition NewTransaction (w : World) : World * nat :=
  let d := database w in
  let t := length (txs w) in
  let T := {| db := true; snapshotVersion := maxCommitVersion d;
              committed := false; reads := ∅; writes := ∅ |} in
  let cm := <[t := liveTxes d]> (concurrentMap d) in
  let cm := foldl (fun cm tx => <[tx := default [] (cm !! tx) ++ [t]]> cm)
                  cm (liveTxes d) in
  ({| database := {| liveTxes := liveTxes d ++ [t];
                     liveSnaps := liveSnaps d;
                     concurrentMap := cm;
                     maxCommitVersion := maxCommitVersion d;
                     kvs := kvs d |};
      txs := txs w ++ [T]; snaps := snaps w |}, t).

Definition closeTransaction (w : World) (t : nat) : World :=
  let d := database w in
  let d' := {| liveTxes := filter (fun v => v ≠ t) (liveTxes d);
               liveSnaps := liveSnaps d;
               concurrentMap := delete t (concurrentMap d);
               maxCommitVersion := maxCommitVersion d;
               kvs := kvs d |} in
  match txs w !! t with
  | Some T =>
      set_tx (set_database w d') t
        {| db := false; snapshotVersion := snapshotVersion T;
           committed := committed T; reads := reads T; writes := writes T |}
  | None => set_database w d'
  end.

(** *** Snapshots *)

(** [Snapshot.Get]. Reaching the database through a nil [db] panics. *)
Definition Snapshot_Get (w : World) (s : nat) (key : string) :
    outcome (string + Error) :=
  match snaps w !! s with
  | None => Panic "nil pointer dereference"
  | Some sn =>
      if bool_decide (key = ""%string) then Ret (inr ErrInvalid)
      else if negb (snap_db sn) then Panic "nil pointer dereference"
      else
        match kvs (database w) !! key with
        | Some mv =>
            match Fetch mv (snap_snapshotVersion sn) with
            | Some v =>
                if IsDeleted v then Ret (inr ErrNotExist)
                else Ret (inl (Data v))
            | None => Ret (inr ErrNotExist)
            end
        | None => Ret (inr ErrNotExist)
        end
  end.

(** The predicate handed to [slices.DeleteFunc] by both [keys] methods. *)
Definition out_of_range (begin end_ k : string) : bool :=
  if bool_decide (begin = ""%string) && bool_decide (end_ = ""%string)
  then false
  else if negb (bool_decide (begin = ""%string)) && bool_decide (end_ = ""%string)
  then String.ltb k begin
  else if bool_decide (begin = ""%string) && negb (bool_decide (end_ = ""%string))
  then negb (String.ltb k end_)
  else String.ltb k begin || negb (String.ltb k end_).

Definition in_range (begin end_ k : string) : Prop :=
  out_of_range begin end_ k = false.

#[global] Instance in_range_dec b e k : Decision (in_range b e k).
Proof. unfold in_range. apply _. Defined.

(** [Snapshot.keys]: the keys of the database within [begin, end), in the
    order in which the map is ranged over. *)
Definition Snapshot_keys (w : World) (begin end_ : string) : list string :=
  filter (in_range begin end_) (elements (dom (kvs (database w)))).

(** [sort.Strings]; [slices.Reverse] is [reverse]. *)
Definition string_le (a b : string) : Prop := String.leb a b = true.

#[global] Instance string_le_dec a b : Decision (string_le a b).
Proof. unfold string_le. apply _. Defined.

Definition sort_strings (l : list string) : list string :=
  merge_sort string_le l.

(** What an iteration leaves behind: the pairs it yielded, in order, and the
    content of the caller's error slot. *)
Record Iteration : Type := mkIteration {
  yielded : list (string * string);
  errp : option Error
}.

(** The loop shared by [Snapshot.Scan], [Ascend] and [Descend]: any error of
    [Get] is stored in the slot and ends the iteration. [yield] is the
    consumer's answer to each pair. *)
Fixpoint Snapshot_loop (w : World) (s : nat) (yield : string -> string -> bool)
    (keys : list string) (it : Iteration) : outcome Iteration :=
  match keys with
  | [] => Ret it
  | key :: rest =>
      r ← Snapshot_Get w s key;
      match r with
      | inr err => Ret {| yielded := yielded it; errp := Some err |}
      | inl value =>
          let it' := {| yielded := yielded it ++ [(key, value)];
                        errp := errp it |} in
          if yield key value then Snapshot_loop w s yield rest it'
          else Ret it'
      end
  end.

Definition Snapshot_Scan (w : World) (s : nat) (slot : option Error)
    (yield : string -> string -> bool) : outcome Iteration :=
  Snapshot_loop w s yield (Snapshot_keys w "" "")
                {| yielded := []; errp := slot |}.

Definition bad_range (begin end_ : string) : bool :=
  negb (bool_decide (begin = ""%string)) &&
  negb (bool_decide (end_ = ""%string)) && String.ltb end_ begin.

Definition Snapshot_Ascend (w : World) (s : nat) (begin end_ : string)
    (slot : option Error) (yield : string -> string -> bool) : outcome Iteration :=
  if bad_range begin end_ then Ret {| yielded := []; errp := Some ErrInvalid |}
  else Snapshot_loop w s yield (sort_strings (Snapshot_keys w begin end_))
                     {| yielded := []; errp := slot |}.

Definition Snapshot_Descend (w : World) (s : nat) (begin end_ : string)
    (slot : option Error) (yield : string -> string -> bool) : outcome Iteration :=
  if bad_range begin end_ then Ret {| yielded := []; errp := Some ErrInvalid |}
  else Snapshot_loop w s yield
                     (reverse (sort_strings (Snapshot_keys w begin end_)))
                     {| yielded := []; errp := slot |}.

Definition Snapshot_Discard (w : World) (s : nat) : outcome (World * option Error) :=
  match snaps w !! s with
  | None => Panic "nil pointer dereference"
  | Some sn =>
      if negb (snap_db sn) then Ret (w, Some ErrInvalid)
      else Ret (closeSnapshot w s, None)
  end.

(** *** Transactions *)

Definition with_writes (T : Transaction) (ws : gmap string (option string)) :
    Transaction :=
  {| db := db T; snapshotVersion := snapshotVersion T;
     committed := committed T; reads := reads T; writes := ws |}.

Definition with_reads (T : Transaction) (rs : gmap string Value) : Transaction :=
  {| db := db T; snapshotVersion := snapshotVersion T;
     committed := committed T; reads := rs; writes := writes T |}.

Definition with_committed (T : Transaction) (c : bool) : Transaction :=
  {| db := db T; snapshotVersion := snapshotVersion T;
     committed := c; reads := reads T; writes := writes T |}.

(** [Transaction.Set]; a [None] value is the nil [io.Reader]. *)
Definition Transaction_Set (w : World) (t : nat) (key : string)
    (value : option Reader) : outcome (World * option Error) :=
  match txs w !! t with
  | None => Panic "nil pointer dereference"
  | Some T =>
      if bool_decide (key = ""%string) then Ret (w, Some ErrInvalid)
      else
        match value with
        | None => Ret (w, Some ErrInvalid)
        | Some r =>
            match ReadAll r with
            | (_, Some err) => Ret (w, Some err)
            | (s, None) =>
                Ret (set_tx w t (with_writes T (<[key := Some s]> (writes T))), None)
            end
        end
  end.

Definition Transaction_Delete (w : World) (t : nat) (key : string) :
    outcome (World * option Error) :=
  match txs w !! t with
  | None => Panic "nil pointer dereference"
  | Some T =>
      if bool_decide (key = ""%string) then Ret (w, Some ErrInvalid)
      else Ret (set_tx w t (with_writes T (<[key := None]> (writes T))), None)
  end.

(** [Transaction.Get]: the buffered writes, then the cached reads, then the
    database at the snapshot version, caching what it finds there. *)
Definition Transaction_Get (w : World) (t : nat) (key : string) :
    outcome (World * (string + Error)) :=
  match txs w !! t with
  | None => Panic "nil pointer dereference"
  | Some T =>
      if bool_decide (key = ""%string) then Ret (w, inr ErrInvalid)
      else
        match writes T !! key with
        | Some None => Ret (w, inr ErrNotExist)
        | Some (Some v) => Ret (w, inl v)
        | None =>
            match reads T !! key with
            | Some v => Ret (w, inl (Data v))
            | None =>
                if negb (db T) then Panic "nil pointer dereference"
                else
                  match kvs (database w) !! key with
                  | Some mv =>
                      match Fetch mv (snapshotVersion T) with
                      | Some v =>
                          if IsDeleted v then Ret (w, inr ErrNotExist)
                          else Ret (set_tx w t (with_reads T (<[key := v]> (reads T))),
                                    inl (Data v))
                      | None => Ret (w, inr ErrNotExist)
                      end
                  | None => Ret (w, inr ErrNotExist)
                  end
            end
        end
  end.

(** [Transaction.keys]: the keys read, written or present in the database. *)
Definition Transaction_keys (w : World) (t : nat) (begin end_ : string) :
    outcome (list string) :=
  match txs w !! t with
  | None => Panic "nil pointer dereference"
  | Some T =>
      if negb (db T) then Panic "nil pointer dereference"
      else
        Ret (filter (in_range begin end_)
               (elements (dom (reads T) ∪ dom (writes T)
                            ∪ dom (kvs (database w)))))
  end.

(** The loop shared by [Transaction.Scan], [Ascend] and [Descend]: a key that
    does not exist is passed over, any other error ends the iteration. *)
Fixpoint Transaction_loop (w : World) (t : nat) (yield : string -> string -> bool)
    (keys : list string) (it : Iteration) : outcome (World * Iteration) :=
  match keys with
  | [] => Ret (w, it)
  | key :: rest =>
      '(w', r) ← Transaction_Get w t key;
      match r with
      | inr err =>
          if bool_decide (err = ErrNotExist)
          then Transaction_loop w' t yield rest it
          else Ret (w', {| yielded := yielded it; errp := Some err |})
      | inl value =>
          let it' := {| yielded := yielded it ++ [(key, value)];
                        errp := errp it |} in
          if yield key value then Transaction_loop w' t yield rest it'
          else Ret (w', it')
      end
  end.

Definition Transaction_Scan (w : World) (t : nat) (slot : option Error)
    (yield : string -> string -> bool) : outcome (World * Iteration) :=
  keys ← Transaction_keys w t "" "";
  Transaction_loop w t yield keys {| yielded := []; errp := slot |}.

Definition Transaction_Ascend (w : World) (t : nat) (begin end_ : string)
    (slot : option Error) (yield : string -> string -> bool) :
    outcome (World * Iteration) :=
  if bad_range begin end_
  then Ret (w, {| yielded := []; errp := Some ErrInvalid |})
  else
    keys ← Transaction_keys w t begin end_;
    Transaction_loop w t yield (sort_strings keys)
                     {| yielded := []; errp := slot |}.

Definition Transaction_Descend (w : World) (t : nat) (begin end_ : string)
    (slot : option Error) (yield : string -> string -> bool) :
    outcome (World * Iteration) :=
  if bad_range begin end_
  then Ret (w, {| yielded := []; errp := Some ErrInvalid |})
  else
    keys ← Transaction_keys w t begin end_;
    Transaction_loop w t yield (reverse (sort_strings keys))
                     {| yielded := []; errp := slot |}.

(** *** The commit protocol *)

(** [overlappingKeys]: the keys of [reads] that [writes] also holds. *)
Definition overlappingKeys (rs : gmap string Value)
    (ws : gmap string (option string)) : list string :=
  filter (fun k => is_Some (ws !! k)) (map_to_list rs).*1.

(** The rw-dependency loop of [commit] over the peers of [tx]: the first
    committed writer among them that overlaps with [tx] ends it. *)
Fixpoint ssi_check (w : World) (T : Transaction) (peers : list nat) :
    option Error :=
  match peers with
  | [] => None
  | p :: rest =>
      match txs w !! p with
      | None => ssi_check w T rest
      | Some v =>
          if negb (committed v) then ssi_check w T rest
          else if bool_decide (writes v = ∅) then ssi_check w T rest
          else
            match overlappingKeys (reads T) (writes v) with
            | (_ :: _) as ks => Some (ErrSSIReadsUpdated ks p)
            | [] =>
                match overlappingKeys (reads v) (writes T) with
                | (_ :: _) as ks => Some (ErrSSIWritesRead ks p)
                | [] => ssi_check w T rest
                end
            end
      end
  end.

(** The write-write check of [commit] for one key of the write set. *)
Definition ww_check_key (d : Database) (T : Transaction) (key : string) :
    option Error :=
  match kvs d !! key with
  | None => None
  | Some mv =>
      match Fetch mv MaxInt64, Fetch mv (snapshotVersion T) with
      | None, None => None
      | None, Some _ => Some (ErrWWDeleted key)
      | Some _, None => Some (ErrWWCreated key)
      | Some current, Some initial =>
          if bool_decide (Version current ≠ Version initial)
          then Some (ErrWWUpdated key)
          else None
      end
  end.

Fixpoint ww_check (d : Database) (T : Transaction) (keys : list string) :
    option Error :=
  match keys with
  | [] => None
  | key :: rest =>
      match ww_check_key d T key with
      | Some e => Some e
      | None => ww_check d T rest
      end
  end.

(** The update of the database by one buffered write. *)
Definition apply_write (minVersion newCommitVersion : Z)
    (m : gmap string MultiValue) (kv : string * option string) :
    outcome (gmap string MultiValue) :=
  let '(key, value) := kv in
  v0 ← NewValue newCommitVersion;
  let v := match value with
           | None => Delete v0
           | Some s => SetData v0 s
           end in
  match m !! key with
  | None => Ret (<[key := NewMultiValue v]> m)
  | Some mv =>
      appended ← Append (Some mv) v;
      match Compact (Some appended) minVersion with
      | None => Ret (delete key m)
      | Some nmv => Ret (<[key := nmv]> m)
      end
  end.

Fixpoint apply_writes (minVersion newCommitVersion : Z)
    (m : gmap string MultiValue) (ws : list (string * option string)) :
    outcome (gmap string MultiValue) :=
  match ws with
  | [] => Ret m
  | kv :: rest =>
      m' ← apply_write minVersion newCommitVersion m kv;
      apply_writes minVersion newCommitVersion m' rest
  end.

(** [commit]. The model has one database, so the test that the transaction
    belongs to it never fails. *)
Definition commit (w : World) (t : nat) : outcome (World * option Error) :=
  match txs w !! t with
  | None => Panic "nil pointer dereference"
  | Some T =>
      if negb (db T) then Ret (w, Some ErrInvalid)
      else if committed T then Ret (w, Some ErrInvalid)
      else if bool_decide (writes T = ∅)
      then Ret (set_tx w t (with_committed T true), None)
      else
        let d := database w in
        match ssi_check w T (peers_of d t) with
        | Some e => Ret (w, Some e)
        | None =>
            match ww_check d T (map_to_list (writes T)).*1 with
            | Some e => Ret (w, Some e)
            | None =>
                let minVersion := minVersionLocked w in
                let newCommitVersion := wrap64 (maxCommitVersion d + 1) in
                kvs' ← apply_writes minVersion newCommitVersion (kvs d)
                                    (map_to_list (writes T));
                Ret (set_tx
                       (set_database w
                          {| liveTxes := liveTxes d;
                             liveSnaps := liveSnaps d;
                             concurrentMap := concurrentMap d;
                             maxCommitVersion := newCommitVersion;
                             kvs := kvs' |})
                       t (with_committed T true), None)
            end
        end
  end.

(** [Transaction.Commit]: the transaction is closed whatever [commit] says. *)
Definition Transaction_Commit (w : World) (t : nat) :
    outcome (World * option Error) :=
  match txs w !! t with
  | None => Panic "nil pointer dereference"
  | Some T =>
      if negb (db T) then Ret (w, Some ErrInvalid)
      else
        '(w', err) ← commit w t;
        Ret (closeTransaction w' t, err)
  end.

Definition Transaction_Rollback (w : World) (t : nat) :
    outcome (World * option Error) :=
  match txs w !! t with
  | None => Panic "nil pointer dereference"
  | Some T =>
      if negb (db T) then Ret (w, Some ErrInvalid)
      else Ret (closeTransaction w t, None)
  end.

(** ** Predicates on version histories *)

(** The invariant of a version history: versions strictly ascending. *)
Definition ascending (vs : list Value) : Prop :=
  StronglySorted (fun a b => Version a < Version b) vs.

#[global] Instance ascending_dec vs : Decision (ascending vs).
Proof. unfold ascending. apply _. Defined.

(** The entry of [vs] that a reader at version [v] sees, as the
    specification words it: the entry with the largest version [≤ v]. *)
Definition latest_upto (vs : list Value) (v : Z) (e : Value) : Prop :=
  e ∈ vs ∧ Version e <= v ∧
  ∀ e', e' ∈ vs → Version e' <= v → Version e' <= Version e.

#[global] Instance latest_upto_dec vs v e : Decision (latest_upto vs v e).
Proof.
  refine (cast_if (decide (e ∈ vs ∧ Version e <= v ∧
            Forall (fun e' => Version e' <= v → Version e' <= Version e) vs)));
    unfold latest_upto; rewrite Forall_forall in *; tauto.
Defined.

(** The position the search stops at splits the history into the versions
    below the target and the versions at or above it. *)
Definition splits_at (x : list Value) (target : Z) (r : nat) : Prop :=
  (r <= length x)%nat ∧
  (∀ k e, (k < r)%nat → x !! k = Some e → Version e < target) ∧
  (∀ k e, (r <= k)%nat → x !! k = Some e → target <= Version e).

(** The retention rule as the specification words it: the most recent entry,
    the entries at or above [min_version], and the single surviving live
    entry. [kept] is what [Compact] returned. *)
Definition spec_retained (vs : list Value) (minVersion : Z) (kept : list Value)
    (e : Value) : Prop :=
  last vs = Some e ∨ minVersion <= Version e ∨
  (kept = [e] ∧ IsDeleted e = false).

(** The retention rule of the code: the most recent entry, the entries at or
    above [min_version], and the newest entry at or below [min_version]. *)
Definition retained (vs : list Value) (minVersion : Z) (e : Value) : Prop :=
  last vs = Some e ∨ minVersion <= Version e ∨ latest_upto vs minVersion e.

#[global] Instance retained_dec vs minVersion e :
  Decision (retained vs minVersion e).
Proof. unfold retained. apply _. Defined.


(** ** Well-formed states and runs of the interface *)

(** The invariants of the data model: the commit counter is a non-negative
    [int64]; every history of the database is non-empty, strictly ascending
    and holds only versions issued so far; no handle looks past the counter. *)
Definition wf_value (maxv : Z) (e : Value) : Prop :=
  0 < Version e ∧ Version e <= maxv.

Definition wf_history (maxv : Z) (mv : MultiValue) : Prop :=
  values mv ≠ [] ∧ ascending (values mv) ∧ Forall (wf_value maxv) (values mv).

Definition wf (w : World) : Prop :=
  let maxv := maxCommitVersion (database w) in
  (0 <= maxv ∧ maxv <= MaxInt64) ∧
  map_Forall (fun _ mv => wf_history maxv mv) (kvs (database w)) ∧
  Forall (fun T => snapshotVersion T <= maxv) (txs w).

#[global] Instance wf_value_dec maxv e : Decision (wf_value maxv e).
Proof. unfold wf_value. apply _. Defined.

#[global] Instance wf_history_dec maxv mv : Decision (wf_history maxv mv).
Proof. unfold wf_history. apply _. Defined.

#[global] Instance wf_dec w : Decision (wf w).
Proof. unfold wf. apply _. Defined.

(** The calls a client can make that change the state. Reads through a
    snapshot leave it as it is and are not listed. *)
Inductive Op : Type :=
| OpNewTransaction
| OpNewSnapshot
| OpDiscard (s : nat)
| OpSet (t : nat) (key : string) (value : option Reader)
| OpDelete (t : nat) (key : string)
| OpGet (t : nat) (key : string)
| OpScan (t : nat) (yield : string -> string -> bool)
| OpAscend (t : nat) (begin end_ : string) (yield : string -> string -> bool)
| OpDescend (t : nat) (begin end_ : string) (yield : string -> string -> bool)
| OpCommit (t : nat)
| OpRollback (t : nat).

Definition exec (w : World) (op : Op) : outcome World :=
  match op with
  | OpNewTransaction => Ret (NewTransaction w).1
  | OpNewSnapshot => Ret (NewSnapshot w).1
  | OpDiscard s => fst <$> Snapshot_Discard w s
  | OpSet t key value => fst <$> Transaction_Set w t key value
  | OpDelete t key => fst <$> Transaction_Delete w t key
  | OpGet t key => fst <$> Transaction_Get w t key
  | OpScan t yield => fst <$> Transaction_Scan w t None yield
  | OpAscend t b e yield => fst <$> Transaction_Ascend w t b e None yield
  | OpDescend t b e yield => fst <$> Transaction_Descend w t b e None yield
  | OpCommit t => fst <$> Transaction_Commit w t
  | OpRollback t => fst <$> Transaction_Rollback w t
  end.

Fixpoint run (w : World) (ops : list Op) : outcome World :=
  match ops with
  | [] => Ret w
  | op :: rest => w' ← exec w op; run w' rest
  end.

(** The value a buffered write stores at a given commit version, in closed
    form: a tombstone for a deletion, the payload otherwise. *)
Definition written (ver : Z) (value : option string) : Value :=
  match value with
  | None => {| version := - ver; data := "" |}
  | Some s => {| version := ver; data := s |}
  end.

(** The state [commit] publishes: the new histories and the bumped counter,
    with the transaction marked committed. *)
Definition published (w : World) (t : nat) (T : Transaction)
    (newCommitVersion : Z) (kvs' : gmap string MultiValue) : World :=
  set_tx
    (set_database w
       {| liveTxes := liveTxes (database w);
          liveSnaps := liveSnaps (database w);
          concurrentMap := concurrentMap (database w);
          maxCommitVersion := newCommitVersion;
          kvs := kvs' |})
    t (with_committed T true).

(** ** Relations between a state and a later one *)

(** Every transaction of [w] is still there in [w'] with its snapshot version. *)
Definition snapvers_kept (w w' : World) : Prop :=
  ∀ t sv, tx_snapver w t = Some sv → tx_snapver w' t = Some sv.

(** The newest version of the history of a key, if the key has one. *)
Definition newest (w : World) (key : string) : option Z :=
  mv ← kvs (database w) !! key; Version <$> last (values mv).

(** Histories only move forward: a key that has a newest version keeps one,
    at least as new. *)
Definition advances (w w' : World) : Prop :=
  ∀ key v, newest w key = Some v → ∃ v', newest w' key = Some v' ∧ v <= v'.

(** [w'] differs from [w] only in the handles: the committed data and the
    counter are the same, and no snapshot version moved. *)
Definition quiet (w w' : World) : Prop :=
  maxCommitVersion (database w') = maxCommitVersion (database w) ∧
  kvs (database w') = kvs (database w) ∧
  snapvers_kept w w' ∧
  (Forall (fun T => snapshotVersion T <= maxCommitVersion (database w)) (txs w) →
   Forall (fun T => snapshotVersion T <= maxCommitVersion (database w)) (txs w')).

(** ** Concrete runs *)

(** The state a run from the empty database ends in. *)
Definition after (ops : list Op) : World :=
  match run New ops with
  | Ret w => w
  | Panic _ => New
  end.

Definition tx_at (w : World) (t : nat) : Transaction :=
  default {| db := false; snapshotVersion := 0; committed := false;
             reads := ∅; writes := ∅ |} (txs w !! t).

Definition payload (s : string) : option Reader := Some (Chunk s EOF).

(** Two transactions begin on a database holding [key1], and both set it
    without reading it. *)
Definition blind_writers : list Op :=
  [OpNewTransaction; OpSet 0 "key1" (payload "initial"); OpCommit 0;
   OpNewTransaction; OpNewTransaction;
   OpSet 1 "key1" (payload "value1"); OpSet 2 "key1" (payload "value2")].

(** The same, but each reads [key1] before setting it. *)
Definition reading_writers : list Op :=
  [OpNewTransaction; OpSet 0 "key1" (payload "initial"); OpCommit 0;
   OpNewTransaction; OpNewTransaction;
   OpGet 1 "key1"; OpSet 1 "key1" (payload "value1");
   OpGet 2 "key1"; OpSet 2 "key1" (payload "value2")].

(** ** Predicates of the specification *)

(** The peers the SSI check looks at: committed, with a non-empty write set. *)
Definition committed_writer (w : World) (p : nat) : Prop :=
  match txs w !! p with
  | Some P => committed P = true ∧ writes P ≠ ∅
  | None => False
  end.

#[global] Instance committed_writer_dec w p : Decision (committed_writer w p).
Proof. unfold committed_writer. destruct (txs w !! p); apply _. Defined.

(** Two key sets meet. *)
Definition overlap {A B} (m1 : gmap string A) (m2 : gmap string B) : Prop :=
  ∃ k, is_Some (m1 !! k) ∧ is_Some (m2 !! k).

(** The history of a key in the database; a key without one has none. *)
Definition history (w : World) (key : string) : list Value :=
  match kvs (database w) !! key with
  | Some mv => values mv
  | None => []
  end.

(** What a read at version [v] of the history [hist] must answer, as the
    specification words it: the payload of the entry with the largest
    version [≤ v], and "does not exist" if that entry is a tombstone or if
    there is no such entry. *)
Definition reads_as (hist : list Value) (v : Z) (r : string + Error) : Prop :=
  (∃ e, latest_upto hist v e ∧ IsDeleted e = false ∧ r = inl (Data e)) ∨
  (∃ e, latest_upto hist v e ∧ IsDeleted e = true ∧ r = inr ErrNotExist) ∨
  ((∀ e, ¬ latest_upto hist v e) ∧ r = inr ErrNotExist).

(** The bytes of a source delivered in the given chunks. *)
Definition all_bytes (chunks : list string) : string :=
  foldr String.append ""%string chunks.

(** A snapshot is taken after the first commit to [k]; two more
    transactions then set [k], the second of them still open. *)
Definition snapshot_then_writers : list Op :=
  [OpNewTransaction; OpSet 0 "k" (payload "a"); OpCommit 0;
   OpNewSnapshot;
   OpNewTransaction; OpSet 1 "k" (payload "b"); OpCommit 1;
   OpNewTransaction; OpSet 2 "k" (payload "c")].

(** [k1] and [k2] are committed, [k1] is then deleted, and a snapshot and a
    transaction are opened on the result. *)
Definition deleted_key : list Op :=
  [OpNewTransaction; OpSet 0 "k1" (payload "a"); OpSet 0 "k2" (payload "b");
   OpCommit 0;
   OpNewTransaction; OpDelete 1 "k1"; OpCommit 1;
   OpNewSnapshot; OpNewTransaction].

Definition consume_all (_ _ : string) : bool := true.

(** ** Liveness tracking *)

(** The bookkeeping of the database agrees with the handles: the live list
    has no duplicates and holds exactly the transactions whose handle still
    points to the database, which are exactly the ones with an entry in
    [concurrentMap]; any two live transactions list each other as peers; and
    an open handle is not committed. *)
Definition tracked (w : World) : Prop :=
  let d := database w in
  NoDup (liveTxes d) ∧
  (∀ t, t ∈ liveTxes d ↔ ∃ T, txs w !! t = Some T ∧ db T = true) ∧
  (∀ t, is_Some (concurrentMap d !! t) ↔ t ∈ liveTxes d) ∧
  (∀ t u, t ∈ liveTxes d → u ∈ liveTxes d → t ≠ u → u ∈ peers_of d t) ∧
  (∀ t T, txs w !! t = Some T → db T = true → committed T = false).

(** How the handles of [w] fare in a later state [w']: each is still there
    with its snapshot version, a closed one stays closed, a committed one
    stays committed; and a transaction that is open in [w'] has kept the
    peers it had in [w]. *)
Definition evolves (w w' : World) : Prop :=
  (∀ t T, txs w !! t = Some T →
     ∃ T', txs w' !! t = Some T' ∧
           snapshotVersion T' = snapshotVersion T ∧
           (db T = false → db T' = false) ∧
           (committed T = true → committed T' = true)) ∧
  (∀ t u T', u ∈ peers_of (database w) t →
     txs w' !! t = Some T' → db T' = true →
     u ∈ peers_of (database w') t).

(** [db.kvs.Load(key)] followed by [Fetch] at a version. *)
Definition fetch_at (w : World) (key : string) (v : Z) : option Value :=
  mv ← kvs (database w) !! key; Fetch mv v.

(** The flags of a handle, as opposed to its buffers. *)
Definition flags (T : Transaction) : bool * Z * bool :=
  (db T, snapshotVersion T, committed T).

(** [w'] has the bookkeeping and the flags of [w]: only buffers differ. *)
Definition handles_same (w w' : World) : Prop :=
  liveTxes (database w') = liveTxes (database w) ∧
  concurrentMap (database w') = concurrentMap (database w) ∧
  flags <$> txs w' = flags <$> txs w.

(** The handle [closeTransaction] leaves behind. *)
Definition closed (T : Transaction) : Transaction :=
  {| db := false; snapshotVersion := snapshotVersion T;
     committed := committed T; reads := reads T; writes := writes T |}.

(** A transaction stays open while another one overwrites a key. *)
Definition reader_and_writer : list Op :=
  [OpNewTransaction; OpSet 0 "k" (payload "a"); OpCommit 0;
   OpNewTransaction; OpNewTransaction].

(** What a read of a buffered write answers. *)
Definition answer (value : option string) : string + Error :=
  match value with
  | Some s => inl s
  | None => inr ErrNotExist
  end.

(** Strict byte-wise order on keys. *)
Definition string_lt (a b : string) : Prop := String.ltb a b = true.

#[global] Instance string_lt_dec a b : Decision (string_lt a b).
Proof. unfold string_lt. apply _. Defined.

(** Two keys are committed and a snapshot and a transaction are opened. *)
Definition two_keys : list Op :=
  [OpNewTransaction; OpSet 0 "k1" (payload "a"); OpSet 0 "k2" (payload "b");
   OpCommit 0; OpNewSnapshot; OpNewTransaction].
(** * Version histories: what the binary search computes *)

Section history.

Lemma ascending_lookup vs i j a b :
  ascending vs → (i < j)%nat → vs !! i = Some a → vs !! j = Some b →
  Version a < Version b.
Proof.
  intros Hs. revert i j. induction Hs as [|x l Hl IH Hx]; intros i j Hij Ha Hb.
  - by rewrite lookup_nil in Ha.
  - destruct j as [|j]; [lia|]. destruct i as [|i]; simpl in *.
    + injection Ha as <-. rewrite Forall_forall in Hx. apply Hx.
      eapply list_elem_of_lookup_2; eauto.
    + apply (IH i j); [lia|done..].
Qed.

Lemma ascending_inj vs a b :
  ascending vs → a ∈ vs → b ∈ vs → Version a = Version b → a = b.
Proof.
  intros Hs [i Hi]%list_elem_of_lookup [j Hj]%list_elem_of_lookup Hv.
  destruct (lt_eq_lt_dec i j) as [[Hlt | ->] | Hlt].
  - pose proof (ascending_lookup _ _ _ _ _ Hs Hlt Hi Hj). lia.
  - congruence.
  - pose proof (ascending_lookup _ _ _ _ _ Hs Hlt Hj Hi). lia.
Qed.

Lemma latest_upto_unique vs v a b :
  ascending vs → latest_upto vs v a → latest_upto vs v b → a = b.
Proof.
  intros Hs (Ha & Hav & Hamax) (Hb & Hbv & Hbmax).
  apply (ascending_inj vs); [done..|].
  pose proof (Hamax b Hb Hbv). pose proof (Hbmax a Ha Hav). lia.
Qed.

Lemma findValue_lt e target : (findValue e target <? 0) = (Version e <? target).
Proof.
  unfold findValue.
  destruct (Z.eqb_spec (Version e) target), (Z.ltb_spec (Version e) target);
    simpl; try reflexivity; lia.
Qed.

Lemma findValue_eq e target : (findValue e target =? 0) = (Version e =? target).
Proof.
  unfold findValue.
  destruct (Z.eqb_spec (Version e) target), (Z.ltb_spec (Version e) target);
    simpl; try reflexivity; lia.
Qed.

Lemma bsearch_loop_splits fuel x target i j :
  ascending x →
  (i <= j)%nat → (j <= length x)%nat → (j - i <= fuel)%nat →
  (∀ k e, (k < i)%nat → x !! k = Some e → Version e < target) →
  (∀ k e, (j <= k)%nat → x !! k = Some e → target <= Version e) →
  splits_at x target (bsearch_loop fuel x target i j).
Proof.
  intros Hs. revert i j.
  induction fuel as [|fuel IH]; intros i j Hij Hj Hfuel Hlo Hhi;
    cbn [bsearch_loop].
  - assert (i = j) as -> by lia. repeat split; [lia|done..].
  - destruct (Nat.ltb_spec i j) as [Hlt|Hge].
    2:{ assert (i = j) as -> by lia. repeat split; [lia|done..]. }
    assert (Hh : (i <= (i + j) / 2 < j)%nat).
    { split.
      - apply Nat.div_le_lower_bound; lia.
      - apply Nat.Div0.div_lt_upper_bound; lia. }
    set (h := ((i + j) / 2)%nat) in *.
    destruct (lookup_lt_is_Some_2 x h) as [e He]; [lia|].
    rewrite He, findValue_lt.
    destruct (Z.ltb_spec (Version e) target) as [Hlt'|Hge'].
    + apply IH; [lia..| |done].
      intros k e' Hk He'.
      destruct (decide (k = h)) as [->|Hne]; [congruence|].
      assert (Version e' < Version e); [|lia].
      apply (ascending_lookup x k h); [done|lia|done..].
    + apply IH; [lia..|done|].
      intros k e' Hk He'.
      destruct (decide (k = h)) as [->|Hne]; [congruence|].
      assert (Version e < Version e'); [|lia].
      apply (ascending_lookup x h k); [done|lia|done..].
Qed.

Lemma BinarySearchFunc_splits x target :
  ascending x → splits_at x target (BinarySearchFunc x target).1.
Proof.
  intros Hs. unfold BinarySearchFunc; simpl.
  apply bsearch_loop_splits; [done|lia..| |].
  - intros k e Hk; lia.
  - intros k e Hk He. apply lookup_lt_Some in He. lia.
Qed.

Lemma BinarySearchFunc_found x target :
  (BinarySearchFunc x target).2 = true ↔
  ∃ e, x !! (BinarySearchFunc x target).1 = Some e ∧ Version e = target.
Proof.
  unfold BinarySearchFunc; simpl.
  destruct (x !! _) as [e|]; [|split; [done|by intros (? & ? & _)]].
  rewrite findValue_eq. split.
  - intros H%Z.eqb_eq. eauto.
  - intros (e' & [= <-] & H). by apply Z.eqb_eq.
Qed.

(** [Fetch] on an ascending history returns the entry with the largest
    version at or below the requested one, and nothing exactly when every
    entry is newer. *)
Lemma Fetch_spec vs v :
  ascending vs →
  match Fetch {| values := vs |} v with
  | Some e => latest_upto vs v e
  | None => ∀ e, e ∈ vs → v < Version e
  end.
Proof.
  intros Hs. unfold Fetch; cbn [values].
  pose proof (BinarySearchFunc_splits vs v Hs) as (Hlen & Hlo & Hhi).
  pose proof (BinarySearchFunc_found vs v) as Hfound.
  destruct (BinarySearchFunc vs v) as [r ok]; simpl in *.
  destruct ok.
  - destruct Hfound as [(e & He & Hv) _]; [done|]. rewrite He.
    split; [by eapply list_elem_of_lookup_2|]. split; [lia|].
    intros e' [k Hk]%list_elem_of_lookup Hle.
    destruct (decide (k <= r)%nat) as [Hkr|Hkr].
    + destruct (decide (k = r)) as [->|Hne]; [replace e' with e by congruence; lia|].
      assert (Version e' < Version e); [|lia].
      apply (ascending_lookup vs k r); [done|lia|done..].
    + assert (Version e < Version e'); [|lia].
      apply (ascending_lookup vs r k); [done|lia|done..].
  - destruct (Z.leb_spec 0 (Z.of_nat r - 1)) as [Hr|Hr]; simpl.
    + destruct (Z.ltb_spec (Z.of_nat r - 1) (Z.of_nat (length vs))) as [Hr'|Hr'];
        [|lia].
      replace (Z.to_nat (Z.of_nat r - 1)) with (r - 1)%nat by lia.
      destruct (lookup_lt_is_Some_2 vs (r - 1)%nat) as [e He]; [lia|].
      rewrite He. pose proof (Hlo (r - 1)%nat e ltac:(lia) He).
      split; [by eapply list_elem_of_lookup_2|]. split; [lia|].
      intros e' [k Hk]%list_elem_of_lookup Hle.
      destruct (decide (k < r)%nat) as [Hkr|Hkr].
      * destruct (decide (k = r - 1)%nat) as [->|Hne];
          [replace e' with e by congruence; lia|].
        assert (Version e' < Version e); [|lia].
        apply (ascending_lookup vs k (r - 1)%nat); [done|lia|done..].
      * pose proof (Hhi k _ ltac:(lia) Hk) as Hge.
        assert (Version e' = v) by lia.
        destruct (decide (k = r)) as [->|Hne].
        -- destruct Hfound as [_ Hf]. discriminate Hf. eauto.
        -- destruct (lookup_lt_is_Some_2 vs r) as [er Her].
           { apply lookup_lt_Some in Hk. lia. }
           pose proof (Hhi r _ ltac:(lia) Her).
           assert (Version er < Version e'); [|lia].
           apply (ascending_lookup vs r k); [done|lia|done..].
    + assert (r = 0%nat) as -> by lia.
      intros e [k Hk]%list_elem_of_lookup.
      pose proof (Hhi k _ ltac:(lia) Hk) as Hge.
      destruct (decide (Version e = v)) as [Heq|]; [|lia].
      destruct (decide (k = 0%nat)) as [->|Hne].
      * destruct Hfound as [_ Hf]. discriminate Hf. eauto.
      * destruct (lookup_lt_is_Some_2 vs 0%nat) as [e0 He0].
        { apply lookup_lt_Some in Hk. lia. }
        pose proof (Hhi 0%nat _ ltac:(lia) He0).
        assert (Version e0 < Version e); [|lia].
        apply (ascending_lookup vs 0%nat k); [done|lia|done..].
Qed.

End history.

(** * Compaction *)

Section compaction.

(** [Compact] picks its pivot exactly as [Fetch] picks the visible entry. *)
Lemma Compact_Fetch m minVersion :
  (2 <= length (values m))%nat →
  Compact (Some m) minVersion =
  match Fetch m minVersion with
  | None => Some m
  | Some pivot =>
      let newvs := filter (fun v => ¬ (Version v < Version pivot)) (values m) in
      if (length newvs =? length (values m))%nat then Some m
      else Some {| values := newvs |}
  end.
Proof.
  intros Hlen. unfold Compact, Fetch.
  destruct (values m) as [|a [|b l]] eqn:Hvs; simpl in Hlen; [lia..|].
  rewrite <- Hvs.
  destruct (BinarySearchFunc (values m) minVersion) as [r ok].
  destruct ok.
  - destruct (Z.ltb_spec (Z.of_nat r) 0) as [?|_]; [lia|].
    by rewrite Nat2Z.id.
  - destruct (Z.ltb_spec (Z.of_nat r - 1) 0) as [Hneg|Hpos].
    + destruct (Z.leb_spec 0 (Z.of_nat r - 1)); [lia|done].
    + destruct (Z.leb_spec 0 (Z.of_nat r - 1)); [|lia]. simpl.
      destruct (Z.ltb_spec (Z.of_nat r - 1) (Z.of_nat (length (values m))))
        as [Hin|Hout]; [done|].
      rewrite lookup_ge_None_2; [done|lia].
Qed.

Lemma filter_length_eq {A} (P : A → Prop) `{!∀ x, Decision (P x)} (l : list A) :
  length (filter P l) = length l → filter P l = l.
Proof.
  induction l as [|x l IH]; [done|].
  rewrite filter_cons. destruct (decide (P x)); simpl; intros Hl.
  - f_equal. apply IH. lia.
  - pose proof (length_filter P l). lia.
Qed.

Lemma filter_ext_elem_of {A} (P Q : A → Prop)
    `{!∀ x, Decision (P x)} `{!∀ x, Decision (Q x)} (l : list A) :
  (∀ x, x ∈ l → P x ↔ Q x) → filter P l = filter Q l.
Proof.
  induction l as [|x l IH]; intros HPQ; [done|].
  rewrite !filter_cons.
  assert (P x ↔ Q x) by (apply HPQ; left).
  assert (filter P l = filter Q l) as ->
    by (apply IH; intros y Hy; apply HPQ; by right).
  destruct (decide (P x)), (decide (Q x)); tauto || done.
Qed.

Lemma filter_all {A} (P : A → Prop) `{!∀ x, Decision (P x)} (l : list A) :
  (∀ x, x ∈ l → P x) → filter P l = l.
Proof.
  induction l as [|x l IH]; intros HP; [done|].
  rewrite filter_cons, decide_True by (apply HP; left).
  f_equal. apply IH. intros y Hy. apply HP. by right.
Qed.

Lemma ascending_last_max vs e e' :
  ascending vs → last vs = Some e → e' ∈ vs → Version e' <= Version e.
Proof.
  intros Hs Hlast [k Hk]%list_elem_of_lookup.
  rewrite last_lookup in Hlast.
  destruct (decide (k = pred (length vs))) as [->|Hne].
  - replace e' with e by congruence. lia.
  - apply lookup_lt_Some in Hk as Hlt.
    pose proof (ascending_lookup vs k (pred (length vs)) e' e Hs ltac:(lia) Hk Hlast).
    lia.
Qed.

(** With at least two entries, [Compact] never returns nil and keeps the
    entries at or above the pivot, in their order. *)
Lemma Compact_multi vs minVersion :
  ascending vs → (2 <= length vs)%nat →
  ∃ kept, Compact (Some {| values := vs |}) minVersion = Some {| values := kept |} ∧
          kept = filter (fun e => retained vs minVersion e) vs ∧
          (kept = vs → Compact (Some {| values := vs |}) minVersion
                       = Some {| values := vs |}).
Proof.
  intros Hs Hlen. exists (filter (fun e => retained vs minVersion e) vs).
  rewrite Compact_Fetch by done.
  pose proof (Fetch_spec vs minVersion Hs) as Hf.
  destruct (Fetch {| values := vs |} minVersion) as [pivot|]; cbn [values] in *.
  - assert (Heq : filter (fun v => ¬ (Version v < Version pivot)) vs
                  = filter (fun e => retained vs minVersion e) vs).
    { apply filter_ext_elem_of. intros e He.
      destruct Hf as (Hp & Hpv & Hmax). unfold retained. split.
      - intros Hge.
        destruct (decide (Version e <= minVersion)) as [Hle|Hgt]; [|right; left; lia].
        right; right.
        assert (e = pivot) as ->; [|done].
        apply (ascending_inj vs); [done..|]. specialize (Hmax e He Hle). lia.
      - intros [Hlast | [Hmin | Hl]].
        + pose proof (ascending_last_max vs e pivot Hs Hlast Hp). lia.
        + lia.
        + assert (e = pivot) as ->; [|lia].
          by apply (latest_upto_unique vs minVersion). }
    cbn zeta. rewrite Heq.
    destruct (Nat.eqb_spec (length (filter (fun e => retained vs minVersion e) vs))
                           (length vs)) as [Hl|Hl].
    + apply filter_length_eq in Hl. rewrite Hl. done.
    + split; [done|]. split; [done|]. intros Hk. by rewrite Hk in Hl.
  - assert (Heq : filter (fun e => retained vs minVersion e) vs = vs).
    { apply filter_all. intros e He. right; left.
      specialize (Hf e He). lia. }
    rewrite Heq. done.
Qed.

End compaction.

(** C6 (as amended). For an ascending history [vs] and any [minVersion]:
    a single-entry history compacts to nil exactly when its entry is a
    tombstone below [minVersion] and is otherwise returned as it is; a
    history of two or more entries never compacts to nil, and what is kept is
    exactly the entries that are the most recent one, or at or above
    [minVersion], or the newest entry at or below [minVersion], in their
    order; and when nothing is removed the result is the input itself. *)
Theorem Compact_retention vs minVersion :
  ascending vs → vs ≠ [] →
  (∀ v, vs = [v] →
     Compact (Some {| values := vs |}) minVersion =
     if IsDeleted v && (Version v <? minVersion) then None
     else Some {| values := vs |}) ∧
  ((2 <= length vs)%nat →
     ∃ kept, Compact (Some {| values := vs |}) minVersion
             = Some {| values := kept |} ∧
             kept = filter (fun e => retained vs minVersion e) vs) ∧
  (∀ r, Compact (Some {| values := vs |}) minVersion = Some r →
        length (values r) = length vs → r = {| values := vs |}).
Proof.
  intros Hs Hne. split; [|split].
  - intros v ->. reflexivity.
  - intros Hlen.
    destruct (Compact_multi vs minVersion Hs Hlen) as (kept & Hc & Hk & _).
    eauto.
  - intros r Hr Hlen.
    destruct vs as [|a [|b l]]; [done| |].
    + simpl in Hr. destruct (IsDeleted a && (Version a <? minVersion)); congruence.
    + destruct (Compact_multi (a :: b :: l) minVersion Hs) as (kept & Hc & Hk & _);
        [simpl; lia|].
      rewrite Hc in Hr. injection Hr as <-. cbn [values] in Hlen.
      f_equal. subst kept. by apply filter_length_eq.
Qed.

Lemma Compact_retention_witness :
  Compact (Some {| values := [mkValue 1 "a"; mkValue 5 "b"; mkValue 9 "c"] |}) 7
  = Some {| values := [mkValue 5 "b"; mkValue 9 "c"] |}.
Proof.
  destruct (Compact_retention [mkValue 1 "a"; mkValue 5 "b"; mkValue 9 "c"] 7)
    as (_ & Hmulti & _).
  - apply (bool_decide_unpack _). vm_compute. exact I.
  - discriminate.
  - destruct Hmulti as (kept & -> & ->); [simpl; lia|]. reflexivity.
Defined.

(** C6 as the specification states it fails: compacting versions 1, 5, 9 at
    [minVersion = 7] keeps version 5, which is neither the most recent entry,
    nor at or above 7, nor a single surviving entry; and compacting a live
    version 1 followed by a tombstone at version 2 at [minVersion = 5] leaves
    the tombstone alone in the history instead of returning nil. *)
Lemma Compact_spec_retention_counterexample :
  (let vs := [mkValue 1 "a"; mkValue 5 "b"; mkValue 9 "c"] in
   ∃ kept e, Compact (Some {| values := vs |}) 7 = Some {| values := kept |} ∧
             e ∈ kept ∧ ¬ spec_retained vs 7 kept e) ∧
  (let vs := [mkValue 1 "a"; mkValue (-2) ""] in
   ∃ e, Compact (Some {| values := vs |}) 5 = Some {| values := [e] |} ∧
        IsDeleted e = true ∧ Version e < 5).
Proof.
  split.
  - exists [mkValue 5 "b"; mkValue 9 "c"], (mkValue 5 "b").
    split; [reflexivity|]. split; [left|].
    intros [H | [H | [H _]]]; [discriminate H | vm_compute in H; by apply H | discriminate H].
  - exists (mkValue (-2) ""). split; [reflexivity|]. split; [reflexivity|].
    vm_compute. reflexivity.
Qed.

(** * The commit protocol on well-formed states *)

Section histories_under_commit.

Lemma wf_value_mono maxv maxv' e :
  maxv <= maxv' → wf_value maxv e → wf_value maxv' e.
Proof. unfold wf_value. lia. Qed.

Lemma wf_history_mono maxv maxv' mv :
  maxv <= maxv' → wf_history maxv mv → wf_history maxv' mv.
Proof.
  intros Hle (Hne & Hs & Hall). repeat split; [done..|].
  eapply Forall_impl; [done|]. intros e. by apply wf_value_mono.
Qed.

Lemma ascending_filter (P : Value → Prop) `{!∀ x, Decision (P x)} vs :
  ascending vs → ascending (filter P vs).
Proof.
  induction 1 as [|x l Hl IH Hx]; [constructor|].
  rewrite filter_cons. destruct (decide (P x)); [|done].
  constructor; [done|]. rewrite Forall_forall in *.
  intros y Hy%list_elem_of_filter. apply Hx, Hy.
Qed.

Lemma ascending_snoc vs v :
  ascending vs → (∀ e, e ∈ vs → Version e < Version v) → ascending (vs ++ [v]).
Proof.
  intros Hs Hlt. apply StronglySorted_app_2; [|done|repeat constructor].
  intros x1 x2 Hx1 ->%list_elem_of_singleton. by apply Hlt.
Qed.

Lemma IsSortedFunc_ascending vs maxv :
  maxv <= MaxInt64 → Forall (wf_value maxv) vs → ascending vs →
  IsSortedFunc vs = true.
Proof.
  intros Hmax Hall Hs. induction Hs as [|x l Hl IH Hx]; [done|].
  apply Forall_cons in Hall as [[Hx0 Hx1] Hall].
  cbn [IsSortedFunc]. destruct l as [|b l]; [done|].
  rewrite IH by done. rewrite andb_true_r.
  apply Forall_cons in Hall as [[Hb0 Hb1] _].
  apply Forall_cons in Hx as [Hxb _].
  rewrite wrap64_id by (unfold int64_range, MinInt64, MaxInt64 in *; lia).
  apply negb_true_iff, Z.ltb_ge. lia.
Qed.

(** Appending a version newer than the counter to a well-formed history
    goes through. *)
Lemma Append_wf maxv mv v :
  0 <= maxv → maxv <= MaxInt64 → wf_history maxv mv →
  maxv < Version v → Version v <= MaxInt64 →
  Append (Some mv) v = Ret {| values := values mv ++ [v] |} ∧
  wf_history (Version v) {| values := values mv ++ [v] |}.
Proof.
  intros Hmin Hmax (Hne & Hs & Hall) Hv Hvmax.
  assert (Hlt : ∀ e, e ∈ values mv → Version e < Version v).
  { intros e He. rewrite Forall_forall in Hall. destruct (Hall e He). lia. }
  assert (Hs' : ascending (values mv ++ [v])) by by apply ascending_snoc.
  assert (Hall' : Forall (wf_value (Version v)) (values mv ++ [v])).
  { apply Forall_app. split.
    - eapply Forall_impl; [done|]. intros e. apply wf_value_mono. lia.
    - apply Forall_singleton. unfold wf_value. lia. }
  split.
  - unfold Append.
    destruct (last (values mv)) as [lastv|] eqn:Hlast.
    2:{ by apply last_None in Hlast. }
    rewrite (IsSortedFunc_ascending _ maxv) by done. cbn [negb].
    assert (Version lastv < Version v).
    { apply Hlt. rewrite last_lookup in Hlast. by eapply list_elem_of_lookup_2. }
    destruct (Z.leb_spec (Version v) (Version lastv)); [lia|].
    cbn zeta. by rewrite (IsSortedFunc_ascending _ (Version v)).
  - repeat split; [|done..]. by destruct (values mv).
Qed.

(** One buffered write lands on an existing history: append, then compact.
    The outcome is a well-formed history that ends with the new value. *)
Lemma append_compact_wf maxv mv v minVersion :
  0 <= maxv → maxv <= MaxInt64 → wf_history maxv mv →
  maxv < Version v → Version v <= MaxInt64 →
  ∃ nmv, Compact (Some {| values := values mv ++ [v] |}) minVersion = Some nmv ∧
         wf_history (Version v) nmv ∧ last (values nmv) = Some v.
Proof.
  intros Hmin Hmax Hwf Hv Hvmax.
  destruct (Append_wf maxv mv v) as (_ & Hne' & Hs' & Hall'); [done..|].
  cbn [values] in *.
  destruct (Compact_multi (values mv ++ [v]) minVersion Hs') as (kept & Hc & Hk & _).
  { destruct Hwf as (Hne & _). rewrite length_app; simpl.
    destruct (values mv); [done|simpl; lia]. }
  exists {| values := kept |}. split; [done|]. cbn [values].
  assert (Hkept : kept = filter (fun e => retained (values mv ++ [v]) minVersion e)
                               (values mv) ++ [v]).
  { rewrite Hk, filter_app. f_equal.
    rewrite filter_cons, decide_True; [done|]. left. apply last_snoc. }
  split; [|rewrite Hkept; apply last_snoc].
  repeat split.
  - rewrite Hkept. by destruct (filter _ (values mv)).
  - rewrite Hk. by apply ascending_filter.
  - rewrite Hk. apply Forall_forall. intros e [_ He]%list_elem_of_filter.
    rewrite Forall_forall in Hall'. by apply Hall'.
Qed.

End histories_under_commit.

Section apply.

Lemma written_Version ver value :
  0 < ver → ver <= MaxInt64 → Version (written ver value) = ver.
Proof.
  intros H0 Hmax. unfold Version, IsDeleted.
  destruct value; simpl.
  - destruct (Z.ltb_spec ver 0); [lia|done].
  - destruct (Z.ltb_spec (- ver) 0); [|lia].
    rewrite wrap64_id; [lia|]. unfold int64_range, MinInt64, MaxInt64 in *. lia.
Qed.

Lemma written_IsDeleted ver value :
  0 < ver → IsDeleted (written ver value) = bool_decide (value = None).
Proof.
  intros H0. unfold IsDeleted. destruct value; simpl.
  - destruct (Z.ltb_spec ver 0); [lia|done].
  - destruct (Z.ltb_spec (- ver) 0); [done|lia].
Qed.

(** The three calls [NewValue], then [Delete] or [SetData], build [written]. *)
Lemma NewValue_written ver value :
  0 < ver → ver <= MaxInt64 →
  NewValue ver ≫= (fun v0 =>
    Ret (match value with None => Delete v0 | Some s => SetData v0 s end))
  = Ret (written ver value).
Proof.
  intros H0 Hmax. unfold NewValue.
  destruct (Z.leb_spec ver 0); [lia|]. cbn.
  destruct value; unfold SetData, Delete, IsDeleted; simpl.
  - destruct (Z.ltb_spec ver 0); [lia|done].
  - destruct (Z.ltb_spec 0 ver); [|lia].
    rewrite wrap64_id; [done|]. unfold int64_range, MinInt64, MaxInt64 in *. lia.
Qed.

Lemma NewValue_panics ver : ver <= 0 → ∃ msg, NewValue ver = Panic msg.
Proof.
  intros H. unfold NewValue. destruct (Z.leb_spec ver 0); [eauto|lia].
Qed.

(** One buffered write on a state whose history for the key, if any, holds
    versions up to [maxv] only. *)
Lemma apply_write_wf maxv minVersion m key value :
  0 <= maxv → maxv < MaxInt64 →
  (∀ mv, m !! key = Some mv → wf_history maxv mv) →
  ∃ nmv, apply_write minVersion (maxv + 1) m (key, value) = Ret (<[key := nmv]> m) ∧
         wf_history (maxv + 1) nmv ∧
         last (values nmv) = Some (written (maxv + 1) value) ∧
         (m !! key = None → nmv = NewMultiValue (written (maxv + 1) value)).
Proof.
  intros Hmin Hmax Hkey. unfold apply_write.
  pose proof (NewValue_written (maxv + 1) value ltac:(lia) ltac:(lia)) as Hnew.
  unfold NewValue in *. destruct (Z.leb_spec (maxv + 1) 0); [lia|].
  cbn in Hnew. injection Hnew as Hnew.
  unfold mbind, outcome_bind. rewrite Hnew.
  pose proof (written_Version (maxv + 1) value ltac:(lia) ltac:(lia)) as Hver.
  destruct (m !! key) as [mv|] eqn:Hm.
  - destruct (Append_wf maxv mv (written (maxv + 1) value)) as (-> & _);
      [lia|lia|by apply Hkey|lia|lia|].
    destruct (append_compact_wf maxv mv (written (maxv + 1) value) minVersion)
      as (nmv & -> & Hwf & Hlast); [lia|lia|by apply Hkey|lia|lia|].
    exists nmv. rewrite Hver in Hwf. done.
  - exists (NewMultiValue (written (maxv + 1) value)).
    split; [done|]. split; [|done].
    repeat split; [done|repeat constructor|].
    apply Forall_singleton. unfold wf_value. lia.
Qed.

(** The whole write set, one key at a time: keys outside it keep their
    history, keys inside it get a well-formed history ending with the value
    written at the new version. *)
Lemma apply_writes_wf maxv minVersion ws m :
  0 <= maxv → maxv < MaxInt64 →
  NoDup ws.*1 →
  (∀ k mv, k ∈ ws.*1 → m !! k = Some mv → wf_history maxv mv) →
  ∃ m', apply_writes minVersion (maxv + 1) m ws = Ret m' ∧
        (∀ k, k ∉ ws.*1 → m' !! k = m !! k) ∧
        (∀ k value, (k, value) ∈ ws →
           ∃ nmv, m' !! k = Some nmv ∧ wf_history (maxv + 1) nmv ∧
                  last (values nmv) = Some (written (maxv + 1) value) ∧
                  (m !! k = None → nmv = NewMultiValue (written (maxv + 1) value))).
Proof.
  intros Hmin Hmax. revert m.
  induction ws as [|[key value] ws IH]; intros m Hnd Hm.
  - exists m. split; [done|]. split; [done|]. intros k value H. by apply elem_of_nil in H.
  - cbn in Hnd. apply NoDup_cons in Hnd as [Hkey Hnd].
    destruct (apply_write_wf maxv minVersion m key value Hmin Hmax)
      as (nmv & Hw & Hwf & Hlast & Hnew).
    { intros mv. apply Hm. cbn. left. }
    destruct (IH (<[key := nmv]> m) Hnd) as (m' & Hws & Hout & Hin).
    { intros k mv Hk. rewrite lookup_insert_ne by (intros ->; done).
      apply Hm. cbn. by right. }
    exists m'. split; [cbn [apply_writes]; rewrite Hw; exact Hws|]. split.
    + intros k Hk. cbn in Hk. apply not_elem_of_cons in Hk as [Hne Hk].
      rewrite Hout by done. by rewrite lookup_insert_ne.
    + intros k value' [Heq | Hk]%elem_of_cons.
      * injection Heq as -> ->. exists nmv.
        rewrite Hout by done. rewrite lookup_insert_eq. done.
      * destruct (Hin k value' Hk) as (nmv' & ? & ? & ? & Hnew').
        exists nmv'. do 3 (split; [done|]).
        intros Hnone. apply Hnew'. rewrite lookup_insert_ne; [done|].
        intros ->. apply Hkey. apply list_elem_of_fmap. by exists (k, value').
Qed.

End apply.

Section commit_cases.

(** The ways [commit] can return without an error. *)
Lemma commit_success_inv w t w' :
  commit w t = Ret (w', None) →
  ∃ T, txs w !! t = Some T ∧ db T = true ∧ committed T = false ∧
       ((writes T = ∅ ∧ w' = set_tx w t (with_committed T true)) ∨
        (writes T ≠ ∅ ∧
         ssi_check w T (peers_of (database w) t) = None ∧
         ww_check (database w) T (map_to_list (writes T)).*1 = None ∧
         ∃ kvs', apply_writes (minVersionLocked w)
                   (wrap64 (maxCommitVersion (database w) + 1))
                   (kvs (database w)) (map_to_list (writes T)) = Ret kvs' ∧
                 w' = published w t T
                        (wrap64 (maxCommitVersion (database w) + 1)) kvs')).
Proof.
  unfold commit. intros H.
  destruct (txs w !! t) as [T|]; [|done]. exists T. split; [done|].
  destruct (db T); [|done]. destruct (committed T); [done|]. cbn [negb] in H.
  do 2 (split; [done|]).
  case_bool_decide as Hw.
  - left. by injection H as <-.
  - right. split; [done|].
    destruct (ssi_check _ _ _); [done|].
    destruct (ww_check _ _ _); [done|]. do 2 (split; [done|]).
    destruct (apply_writes _ _ _ _) as [kvs'|]; [|done].
    exists kvs'. split; [done|]. by injection H as <-.
Qed.

(** A commit that returns an error leaves the whole state as it was. *)
Lemma commit_failure_frame w t w' e :
  commit w t = Ret (w', Some e) → w' = w.
Proof.
  unfold commit. intros H.
  destruct (txs w !! t) as [T|]; [|done].
  destruct (db T); [|by injection H]. destruct (committed T); [by injection H|].
  cbn [negb] in H. case_bool_decide; [done|].
  destruct (ssi_check _ _ _); [by injection H|].
  destruct (ww_check _ _ _); [by injection H|].
  by destruct (apply_writes _ _ _ _).
Qed.

(** Applying a non-empty write set calls [NewValue], which panics unless the
    new version is positive. *)
Lemma apply_writes_positive minVersion ver m ws m' :
  ws ≠ [] → apply_writes minVersion ver m ws = Ret m' → 0 < ver.
Proof.
  destruct ws as [|[key value] ws]; [done|]. intros _.
  cbn [apply_writes]. unfold apply_write, NewValue.
  destruct (Z.leb_spec ver 0); [done|lia].
Qed.

Lemma wrap64_succ_positive z :
  int64_range z → 0 < wrap64 (z + 1) → wrap64 (z + 1) = z + 1 ∧ z < MaxInt64.
Proof.
  intros Hr Hpos.
  destruct (decide (z = MaxInt64)) as [->|Hne].
  - vm_compute in Hpos. discriminate.
  - assert (int64_range (z + 1)) by (unfold int64_range in *; lia).
    rewrite wrap64_id by done. unfold int64_range in *. lia.
Qed.

(** The state after a commit that wrote: the counter moved by one, the keys
    outside the write set kept their histories, and each key written has a
    well-formed history ending with the value written. *)
Lemma commit_write_post w t T w' :
  wf w → txs w !! t = Some T → writes T ≠ ∅ →
  commit w t = Ret (w', None) →
  let maxv := maxCommitVersion (database w) in
  maxv < MaxInt64 ∧
  ∃ kvs', w' = published w t T (maxv + 1) kvs' ∧
    (∀ k, writes T !! k = None → kvs' !! k = kvs (database w) !! k) ∧
    (∀ k value, writes T !! k = Some value →
       ∃ nmv, kvs' !! k = Some nmv ∧ wf_history (maxv + 1) nmv ∧
              last (values nmv) = Some (written (maxv + 1) value) ∧
              (kvs (database w) !! k = None →
               nmv = NewMultiValue (written (maxv + 1) value))).
Proof.
  intros ((Hmin & Hmax) & Hkvs & Htxs) HT Hw Hc. cbn zeta in *.
  apply commit_success_inv in Hc as (T' & HT' & _ & _ & [[He _] | Hc]).
  { congruence. }
  replace T' with T in * by congruence.
  destruct Hc as (_ & _ & _ & kvs' & Happ & ->).
  set (maxv := maxCommitVersion (database w)) in *.
  assert (Hpos : 0 < wrap64 (maxv + 1)).
  { eapply apply_writes_positive; [|done]. by rewrite map_to_list_empty_iff. }
  apply wrap64_succ_positive in Hpos as [Hwrap Hlt];
    [|unfold int64_range, MinInt64; lia].
  split; [done|]. rewrite Hwrap in *.
  destruct (apply_writes_wf maxv (minVersionLocked w) (map_to_list (writes T))
              (kvs (database w)))
    as (m' & Happ' & Hout & Hin); [done|done|apply NoDup_fst_map_to_list| |].
  { intros k mv _ Hk. by apply (Hkvs k). }
  rewrite Happ' in Happ. injection Happ as ->.
  exists kvs'. split; [done|]. split.
  - intros k Hk. apply Hout. intros [[k' v] [-> Hkv]]%list_elem_of_fmap.
    apply elem_of_map_to_list in Hkv. cbn in Hk. congruence.
  - intros k value Hk. apply Hin. by apply elem_of_map_to_list.
Qed.

End commit_cases.

(** * Calls that leave the committed data alone *)

Section quiet_calls.

Lemma quiet_refl w : quiet w w.
Proof. unfold quiet, snapvers_kept. auto. Qed.

Lemma quiet_trans w1 w2 w3 : quiet w1 w2 → quiet w2 w3 → quiet w1 w3.
Proof.
  intros (Hm1 & Hk1 & Hs1 & Hf1) (Hm2 & Hk2 & Hs2 & Hf2).
  split; [congruence|]. split; [congruence|]. split.
  - intros t sv H. by apply Hs2, Hs1.
  - intros H. rewrite Hm1 in Hf2. by apply Hf2, Hf1.
Qed.

Lemma quiet_wf w w' : quiet w w' → wf w → wf w'.
Proof.
  intros (Hm & Hk & _ & Hf) (Hrange & Hkvs & Htxs).
  unfold wf. rewrite Hm, Hk. by auto.
Qed.

Lemma quiet_advances w w' : quiet w w' → advances w w'.
Proof.
  intros (_ & Hk & _) key v H. exists v. unfold newest in *. rewrite Hk.
  split; [done|lia].
Qed.

Lemma quiet_set_tx w t T T' :
  txs w !! t = Some T → snapshotVersion T' = snapshotVersion T →
  quiet w (set_tx w t T').
Proof.
  intros HT Hsv. do 2 (split; [done|]). split.
  - intros t0 sv. unfold tx_snapver, set_tx; cbn [txs].
    destruct (decide (t0 = t)) as [->|Hne].
    + rewrite HT, list_lookup_insert_eq by by eapply lookup_lt_Some.
      cbn. congruence.
    + by rewrite list_lookup_insert_ne.
  - intros Hall. cbn [txs set_tx]. apply Forall_insert; [done|].
    rewrite Hsv. by eapply (Forall_lookup_1 _ _ _ _ Hall).
Qed.

Lemma quiet_set_database w d :
  maxCommitVersion d = maxCommitVersion (database w) →
  kvs d = kvs (database w) → quiet w (set_database w d).
Proof. intros Hm Hk. unfold quiet, snapvers_kept. auto. Qed.

Lemma quiet_closeTransaction w t : quiet w (closeTransaction w t).
Proof.
  unfold closeTransaction.
  destruct (txs w !! t) as [T|] eqn:HT; [|by apply quiet_set_database].
  eapply quiet_trans; [|eapply quiet_set_tx; [exact HT|done]].
  by apply quiet_set_database.
Qed.

Lemma quiet_closeSnapshot w s : quiet w (closeSnapshot w s).
Proof.
  unfold closeSnapshot.
  destruct (snaps w !! s) as [sn|]; [|by apply quiet_set_database].
  unfold quiet, snapvers_kept. auto.
Qed.

Lemma quiet_NewSnapshot w : quiet w (NewSnapshot w).1.
Proof. unfold quiet, snapvers_kept. auto. Qed.

Lemma quiet_NewTransaction w : quiet w (NewTransaction w).1.
Proof.
  do 2 (split; [done|]). split.
  - intros t sv. unfold tx_snapver, NewTransaction; cbn [txs fst].
    intros H. destruct (txs w !! t) as [T|] eqn:HT; [|done].
    by rewrite (lookup_app_l_Some _ _ _ _ HT).
  - intros Hall. cbn [txs NewTransaction fst]. apply Forall_app. split; [done|].
    apply Forall_singleton. cbn. lia.
Qed.

Lemma quiet_Transaction_Set w t key value w' err :
  Transaction_Set w t key value = Ret (w', err) → quiet w w'.
Proof.
  unfold Transaction_Set. intros H.
  destruct (txs w !! t) as [T|] eqn:HT; [|done].
  case_bool_decide; [injection H as <- _; apply quiet_refl|].
  destruct value as [r|]; [|injection H as <- _; apply quiet_refl].
  destruct (ReadAll r) as [s [e|]]; injection H as <- _;
    [apply quiet_refl|by eapply quiet_set_tx].
Qed.

Lemma quiet_Transaction_Delete w t key w' err :
  Transaction_Delete w t key = Ret (w', err) → quiet w w'.
Proof.
  unfold Transaction_Delete. intros H.
  destruct (txs w !! t) as [T|] eqn:HT; [|done].
  case_bool_decide; injection H as <- _;
    [apply quiet_refl|by eapply quiet_set_tx].
Qed.

Lemma quiet_Transaction_Get w t key w' r :
  Transaction_Get w t key = Ret (w', r) → quiet w w'.
Proof.
  unfold Transaction_Get. intros H.
  destruct (txs w !! t) as [T|] eqn:HT; [|done].
  repeat (case_match; simplify_eq; try apply quiet_refl).
  by eapply quiet_set_tx.
Qed.

Lemma quiet_Transaction_loop t yield keys :
  ∀ w it w' it', Transaction_loop w t yield keys it = Ret (w', it') → quiet w w'.
Proof.
  induction keys as [|key keys IH]; intros w it w' it' H; cbn [Transaction_loop] in H.
  - injection H as <- _. apply quiet_refl.
  - destruct (Transaction_Get w t key) as [[w1 r]|] eqn:Hg; [|done].
    apply quiet_Transaction_Get in Hg. cbn in H.
    destruct r as [value|err].
    + destruct (yield key value).
      * eapply quiet_trans; [done|]. by eapply IH.
      * by injection H as <- _.
    + case_bool_decide.
      * eapply quiet_trans; [done|]. by eapply IH.
      * by injection H as <- _.
Qed.

Lemma quiet_Transaction_Scan w t slot yield w' it :
  Transaction_Scan w t slot yield = Ret (w', it) → quiet w w'.
Proof.
  unfold Transaction_Scan. intros H.
  destruct (Transaction_keys w t "" "") as [keys|]; [|done].
  by eapply quiet_Transaction_loop.
Qed.

Lemma quiet_Transaction_Ascend w t b e slot yield w' it :
  Transaction_Ascend w t b e slot yield = Ret (w', it) → quiet w w'.
Proof.
  unfold Transaction_Ascend. intros H.
  destruct (bad_range b e); [injection H as <- _; apply quiet_refl|].
  destruct (Transaction_keys w t b e) as [keys|]; [|done].
  by eapply quiet_Transaction_loop.
Qed.

Lemma quiet_Transaction_Descend w t b e slot yield w' it :
  Transaction_Descend w t b e slot yield = Ret (w', it) → quiet w w'.
Proof.
  unfold Transaction_Descend. intros H.
  destruct (bad_range b e); [injection H as <- _; apply quiet_refl|].
  destruct (Transaction_keys w t b e) as [keys|]; [|done].
  by eapply quiet_Transaction_loop.
Qed.

Lemma quiet_Transaction_Rollback w t w' err :
  Transaction_Rollback w t = Ret (w', err) → quiet w w'.
Proof.
  unfold Transaction_Rollback. intros H.
  destruct (txs w !! t) as [T|]; [|done].
  destruct (db T); injection H as <- _;
    [apply quiet_closeTransaction|apply quiet_refl].
Qed.

Lemma quiet_Snapshot_Discard w s w' err :
  Snapshot_Discard w s = Ret (w', err) → quiet w w'.
Proof.
  unfold Snapshot_Discard. intros H.
  destruct (snaps w !! s) as [sn|]; [|done].
  destruct (snap_db sn); injection H as <- _;
    [apply quiet_closeSnapshot|apply quiet_refl].
Qed.

End quiet_calls.

(** * Runs of the interface preserve the invariants *)

Section runs.

Lemma snapvers_kept_trans w1 w2 w3 :
  snapvers_kept w1 w2 → snapvers_kept w2 w3 → snapvers_kept w1 w3.
Proof. unfold snapvers_kept. auto. Qed.

Lemma advances_trans w1 w2 w3 : advances w1 w2 → advances w2 w3 → advances w1 w3.
Proof.
  intros H1 H2 key v Hv.
  destruct (H1 key v Hv) as (v' & Hv' & Hle).
  destruct (H2 key v' Hv') as (v'' & Hv'' & Hle').
  exists v''. split; [done|lia].
Qed.

Lemma newest_bound w key v : wf w → newest w key = Some v →
  v <= maxCommitVersion (database w).
Proof.
  intros (_ & Hkvs & _). unfold newest.
  destruct (kvs (database w) !! key) as [mv|] eqn:Hmv; [|done]. cbn.
  destruct (last (values mv)) as [e|] eqn:Hlast; [|done]. cbn. intros [= <-].
  destruct (Hkvs key mv Hmv) as (_ & _ & Hall).
  rewrite Forall_forall in Hall. apply Hall.
  rewrite last_lookup in Hlast. by eapply list_elem_of_lookup_2.
Qed.

(** A commit that writes: the invariants hold afterwards, and every key of
    the write set has the new commit version as its newest version. *)
Lemma commit_write_step w t T w' :
  wf w → txs w !! t = Some T → writes T ≠ ∅ →
  commit w t = Ret (w', None) →
  wf w' ∧ snapvers_kept w w' ∧ advances w w' ∧
  maxCommitVersion (database w') = maxCommitVersion (database w) + 1 ∧
  (∀ key, is_Some (writes T !! key) →
          newest w' key = Some (maxCommitVersion (database w) + 1)).
Proof.
  intros Hwf HT Hw Hc.
  destruct (commit_write_post w t T w' Hwf HT Hw Hc) as (Hlt & kvs' & -> & Hout & Hin).
  pose proof Hwf as ((Hmin & Hmax) & Hkvs & Htxs).
  set (maxv := maxCommitVersion (database w)) in *.
  assert (Hnew : ∀ key, is_Some (writes T !! key) →
            newest (published w t T (maxv + 1) kvs') key = Some (maxv + 1)).
  { intros key [value Hv]. destruct (Hin key value Hv) as (nmv & Hk & _ & Hlast & _).
    unfold newest; cbn. rewrite Hk; cbn. rewrite Hlast; cbn.
    f_equal. apply written_Version; lia. }
  split; [|split; [|split; [|split]]]; [| | |done|done].
  - split; [cbn; lia|]. split.
    + intros k mv Hk. cbn in Hk |- *.
      destruct (writes T !! k) as [value|] eqn:Hwk.
      * destruct (Hin k value Hwk) as (nmv & Hk' & Hh & _). congruence.
      * rewrite Hout in Hk by done. eapply wf_history_mono; [|by eapply Hkvs].
        fold maxv. lia.
    + cbn. apply Forall_insert.
      * eapply Forall_impl; [done|]. cbn. fold maxv. intros; lia.
      * cbn. pose proof (Forall_lookup_1 _ _ _ _ Htxs HT) as H. cbn in H.
        fold maxv in H. lia.
  - intros t0 sv. unfold tx_snapver, published, set_tx; cbn [txs set_database].
    destruct (decide (t0 = t)) as [->|Hne].
    + rewrite HT, list_lookup_insert_eq by by eapply lookup_lt_Some. done.
    + by rewrite list_lookup_insert_ne.
  - intros key v Hv.
    destruct (writes T !! key) as [value|] eqn:Hwk.
    + exists (maxv + 1). split; [by apply Hnew|].
      pose proof (newest_bound w key v Hwf Hv). fold maxv in H. lia.
    + exists v. split; [|lia]. unfold newest in *; cbn. by rewrite Hout.
Qed.

Lemma Transaction_Commit_step w t w' err :
  wf w → Transaction_Commit w t = Ret (w', err) →
  wf w' ∧ snapvers_kept w w' ∧ advances w w'.
Proof.
  intros Hwf. unfold Transaction_Commit.
  destruct (txs w !! t) as [T|] eqn:HT; [|done].
  destruct (db T); cbn [negb].
  2:{ intros [= <- _]. split; [done|]. split; [by intros ?|apply quiet_advances, quiet_refl]. }
  destruct (commit w t) as [[w1 e1]|] eqn:Hc; [|done]. cbn. intros [= <- <-].
  pose proof (quiet_closeTransaction w1 t) as Hq.
  assert (wf w1 ∧ snapvers_kept w w1 ∧ advances w w1) as (Hwf1 & Hs1 & Ha1).
  { destruct e1 as [e|].
    - apply commit_failure_frame in Hc as ->.
      split; [done|]. split; [by intros ?|apply quiet_advances, quiet_refl].
    - destruct (decide (writes T = ∅)) as [He|Hne].
      + apply commit_success_inv in Hc as (T' & HT' & _ & _ & [[_ ->] | [Hne _]]).
        * assert (quiet w (set_tx w t (with_committed T' true))) as Hq'
            by by eapply quiet_set_tx.
          split; [by eapply quiet_wf|]. split; [apply Hq'|by apply quiet_advances].
        * congruence.
      + destruct (commit_write_step w t T w1 Hwf HT Hne Hc) as (? & ? & ? & _).
        done. }
  split; [by eapply quiet_wf|]. split.
  - eapply snapvers_kept_trans; [done|apply Hq].
  - eapply advances_trans; [done|by apply quiet_advances].
Qed.

Lemma exec_step w op w' :
  wf w → exec w op = Ret w' →
  wf w' ∧ snapvers_kept w w' ∧ advances w w'.
Proof.
  intros Hwf Hex.
  assert (Hquiet : ∀ w1, quiet w w1 → wf w1 ∧ snapvers_kept w w1 ∧ advances w w1).
  { intros w1 Hq. split; [by eapply quiet_wf|]. split; [apply Hq|by apply quiet_advances]. }
  destruct op; cbn in Hex.
  - injection Hex as <-. apply Hquiet, quiet_NewTransaction.
  - injection Hex as <-. apply Hquiet, quiet_NewSnapshot.
  - destruct (Snapshot_Discard w s) as [[w1 e]|] eqn:H; [|done].
    injection Hex as <-. by eapply Hquiet, quiet_Snapshot_Discard.
  - destruct (Transaction_Set w t key value) as [[w1 e]|] eqn:H; [|done].
    injection Hex as <-. by eapply Hquiet, quiet_Transaction_Set.
  - destruct (Transaction_Delete w t key) as [[w1 e]|] eqn:H; [|done].
    injection Hex as <-. by eapply Hquiet, quiet_Transaction_Delete.
  - destruct (Transaction_Get w t key) as [[w1 e]|] eqn:H; [|done].
    injection Hex as <-. by eapply Hquiet, quiet_Transaction_Get.
  - destruct (Transaction_Scan w t None yield) as [[w1 e]|] eqn:H; [|done].
    injection Hex as <-. by eapply Hquiet, quiet_Transaction_Scan.
  - destruct (Transaction_Ascend w t begin end_ None yield) as [[w1 e]|] eqn:H; [|done].
    injection Hex as <-. by eapply Hquiet, quiet_Transaction_Ascend.
  - destruct (Transaction_Descend w t begin end_ None yield) as [[w1 e]|] eqn:H; [|done].
    injection Hex as <-. by eapply Hquiet, quiet_Transaction_Descend.
  - destruct (Transaction_Commit w t) as [[w1 e]|] eqn:H; [|done].
    injection Hex as <-. by eapply Transaction_Commit_step.
  - destruct (Transaction_Rollback w t) as [[w1 e]|] eqn:H; [|done].
    injection Hex as <-. by eapply Hquiet, quiet_Transaction_Rollback.
Qed.

Lemma run_steps ops : ∀ w w',
  wf w → run w ops = Ret w' →
  wf w' ∧ snapvers_kept w w' ∧ advances w w'.
Proof.
  induction ops as [|op ops IH]; intros w w' Hwf Hrun; cbn [run] in Hrun.
  - injection Hrun as <-.
    split; [done|]. split; [by intros ?|apply quiet_advances, quiet_refl].
  - destruct (exec w op) as [w1|] eqn:Hex; [|done]. cbn in Hrun.
    destruct (exec_step w op w1 Hwf Hex) as (Hwf1 & Hs1 & Ha1).
    destruct (IH w1 w' Hwf1 Hrun) as (Hwf' & Hs' & Ha').
    split; [done|]. split.
    + by eapply snapvers_kept_trans.
    + by eapply advances_trans.
Qed.

(** Every state a client can reach from the empty database is well-formed. *)
Lemma wf_New : wf New.
Proof.
  split; [unfold MaxInt64; cbn; lia|]. split; [|by constructor].
  cbn. apply map_Forall_empty.
Qed.

Lemma wf_reachable ops w : run New ops = Ret w → wf w.
Proof. intros H. by destruct (run_steps ops New w wf_New H). Qed.

End runs.

(** * Write-write conflicts *)

Section write_write.

Lemma ssi_check_is_rw w T peers e :
  ssi_check w T peers = Some e → is_rw_dependency e = true.
Proof.
  induction peers as [|p peers IH]; [done|]. cbn [ssi_check].
  repeat case_match; try done; by intros [= <-].
Qed.

Lemma ww_check_key_is_ww d T key e :
  ww_check_key d T key = Some e → is_ww_conflict e = true.
Proof.
  unfold ww_check_key. repeat case_match; try done; by intros [= <-].
Qed.

Lemma ww_check_is_ww d T keys e :
  ww_check d T keys = Some e → is_ww_conflict e = true.
Proof.
  induction keys as [|k keys IH]; [done|]. cbn [ww_check].
  destruct (ww_check_key d T k) eqn:Hk; [|done].
  intros [= <-]. by eapply ww_check_key_is_ww.
Qed.

Lemma ww_check_elem_of d T keys key e0 :
  key ∈ keys → ww_check_key d T key = Some e0 →
  ∃ e, ww_check d T keys = Some e.
Proof.
  induction keys as [|k keys IH]; [by intros ?%elem_of_nil|].
  intros [->|Hin]%elem_of_cons Hk; cbn [ww_check].
  - rewrite Hk. eauto.
  - destruct (ww_check_key d T k); [eauto|]. by apply IH.
Qed.

(** The write-write check on a key whose newest version is past the
    snapshot: the key was created or updated after the transaction began. *)
Lemma ww_check_key_newer w T key v :
  wf w → newest w key = Some v → snapshotVersion T < v →
  ww_check_key (database w) T key = Some (ErrWWCreated key) ∨
  ww_check_key (database w) T key = Some (ErrWWUpdated key).
Proof.
  intros Hwf Hnew Hsv. pose proof Hwf as ((_ & Hmax) & Hkvs & _).
  unfold newest in Hnew. unfold ww_check_key.
  destruct (kvs (database w) !! key) as [mv|] eqn:Hmv; [|done]. cbn in Hnew.
  destruct (last (values mv)) as [lastv|] eqn:Hlast; [|done].
  cbn in Hnew. injection Hnew as <-.
  destruct (Hkvs key mv Hmv) as (_ & Hs & Hall).
  assert (Hin : lastv ∈ values mv).
  { rewrite last_lookup in Hlast. by eapply list_elem_of_lookup_2. }
  assert (Hle : Version lastv <= MaxInt64).
  { rewrite Forall_forall in Hall. destruct (Hall lastv Hin). lia. }
  destruct mv as [vs]; cbn [values] in *.
  pose proof (Fetch_spec vs MaxInt64 Hs) as Hcur.
  pose proof (Fetch_spec vs (snapshotVersion T) Hs) as Hini.
  destruct (Fetch {| values := vs |} MaxInt64) as [current|].
  2:{ specialize (Hcur lastv Hin). lia. }
  destruct Hcur as (_ & _ & Hcmax). specialize (Hcmax lastv Hin Hle).
  destruct (Fetch {| values := vs |} (snapshotVersion T)) as [initial|]; [|by left].
  destruct Hini as (_ & Hile & _). right.
  rewrite bool_decide_true; [done|lia].
Qed.

(** C1 (as amended). Let two transactions write the same key, and let the
    first commit successfully while the second has already begun. Whatever
    happens in between, the commit of the second does not succeed and leaves
    the committed data and the counter as they were. While the second is
    still open its commit aborts with an rw-dependency error of the SSI
    check or with a ww-conflict error; when the SSI check finds nothing, the
    error is a ww-conflict, and the check on the common key reports the key
    as created or as updated after the transaction began, by comparing the
    newest version of its history with the one visible at the snapshot. *)
Theorem first_committer_wins w0 t1 T1 t2 key w1 ops w2 T2 :
  wf w0 →
  txs w0 !! t1 = Some T1 → is_Some (writes T1 !! key) →
  is_Some (txs w0 !! t2) →
  Transaction_Commit w0 t1 = Ret (w1, None) →
  run w1 ops = Ret w2 →
  txs w2 !! t2 = Some T2 → is_Some (writes T2 !! key) →
  ∃ w3 e,
    Transaction_Commit w2 t2 = Ret (w3, Some e) ∧
    kvs (database w3) = kvs (database w2) ∧
    maxCommitVersion (database w3) = maxCommitVersion (database w2) ∧
    (db T2 = false ∨ committed T2 = true → e = ErrInvalid) ∧
    (db T2 = true → committed T2 = false →
       (is_rw_dependency e = true ∨ is_ww_conflict e = true) ∧
       (ssi_check w2 T2 (peers_of (database w2) t2) = None →
          is_ww_conflict e = true ∧
          (ww_check_key (database w2) T2 key = Some (ErrWWCreated key) ∨
           ww_check_key (database w2) T2 key = Some (ErrWWUpdated key)))).
Proof.
  intros Hwf HT1 Hk1 [T2' HT2'] Hc1 Hrun HT2 Hk2.
  (* the first commit *)
  unfold Transaction_Commit in Hc1. rewrite HT1 in Hc1.
  destruct (db T1); [|done]. cbn [negb] in Hc1.
  destruct (commit w0 t1) as [[w1' e1]|] eqn:Hcommit; [|done].
  cbn in Hc1. injection Hc1 as <- ->.
  assert (Hne1 : writes T1 ≠ ∅).
  { intros He. rewrite He, lookup_empty in Hk1. by destruct Hk1. }
  destruct (commit_write_step w0 t1 T1 w1' Hwf HT1 Hne1 Hcommit)
    as (Hwf1' & Hs1' & _ & _ & Hnew1).
  specialize (Hnew1 key Hk1).
  pose proof (quiet_closeTransaction w1' t1) as Hq1.
  assert (Hwf1 : wf (closeTransaction w1' t1)) by by eapply quiet_wf.
  (* the calls in between *)
  destruct (run_steps ops _ w2 Hwf1 Hrun) as (Hwf2 & Hs2 & Ha2).
  destruct (Ha2 key (maxCommitVersion (database w0) + 1)) as (v & Hv & Hle).
  { unfold newest in *. by rewrite (proj1 (proj2 Hq1)). }
  (* the snapshot of the second transaction predates the first commit *)
  assert (Hsv : snapshotVersion T2 < v).
  { assert (tx_snapver w2 t2 = Some (snapshotVersion T2')) as Hkept.
    { apply Hs2, Hq1, Hs1'. unfold tx_snapver. by rewrite HT2'. }
    unfold tx_snapver in Hkept. rewrite HT2 in Hkept. injection Hkept as ->.
    destruct Hwf as (_ & _ & Htxs).
    pose proof (Forall_lookup_1 _ _ _ _ Htxs HT2') as H. cbn in H. lia. }
  pose proof (ww_check_key_newer w2 T2 key v Hwf2 Hv Hsv) as Hww.
  (* the second commit *)
  unfold Transaction_Commit, commit. rewrite HT2.
  destruct (db T2) eqn:Hdb; cbn [negb].
  2:{ exists w2, ErrInvalid. split; [done|]. do 2 (split; [done|]).
      split; [done|]. intros [=]. }
  destruct (committed T2) eqn:Hcm.
  { exists (closeTransaction w2 t2), ErrInvalid. split; [done|].
    split; [apply quiet_closeTransaction|]. split; [apply quiet_closeTransaction|].
    split; [done|]. intros _ [=]. }
  assert (Hne2 : writes T2 ≠ ∅).
  { intros He. rewrite He, lookup_empty in Hk2. by destruct Hk2. }
  rewrite bool_decide_false by done.
  destruct (ssi_check w2 T2 (peers_of (database w2) t2)) as [e|] eqn:Hssi.
  { exists (closeTransaction w2 t2), e. split; [done|].
    split; [apply quiet_closeTransaction|]. split; [apply quiet_closeTransaction|].
    split; [by intros [[=]|[=]]|]. intros _ _. split; [|done].
    left. by eapply ssi_check_is_rw. }
  assert (∃ e, ww_check (database w2) T2 (map_to_list (writes T2)).*1 = Some e)
    as [e He].
  { destruct Hk2 as [value Hvalue].
    assert (key ∈ (map_to_list (writes T2)).*1) as Hin.
    { apply list_elem_of_fmap. exists (key, value).
      split; [done|]. by apply elem_of_map_to_list. }
    destruct Hww as [Hww|Hww]; by eapply ww_check_elem_of. }
  rewrite He. exists (closeTransaction w2 t2), e. split; [done|].
  split; [apply quiet_closeTransaction|]. split; [apply quiet_closeTransaction|].
  split; [by intros [[=]|[=]]|]. intros _ _.
  pose proof (ww_check_is_ww _ _ _ _ He). auto.
Qed.

End write_write.

Lemma first_committer_wins_witness :
  ∃ w3 e,
    Transaction_Commit (after (blind_writers ++ [OpCommit 1])) 2 = Ret (w3, Some e) ∧
    is_ww_conflict e = true.
Proof.
  destruct (first_committer_wins (after blind_writers) 1
              (tx_at (after blind_writers) 1) 2 "key1"
              (after (blind_writers ++ [OpCommit 1])) []
              (after (blind_writers ++ [OpCommit 1]))
              (tx_at (after (blind_writers ++ [OpCommit 1])) 2))
    as (w3 & e & Hc & _ & _ & _ & Hopen).
  - apply (bool_decide_unpack _). vm_compute. exact I.
  - vm_compute. reflexivity.
  - vm_compute. eauto.
  - vm_compute. eauto.
  - vm_compute. reflexivity.
  - reflexivity.
  - vm_compute. reflexivity.
  - vm_compute. eauto.
  - exists w3, e. split; [exact Hc|].
    apply Hopen; vm_compute; reflexivity.
Defined.

(** C1 as the specification states it fails: when both transactions read
    the key before setting it, the first commit succeeds and the second
    aborts in the SSI check, with an rw-dependency error and not with a
    ww-conflict error. *)
Lemma ww_conflict_error_counterexample :
  ∃ w1 w2,
    Transaction_Commit (after reading_writers) 1 = Ret (w1, None) ∧
    Transaction_Commit w1 2 = Ret (w2, Some (ErrSSIReadsUpdated ["key1"] 1)) ∧
    is_ww_conflict (ErrSSIReadsUpdated ["key1"] 1) = false.
Proof.
  exists (after (reading_writers ++ [OpCommit 1])),
         (after (reading_writers ++ [OpCommit 1; OpCommit 2])).
  split; [|split]; vm_compute; reflexivity.
Qed.

(** * The SSI check *)

Section ssi.

Lemma overlappingKeys_nonempty rs ws :
  overlappingKeys rs ws ≠ [] ↔ overlap rs ws.
Proof.
  unfold overlappingKeys, overlap. split.
  - intros Hne.
    destruct (filter _ _) as [|k l] eqn:Hf; [done|].
    assert (k ∈ filter (fun k => is_Some (ws !! k)) (map_to_list rs).*1) as Hk
      by (rewrite Hf; left).
    apply list_elem_of_filter in Hk as [Hws Hk].
    apply list_elem_of_fmap in Hk as ([k' v] & -> & Hkv).
    apply elem_of_map_to_list in Hkv. exists k'. eauto.
  - intros (k & [v Hv] & Hws) Hnil.
    assert (k ∈ filter (fun k => is_Some (ws !! k)) (map_to_list rs).*1) as Hk.
    { apply list_elem_of_filter. split; [done|].
      apply list_elem_of_fmap. exists (k, v). split; [done|].
      by apply elem_of_map_to_list. }
    rewrite Hnil in Hk. by apply elem_of_nil in Hk.
Qed.

(** A committed writer among the peers that overlaps ends the loop with an
    rw-dependency error, raised by it or by a peer before it. *)
Lemma ssi_check_aborts w T peers p P :
  p ∈ peers → txs w !! p = Some P → committed P = true → writes P ≠ ∅ →
  overlap (reads T) (writes P) ∨ overlap (reads P) (writes T) →
  ∃ e, ssi_check w T peers = Some e.
Proof.
  intros Hin HP Hc Hw Hov.
  induction peers as [|q peers IH]; [by apply elem_of_nil in Hin|].
  cbn [ssi_check].
  apply elem_of_cons in Hin as [<-|Hin].
  - rewrite HP, Hc. cbn [negb]. rewrite bool_decide_false by done.
    destruct (overlappingKeys (reads T) (writes P)) as [|k ks] eqn:H1; [|eauto].
    destruct (overlappingKeys (reads P) (writes T)) as [|k ks] eqn:H2; [|eauto].
    destruct Hov as [Hov|Hov]; apply overlappingKeys_nonempty in Hov; congruence.
  - destruct (IH Hin) as [e He]. rewrite He. repeat case_match; eauto.
Qed.

(** Peers that have not committed, and committed peers that wrote nothing,
    do not take part in the check. *)
Lemma ssi_check_skips w T peers :
  ssi_check w T peers = ssi_check w T (filter (committed_writer w) peers).
Proof.
  induction peers as [|q peers IH]; [done|].
  rewrite filter_cons.
  destruct (decide (committed_writer w q)) as [Hcw|Hcw];
    unfold committed_writer in Hcw; cbn [ssi_check];
    destruct (txs w !! q) as [Q|] eqn:HQ; try done.
  - destruct Hcw as [Hc Hw]. rewrite Hc. cbn [negb].
    rewrite bool_decide_false by done. by rewrite IH.
  - destruct (committed Q) eqn:Hc; cbn [negb]; [|done].
    case_bool_decide as Hw; [done|]. destruct Hcw. done.
Qed.

(** C2. When the commit of a write-transaction [T] runs the SSI check and a
    peer [P] recorded for [T] has committed with a non-empty write set, the
    commit aborts with an rw-dependency error as soon as the reads of [T]
    meet the writes of [P] or the reads of [P] meet the writes of [T]; the
    state is left as it was, apart from [T] being closed. Peers that have not
    committed and committed read-only peers are skipped by the check. *)
Theorem ssi_rw_dependency_aborts w t T p P :
  txs w !! t = Some T → db T = true → committed T = false → writes T ≠ ∅ →
  p ∈ peers_of (database w) t →
  txs w !! p = Some P → committed P = true → writes P ≠ ∅ →
  overlap (reads T) (writes P) ∨ overlap (reads P) (writes T) →
  (∃ e, is_rw_dependency e = true ∧
        commit w t = Ret (w, Some e) ∧
        Transaction_Commit w t = Ret (closeTransaction w t, Some e)) ∧
  (∀ peers, ssi_check w T peers
            = ssi_check w T (filter (committed_writer w) peers)).
Proof.
  intros HT Hdb Hcm Hw Hin HP HPc HPw Hov. split; [|apply ssi_check_skips].
  destruct (ssi_check_aborts w T _ p P Hin HP HPc HPw Hov) as [e He].
  exists e. split; [by eapply ssi_check_is_rw|].
  assert (commit w t = Ret (w, Some e)) as Hc.
  { unfold commit. rewrite HT, Hdb, Hcm. cbn [negb].
    rewrite bool_decide_false by done. by rewrite He. }
  split; [done|].
  unfold Transaction_Commit. rewrite HT, Hdb. cbn [negb]. by rewrite Hc.
Qed.

End ssi.

Lemma ssi_rw_dependency_aborts_witness :
  ∃ e, is_rw_dependency e = true ∧
       Transaction_Commit (after (reading_writers ++ [OpCommit 1])) 2
       = Ret (closeTransaction (after (reading_writers ++ [OpCommit 1])) 2, Some e).
Proof.
  destruct (ssi_rw_dependency_aborts
              (after (reading_writers ++ [OpCommit 1])) 2
              (tx_at (after (reading_writers ++ [OpCommit 1])) 2) 1%nat
              (tx_at (after (reading_writers ++ [OpCommit 1])) 1))
    as [(e & Hrw & _ & Hc) _].
  - vm_compute. reflexivity.
  - vm_compute. reflexivity.
  - vm_compute. reflexivity.
  - apply (bool_decide_unpack _). vm_compute. exact I.
  - apply (bool_decide_unpack _). vm_compute. exact I.
  - vm_compute. reflexivity.
  - vm_compute. reflexivity.
  - apply (bool_decide_unpack _). vm_compute. exact I.
  - left. exists "key1"%string. split; vm_compute; eauto.
  - exists e. split; [exact Hrw|exact Hc].
Defined.

(** * Reads *)

Section reads.

Lemma reads_as_fetch vs v :
  ascending vs →
  reads_as vs v
    match Fetch {| values := vs |} v with
    | Some e => if IsDeleted e then inr ErrNotExist else inl (Data e)
    | None => inr ErrNotExist
    end.
Proof.
  intros Hs. pose proof (Fetch_spec vs v Hs) as Hf.
  destruct (Fetch {| values := vs |} v) as [e|].
  - destruct (IsDeleted e) eqn:Hd.
    + right; left. eauto.
    + left. eauto.
  - right; right. split; [|done].
    intros e (He & Hle & _). specialize (Hf e He). lia.
Qed.

Lemma reads_as_lookup w key v :
  wf w →
  reads_as (history w key) v
    match kvs (database w) !! key with
    | Some mv =>
        match Fetch mv v with
        | Some e => if IsDeleted e then inr ErrNotExist else inl (Data e)
        | None => inr ErrNotExist
        end
    | None => inr ErrNotExist
    end.
Proof.
  intros (_ & Hkvs & _). unfold history.
  destruct (kvs (database w) !! key) as [[vs]|] eqn:Hk.
  - apply reads_as_fetch. by destruct (Hkvs key _ Hk) as (_ & ? & _).
  - right; right. split; [|done]. intros e (He & _). by apply elem_of_nil in He.
Qed.

(** C3. In a well-formed state and for a non-empty key: [get] on a live
    snapshot answers with the payload of the entry of the key's history with
    the largest version at or below the snapshot version, and with "does not
    exist" if that entry is a tombstone or there is none. On an open
    transaction a buffered write for the key overrides (its payload, or
    "does not exist" for a buffered deletion), then a cached read is
    answered without consulting the database, and otherwise the answer is
    that of a snapshot at the transaction's snapshot version, the database
    being left as it was and a payload found being cached in the reads. *)
Theorem get_reads_at_snapshot_version w key :
  wf w → key ≠ ""%string →
  (∀ s sn, snaps w !! s = Some sn → snap_db sn = true →
     ∃ r, Snapshot_Get w s key = Ret r ∧
          reads_as (history w key) (snap_snapshotVersion sn) r) ∧
  (∀ t T, txs w !! t = Some T → db T = true →
     match writes T !! key with
     | Some (Some p) => Transaction_Get w t key = Ret (w, inl p)
     | Some None => Transaction_Get w t key = Ret (w, inr ErrNotExist)
     | None =>
         match reads T !! key with
         | Some v => Transaction_Get w t key = Ret (w, inl (Data v))
         | None =>
             ∃ w' r, Transaction_Get w t key = Ret (w', r) ∧
                     reads_as (history w key) (snapshotVersion T) r ∧
                     database w' = database w ∧
                     (w' = w ∨
                      ∃ e, latest_upto (history w key) (snapshotVersion T) e ∧
                           r = inl (Data e) ∧
                           w' = set_tx w t (with_reads T (<[key := e]> (reads T))))
         end
     end).
Proof.
  intros Hwf Hkey. split.
  - intros s sn Hs Hdb. unfold Snapshot_Get.
    rewrite Hs, Hdb, bool_decide_false by done. cbn [negb].
    pose proof (reads_as_lookup w key (snap_snapshotVersion sn) Hwf) as Hr.
    destruct (kvs (database w) !! key) as [mv|]; [|eauto].
    destruct (Fetch mv (snap_snapshotVersion sn)) as [e|]; [|eauto].
    destruct (IsDeleted e); eauto.
  - intros t T HT Hdb. unfold Transaction_Get.
    rewrite HT, Hdb, bool_decide_false by done. cbn [negb].
    destruct (writes T !! key) as [[p|]|]; [done..|].
    destruct (reads T !! key) as [v|]; [done|].
    pose proof (reads_as_lookup w key (snapshotVersion T) Hwf) as Hr.
    pose proof Hwf as (_ & Hkvs & _).
    unfold history in *.
    destruct (kvs (database w) !! key) as [[vs]|] eqn:Hk; [|by eauto 10].
    destruct (Hkvs key _ Hk) as (_ & Hasc & _). cbn [values] in *.
    pose proof (Fetch_spec vs (snapshotVersion T) Hasc) as Hf.
    destruct (Fetch {| values := vs |} (snapshotVersion T)) as [e|]; [|by eauto 10].
    destruct (IsDeleted e); [by eauto 10|].
    eexists _, _. split; [done|]. split; [done|]. split; [done|].
    right. eauto.
Qed.

End reads.

Lemma get_reads_at_snapshot_version_witness :
  Transaction_Get (after reading_writers) 1 "key1"
  = Ret (after reading_writers, inl "value1"%string).
Proof.
  destruct (get_reads_at_snapshot_version (after reading_writers) "key1")
    as [_ Htx].
  - apply (bool_decide_unpack _). vm_compute. exact I.
  - discriminate.
  - apply (Htx 1%nat (tx_at (after reading_writers) 1)); vm_compute; reflexivity.
Defined.

(** * The commit counter *)

Section counter.

Lemma Transaction_Commit_quiet w t T w' err :
  txs w !! t = Some T → Transaction_Commit w t = Ret (w', err) →
  err ≠ None ∨ writes T = ∅ → quiet w w'.
Proof.
  intros HT. unfold Transaction_Commit. rewrite HT.
  destruct (db T); cbn [negb]; [|intros [= <- _] _; apply quiet_refl].
  destruct (commit w t) as [[w1 e1]|] eqn:Hc; [|done]. cbn. intros [= <- <-] Hcase.
  eapply quiet_trans; [|apply quiet_closeTransaction].
  destruct e1 as [e|].
  - apply commit_failure_frame in Hc as ->. apply quiet_refl.
  - destruct Hcase as [?|He]; [done|].
    apply commit_success_inv in Hc as (T' & HT' & _ & _ & [[_ ->] | [Hne _]]).
    + by eapply quiet_set_tx.
    + congruence.
Qed.

(** C4. In a well-formed state, a commit of a transaction with a non-empty
    write set that succeeds moves [maxCommitVersion] to exactly its prior
    value plus one, and that value is the version of every write it applies.
    A read-only commit, a commit that fails and a rollback leave
    [maxCommitVersion] as it was. *)
Theorem commit_version_counter w t T :
  wf w → txs w !! t = Some T →
  (∀ w', writes T ≠ ∅ → Transaction_Commit w t = Ret (w', None) →
     maxCommitVersion (database w') = maxCommitVersion (database w) + 1 ∧
     ∀ key, is_Some (writes T !! key) →
            newest w' key = Some (maxCommitVersion (database w) + 1)) ∧
  (∀ w' err, writes T = ∅ → Transaction_Commit w t = Ret (w', err) →
     maxCommitVersion (database w') = maxCommitVersion (database w)) ∧
  (∀ w' e, Transaction_Commit w t = Ret (w', Some e) →
     maxCommitVersion (database w') = maxCommitVersion (database w)) ∧
  (∀ w' err, Transaction_Rollback w t = Ret (w', err) →
     maxCommitVersion (database w') = maxCommitVersion (database w)).
Proof.
  intros Hwf HT. split; [|split; [|split]].
  - intros w' Hne. unfold Transaction_Commit. rewrite HT.
    destruct (db T); [|done]. cbn [negb].
    destruct (commit w t) as [[w1 e1]|] eqn:Hc; [|done]. cbn. intros [= <- ->].
    destruct (commit_write_step w t T w1 Hwf HT Hne Hc) as (_ & _ & _ & Hmax & Hnew).
    pose proof (quiet_closeTransaction w1 t) as (Hm & Hk & _).
    split; [congruence|]. intros key Hkey.
    unfold newest in *. rewrite Hk. by apply Hnew.
  - intros w' err He Hc. by apply (Transaction_Commit_quiet w t T w' err); auto.
  - intros w' e Hc. by apply (Transaction_Commit_quiet w t T w' (Some e)); auto.
  - intros w' err Hr. by apply (quiet_Transaction_Rollback w t w' err).
Qed.

Lemma commit_version_counter_witness :
  maxCommitVersion (database (after (blind_writers ++ [OpCommit 1]))) = 1 + 1.
Proof.
  destruct (commit_version_counter (after blind_writers) 1
              (tx_at (after blind_writers) 1)) as [Hsucc _].
  - apply (bool_decide_unpack _). vm_compute. exact I.
  - vm_compute. reflexivity.
  - destruct (Hsucc (after (blind_writers ++ [OpCommit 1]))) as [Hmax _].
    + apply (bool_decide_unpack _). vm_compute. exact I.
    + vm_compute. reflexivity.
    + exact Hmax.
Defined.

End counter.

(** * Deleting a key the database does not hold *)

Section delete_absent.

(** C8 (as amended). When a transaction buffers a deletion of a key for
    which the database holds no history at commit time, a successful commit
    creates a history for the key that holds a single tombstone at the new
    commit version; a live snapshot reading the key is still told that it
    does not exist, and the keys outside the write set keep their histories. *)
Theorem delete_absent_key_commit w t T key w' :
  wf w → txs w !! t = Some T →
  writes T !! key = Some None → kvs (database w) !! key = None →
  Transaction_Commit w t = Ret (w', None) →
  kvs (database w') !! key
  = Some {| values := [{| version := - (maxCommitVersion (database w) + 1);
                          data := "" |}] |} ∧
  (key ≠ ""%string →
   ∀ s sn, snaps w' !! s = Some sn → snap_db sn = true →
           Snapshot_Get w' s key = Ret (inr ErrNotExist)) ∧
  (∀ k, writes T !! k = None →
        kvs (database w') !! k = kvs (database w) !! k).
Proof.
  intros Hwf HT Hdel Habs. unfold Transaction_Commit. rewrite HT.
  destruct (db T); [|done]. cbn [negb].
  destruct (commit w t) as [[w1 e1]|] eqn:Hc; [|done]. cbn. intros [= <- ->].
  assert (Hne : writes T ≠ ∅).
  { intros He. by rewrite He, lookup_empty in Hdel. }
  destruct (commit_write_post w t T w1 Hwf HT Hne Hc) as (Hlt & kvs' & -> & Hout & Hin).
  destruct (Hin key None Hdel) as (nmv & Hk & _ & _ & Hnew).
  rewrite (Hnew Habs) in Hk. clear Hnew.
  pose proof (quiet_closeTransaction (published w t T
                (maxCommitVersion (database w) + 1) kvs') t) as (_ & Hkvs & _).
  rewrite Hkvs. cbn [published set_tx set_database database kvs].
  split; [exact Hk|]. split; [|exact Hout].
  intros Hkey s sn Hs Hdb. unfold Snapshot_Get.
  rewrite Hs, Hdb, bool_decide_false by done. cbn [negb].
  rewrite Hkvs. cbn [published set_tx set_database database kvs]. rewrite Hk.
  destruct Hwf as ((Hmin & _) & _).
  assert (Hasc : ascending [written (maxCommitVersion (database w) + 1) None])
    by repeat constructor.
  pose proof (Fetch_spec _ (snap_snapshotVersion sn) Hasc) as Hf.
  unfold NewMultiValue.
  destruct (Fetch _ _) as [e|]; [|done].
  destruct Hf as (->%list_elem_of_singleton & _).
  by rewrite written_IsDeleted by lia.
Qed.

Lemma delete_absent_key_commit_witness :
  kvs (database (after [OpNewTransaction; OpDelete 0 "k"; OpCommit 0])) !! "k"
  = Some {| values := [{| version := -1; data := "" |}] |}.
Proof.
  destruct (delete_absent_key_commit
              (after [OpNewTransaction; OpDelete 0 "k"]) 0
              (tx_at (after [OpNewTransaction; OpDelete 0 "k"]) 0) "k"
              (after [OpNewTransaction; OpDelete 0 "k"; OpCommit 0]))
    as [Hk _].
  - apply (bool_decide_unpack _). vm_compute. exact I.
  - vm_compute. reflexivity.
  - vm_compute. reflexivity.
  - vm_compute. reflexivity.
  - vm_compute. reflexivity.
  - exact Hk.
Defined.

(** C8 as the specification states it fails: a transaction on the empty
    database buffers the deletion of a key and commits; the commit succeeds
    and the database, which held nothing for the key, now holds a history
    for it. *)
Lemma delete_intent_noop_counterexample :
  ∃ w',
    kvs (database (after [OpNewTransaction; OpDelete 0 "k"])) !! "k" = None ∧
    Transaction_Commit (after [OpNewTransaction; OpDelete 0 "k"]) 0
    = Ret (w', None) ∧
    kvs (database w') !! "k"
    ≠ kvs (database (after [OpNewTransaction; OpDelete 0 "k"])) !! "k".
Proof.
  exists (after [OpNewTransaction; OpDelete 0 "k"; OpCommit 0]).
  split; [vm_compute; reflexivity|]. split; [vm_compute; reflexivity|].
  vm_compute. discriminate.
Qed.

End delete_absent.

(** * Buffering a write *)

Section set.

Lemma ReadAll_eof chunks : ReadAll (foldr Chunk EOF chunks) = (all_bytes chunks, None).
Proof. induction chunks as [|c chunks IH]; [done|]. cbn. by rewrite IH. Qed.

Lemma ReadAll_err chunks msg :
  ReadAll (foldr Chunk (ReadErr msg) chunks) = (all_bytes chunks, Some (ErrIO msg)).
Proof. induction chunks as [|c chunks IH]; [done|]. cbn. by rewrite IH. Qed.

(** Every source is a sequence of chunks that ends well or with an error. *)
Lemma Reader_shape r :
  ∃ chunks, r = foldr Chunk EOF chunks ∨ ∃ msg, r = foldr Chunk (ReadErr msg) chunks.
Proof.
  induction r as [|msg|bytes rest [chunks IH]].
  - exists []. by left.
  - exists []. right. by exists msg.
  - exists (bytes :: chunks). destruct IH as [-> | [msg ->]]; [by left|].
    right. by exists msg.
Qed.

(** C10. [Set] on a transaction: an empty key or a nil source is refused
    with the invalid-input error whatever the source would deliver, the
    state being left as it was; a source that delivers its chunks and ends
    is read to its end and the whole of its bytes is buffered under the key;
    a source that fails makes [Set] return that error with the state, and so
    the write buffer, left as it was, whatever was delivered before. *)
Theorem Set_consumes_source w t T key :
  txs w !! t = Some T →
  (∀ value, key = ""%string ∨ value = None →
     Transaction_Set w t key value = Ret (w, Some ErrInvalid)) ∧
  (∀ chunks, key ≠ ""%string →
     Transaction_Set w t key (Some (foldr Chunk EOF chunks))
     = Ret (set_tx w t (with_writes T (<[key := Some (all_bytes chunks)]> (writes T))),
            None)) ∧
  (∀ chunks msg, key ≠ ""%string →
     Transaction_Set w t key (Some (foldr Chunk (ReadErr msg) chunks))
     = Ret (w, Some (ErrIO msg))).
Proof.
  intros HT. unfold Transaction_Set. rewrite HT. split; [|split].
  - intros value [-> | ->]; [done|]. by case_bool_decide.
  - intros chunks Hkey. rewrite bool_decide_false by done.
    by rewrite ReadAll_eof.
  - intros chunks msg Hkey. rewrite bool_decide_false by done.
    by rewrite ReadAll_err.
Qed.

Lemma Set_consumes_source_witness :
  Transaction_Set (after [OpNewTransaction]) 0 "k"
    (Some (foldr Chunk (ReadErr "broken pipe") ["ab"; "cd"]%string))
  = Ret (after [OpNewTransaction], Some (ErrIO "broken pipe")).
Proof.
  destruct (Set_consumes_source (after [OpNewTransaction]) 0
              (tx_at (after [OpNewTransaction]) 0) "k") as (_ & _ & Herr).
  - vm_compute. reflexivity.
  - apply Herr. discriminate.
Defined.

End set.

(** * Where the code departs from the specification *)

Section departures.

(** [NewSnapshot] never records the snapshot it creates. *)
Lemma NewSnapshot_liveSnaps w :
  liveSnaps (database (NewSnapshot w).1) = liveSnaps (database w).
Proof. reflexivity. Qed.

(** C5, the code at a failing input. A snapshot taken at version 1 is not
    in [liveSnaps]; the version computed for compaction by the next commit
    is 2, above the snapshot's; the commit drops version 1 of the key, and
    the snapshot, which read the payload before, is now told the key does
    not exist. *)
Lemma snapshot_not_tracked :
  snaps (after snapshot_then_writers) !! 0%nat
  = Some {| snap_db := true; snap_snapshotVersion := 1 |} ∧
  liveSnaps (database (after snapshot_then_writers)) = [] ∧
  minVersionLocked (after snapshot_then_writers) = 2 ∧
  Snapshot_Get (after snapshot_then_writers) 0 "k" = Ret (inl "a"%string) ∧
  Snapshot_Get (after (snapshot_then_writers ++ [OpCommit 2])) 0 "k"
  = Ret (inr ErrNotExist).
Proof. repeat split; vm_compute; reflexivity. Qed.

(** In a transaction the iteration passes over a key that does not exist. *)
Lemma Transaction_loop_skips w t yield key rest it w' :
  Transaction_Get w t key = Ret (w', inr ErrNotExist) →
  Transaction_loop w t yield (key :: rest) it
  = Transaction_loop w' t yield rest it.
Proof. intros H. cbn [Transaction_loop]. by rewrite H. Qed.

(** In a snapshot the iteration stops there and fills the error slot. *)
Lemma Snapshot_loop_stops w s yield key rest it :
  Snapshot_Get w s key = Ret (inr ErrNotExist) →
  Snapshot_loop w s yield (key :: rest) it
  = Ret {| yielded := yielded it; errp := Some ErrNotExist |}.
Proof. intros H. cbn [Snapshot_loop]. by rewrite H. Qed.

(** C7, the code at a failing input. With [k1] tombstoned and [k2] live at
    the snapshot version, the iterations of the snapshot store "does not
    exist" in the error slot and stop at [k1], so that [Scan] and [Ascend]
    yield nothing and [Descend] yields [k2] only; the iteration of a
    transaction at the same version passes over [k1], yields [k2] and
    leaves the slot empty. *)
Lemma snapshot_iteration_reports_tombstone :
  Snapshot_Get (after deleted_key) 0 "k1" = Ret (inr ErrNotExist) ∧
  Snapshot_Scan (after deleted_key) 0 None consume_all
  = Ret {| yielded := []; errp := Some ErrNotExist |} ∧
  Snapshot_Ascend (after deleted_key) 0 "" "" None consume_all
  = Ret {| yielded := []; errp := Some ErrNotExist |} ∧
  Snapshot_Descend (after deleted_key) 0 "" "" None consume_all
  = Ret {| yielded := [("k2", "b")]%string; errp := Some ErrNotExist |} ∧
  snd <$> Transaction_Ascend (after deleted_key) 2 "" "" None consume_all
  = Ret {| yielded := [("k2", "b")]%string; errp := None |}.
Proof. repeat split; vm_compute; reflexivity. Qed.

(** C9, the code at a failing input. After a rollback, [Commit] and
    [Rollback] signal invalid input, but [Set] and [Delete] succeed and
    buffer the write, and [Get] and [Scan] on a key that is not buffered
    dereference the nil database. *)
Lemma closed_transaction_operations :
  db (tx_at (after [OpNewTransaction; OpRollback 0]) 0) = false ∧
  snd <$> Transaction_Commit (after [OpNewTransaction; OpRollback 0]) 0
  = Ret (Some ErrInvalid) ∧
  snd <$> Transaction_Rollback (after [OpNewTransaction; OpRollback 0]) 0
  = Ret (Some ErrInvalid) ∧
  snd <$> Transaction_Set (after [OpNewTransaction; OpRollback 0]) 0 "k"
            (payload "v")
  = Ret None ∧
  snd <$> Transaction_Delete (after [OpNewTransaction; OpRollback 0]) 0 "k"
  = Ret None ∧
  Transaction_Get (after [OpNewTransaction; OpRollback 0]) 0 "k"
  = Panic "nil pointer dereference" ∧
  Transaction_Scan (after [OpNewTransaction; OpRollback 0]) 0 None consume_all
  = Panic "nil pointer dereference".
Proof. repeat split; vm_compute; reflexivity. Qed.

End departures.

(** * Further properties of the code *)

(** ** Values *)

Section values.

(** X1. A live value with a positive [int64] version: deleting it keeps
    the version, clears the data and marks it deleted; deleting again
    changes nothing; setting data on the deleted value brings back a live
    value at the original version; setting data on the live value keeps it
    live at its version. *)
Theorem Delete_SetData_round_trip v d :
  0 < version v → version v <= MaxInt64 →
  Version (Delete v) = Version v ∧
  IsDeleted (Delete v) = true ∧
  Data (Delete v) = ""%string ∧
  Delete (Delete v) = Delete v ∧
  SetData (Delete v) d = {| version := version v; data := d |} ∧
  SetData v d = {| version := version v; data := d |} ∧
  IsDeleted (SetData (Delete v) d) = false ∧
  Version (SetData (Delete v) d) = Version v.
Proof.
  intros Hpos Hmax.
  assert (Hneg : wrap64 (- version v) = - version v).
  { apply wrap64_id. unfold int64_range, MinInt64, MaxInt64 in *. lia. }
  assert (Hback : wrap64 (- - version v) = version v).
  { rewrite Z.opp_involutive. apply wrap64_id.
    unfold int64_range, MinInt64, MaxInt64 in *. lia. }
  unfold Delete, SetData, Version, IsDeleted, Data.
  destruct (Z.ltb_spec 0 (version v)) as [_|?]; [|lia]. cbn [version data].
  rewrite Hneg.
  destruct (Z.ltb_spec (- version v) 0) as [_|?]; [|lia].
  destruct (Z.ltb_spec (version v) 0) as [?|_]; [lia|].
  destruct (Z.ltb_spec 0 (- version v)) as [?|_]; [lia|].
  rewrite Hback.
  destruct (Z.ltb_spec (version v) 0) as [?|_]; [lia|].
  repeat split; reflexivity.
Qed.

Lemma Delete_SetData_round_trip_witness :
  SetData (Delete {| version := 7; data := "x" |}) "y"
  = {| version := 7; data := "y" |}.
Proof.
  destruct (Delete_SetData_round_trip {| version := 7; data := "x" |} "y")
    as (_ & _ & _ & _ & H & _).
  - reflexivity.
  - discriminate.
  - exact H.
Defined.

(** X2. [Clone] of a live value succeeds exactly for a positive version
    strictly above the value's version, and then yields a live value at that
    version with the same data. For a deleted value the guard sees the
    negative field, so any positive version is accepted. *)
Theorem Clone_guard v ver :
  (IsDeleted v = false →
     ((∃ r, Clone v ver = Ret r) ↔ 0 < ver ∧ Version v < ver) ∧
     (∀ r, Clone v ver = Ret r →
           Version r = ver ∧ Data r = Data v ∧ IsDeleted r = false)) ∧
  (IsDeleted v = true →
     ((∃ r, Clone v ver = Ret r) ↔ 0 < ver)).
Proof.
  unfold Clone, Version, IsDeleted. split.
  - intros Hlive. apply Z.ltb_ge in Hlive.
    destruct (Z.ltb_spec (version v) 0) as [?|_]; [lia|]. cbv iota.
    destruct (Z.leb_spec ver 0) as [Hle|Hpos].
    { split; [split; [by intros [r ?]|intros; exfalso; lia]|done]. }
    destruct (Z.leb_spec ver (version v)) as [Hle'|Hgt].
    { split; [split; [by intros [r ?]|intros; exfalso; lia]|done]. }
    split; [split; [lia|eauto]|].
    intros r [= <-]. unfold Data. cbn.
    destruct (Z.ltb_spec ver 0); [lia|done].
  - intros Hdel. apply Z.ltb_lt in Hdel.
    destruct (Z.leb_spec ver 0) as [Hle|Hpos].
    { split; [by intros [r ?]|intros; exfalso; lia]. }
    destruct (Z.leb_spec ver (version v)) as [Hle'|Hgt]; [lia|].
    split; [lia|eauto].
Qed.

Lemma Clone_guard_witness :
  (∃ r, Clone {| version := -9; data := "" |} 3 = Ret r) ↔ 0 < 3.
Proof.
  destruct (Clone_guard {| version := -9; data := "" |} 3) as [_ Hdel].
  apply Hdel. reflexivity.
Defined.

End values.

(** ** Version histories *)

Section histories.

Lemma Fetch_latest vs x e :
  ascending vs → latest_upto vs x e → Fetch {| values := vs |} x = Some e.
Proof.
  intros Hs He. pose proof (Fetch_spec vs x Hs) as Hf.
  destruct (Fetch {| values := vs |} x) as [e'|].
  - f_equal. by apply (latest_upto_unique vs x).
  - destruct He as (Hin & Hle & _). specialize (Hf e Hin). lia.
Qed.

Lemma Fetch_nothing vs x :
  ascending vs → (∀ e, e ∈ vs → x < Version e) → Fetch {| values := vs |} x = None.
Proof.
  intros Hs Hall. pose proof (Fetch_spec vs x Hs) as Hf.
  destruct (Fetch {| values := vs |} x) as [e|]; [|done].
  destruct Hf as (Hin & Hle & _). specialize (Hall e Hin). lia.
Qed.

Lemma wf_history_last maxv mv :
  wf_history maxv mv →
  ∃ l, last (values mv) = Some l ∧ l ∈ values mv ∧
       ∀ e, e ∈ values mv → Version e <= Version l.
Proof.
  intros (Hne & Hs & _).
  destruct (last (values mv)) as [l|] eqn:Hlast; [|by apply last_None in Hlast].
  exists l. split; [done|]. split.
  - rewrite last_lookup in Hlast. by eapply list_elem_of_lookup_2.
  - intros e He. by eapply ascending_last_max.
Qed.

(** A fetch after an append. *)
Lemma Append_fetch maxv mv v x :
  0 <= maxv → maxv <= MaxInt64 → wf_history maxv mv →
  maxv < Version v → Version v <= MaxInt64 →
  ∃ mv', Append (Some mv) v = Ret mv' ∧
         values mv' = values mv ++ [v] ∧
         Fetch mv' x = if Version v <=? x then Some v else Fetch mv x.
Proof.
  intros Hmin Hmax Hwf Hv Hvmax.
  destruct (Append_wf maxv mv v) as (Happ & _ & Hs' & _); [done..|].
  cbn [values] in Hs'.
  exists {| values := values mv ++ [v] |}. split; [done|]. split; [done|].
  destruct Hwf as (_ & Hs & Hall). rewrite Forall_forall in Hall.
  assert (Hlt : ∀ e, e ∈ values mv → Version e < Version v).
  { intros e He. destruct (Hall e He). lia. }
  destruct (Z.leb_spec (Version v) x) as [Hle|Hgt].
  - apply Fetch_latest; [done|]. split; [set_solver|]. split; [done|].
    intros e [He | ->%list_elem_of_singleton]%elem_of_app _; [|lia].
    specialize (Hlt e He). lia.
  - destruct mv as [vs]; cbn [values] in *.
    pose proof (Fetch_spec vs x Hs) as Hf.
    destruct (Fetch {| values := vs |} x) as [e|].
    + apply Fetch_latest; [done|]. destruct Hf as (Hin & Hle & Hmaxe).
      split; [set_solver|]. split; [done|].
      intros e' [He' | ->%list_elem_of_singleton]%elem_of_app Hle'; [|lia].
      by apply Hmaxe.
    + apply Fetch_nothing; [done|].
      intros e [He | ->%list_elem_of_singleton]%elem_of_app; [by apply Hf|lia].
Qed.

(** X3. Appending a value newer than everything in a well-formed history
    succeeds and puts it at the end; afterwards a fetch at or above the new
    version returns the new value, and a fetch below it returns what it
    returned before. *)
Theorem Fetch_after_Append maxv mv v x :
  0 <= maxv → maxv <= MaxInt64 → wf_history maxv mv →
  maxv < Version v → Version v <= MaxInt64 →
  ∃ mv', Append (Some mv) v = Ret mv' ∧
         values mv' = values mv ++ [v] ∧
         Fetch mv' x = if Version v <=? x then Some v else Fetch mv x.
Proof. intros. by apply (Append_fetch maxv). Qed.

Lemma Fetch_after_Append_witness :
  ∃ mv', Append (Some {| values := [mkValue 1 "a"; mkValue 2 "b"] |})
                (mkValue 5 "c") = Ret mv' ∧
         Fetch mv' 4 = Some (mkValue 2 "b").
Proof.
  destruct (Fetch_after_Append 2 {| values := [mkValue 1 "a"; mkValue 2 "b"] |}
              (mkValue 5 "c") 4) as (mv' & Happ & _ & Hf).
  - lia.
  - discriminate.
  - apply (bool_decide_unpack _). vm_compute. exact I.
  - reflexivity.
  - discriminate.
  - exists mv'. split; [exact Happ|]. rewrite Hf. reflexivity.
Defined.

(** X4. On a well-formed history [Append] accepts a value exactly when its
    version is above the newest one; otherwise it panics. Appending to no
    history or to an empty one gives the one-entry history. *)
Theorem Append_guard maxv mv l v :
  maxv <= MaxInt64 → wf_history maxv mv →
  last (values mv) = Some l → 0 < Version v → Version v <= MaxInt64 →
  ((∃ r, Append (Some mv) v = Ret r) ↔ Version l < Version v) ∧
  Append None v = Ret (NewMultiValue v) ∧
  Append (Some {| values := [] |}) v = Ret (NewMultiValue v).
Proof.
  intros Hmax Hwf Hlast Hpos Hvmax. split; [|done].
  destruct (wf_history_last maxv mv Hwf) as (l' & Hlast' & Hin & Hlmax).
  replace l' with l in * by congruence.
  pose proof Hwf as (Hne & Hs & Hall).
  assert (Hl : 0 < Version l ∧ Version l <= maxv).
  { rewrite Forall_forall in Hall. by apply Hall. }
  split.
  - intros [r Hr]. unfold Append in Hr. rewrite Hlast in Hr.
    rewrite (IsSortedFunc_ascending _ maxv) in Hr by done. cbn [negb] in Hr.
    destruct (Z.leb_spec (Version v) (Version l)); [done|lia].
  - intros Hlt. destruct (Append_wf (Version l) mv v) as [Happ _]; [lia..| |lia|lia|eauto].
    repeat split; [done..|]. apply Forall_forall. intros e He.
    rewrite Forall_forall in Hall. destruct (Hall e He).
    split; [lia|by apply Hlmax].
Qed.

Lemma Append_guard_witness :
  (∃ r, Append (Some {| values := [mkValue 1 "a"; mkValue 2 "b"] |})
               (mkValue 2 "c") = Ret r) ↔ 2 < 2.
Proof.
  destruct (Append_guard 2 {| values := [mkValue 1 "a"; mkValue 2 "b"] |}
              (mkValue 2 "b") (mkValue 2 "c")) as [H _].
  - discriminate.
  - apply (bool_decide_unpack _). vm_compute. exact I.
  - reflexivity.
  - reflexivity.
  - discriminate.
  - exact H.
Defined.

Lemma last_filter {A} (P : A → Prop) `{!∀ x, Decision (P x)} (l : list A) x :
  last l = Some x → P x → last (filter P l) = Some x.
Proof.
  intros [l' ->]%last_Some HP.
  rewrite filter_app, filter_cons, decide_True by done. apply last_snoc.
Qed.

Lemma filter_none {A} (P : A → Prop) `{!∀ x, Decision (P x)} (l : list A) :
  (∀ x, x ∈ l → ¬ P x) → filter P l = [].
Proof.
  induction l as [|x l IH]; intros HP; [done|].
  rewrite filter_cons, decide_False by (apply HP; left).
  apply IH. intros y Hy. apply HP. by right.
Qed.

Lemma latest_upto_retained vs minVersion x e :
  minVersion <= x → latest_upto vs x e → retained vs minVersion e.
Proof.
  intros Hle (Hin & Hex & Hmaxe).
  destruct (decide (minVersion <= Version e)) as [?|Hlt]; [by right; left|].
  right; right. split; [done|]. split; [lia|].
  intros e' He' Hle'. apply Hmaxe; [done|lia].
Qed.

(** A fetch at or above [minVersion] sees through compaction. *)
Lemma Compact_fetch_stable vs minVersion x :
  ascending vs → vs ≠ [] → minVersion <= x →
  match Compact (Some {| values := vs |}) minVersion with
  | Some kept => Fetch kept x = Fetch {| values := vs |} x
  | None => ∃ e, Fetch {| values := vs |} x = Some e ∧ IsDeleted e = true
  end.
Proof.
  intros Hs Hne Hle.
  destruct vs as [|a [|b l]]; [done| |].
  - cbn [Compact values].
    destruct (IsDeleted a) eqn:Hd; cbn [andb]; [|done].
    destruct (Z.ltb_spec (Version a) minVersion) as [Hlt|_]; [|done].
    exists a. split; [|done]. apply Fetch_latest; [done|].
    split; [left|]. split; [lia|].
    intros e ->%list_elem_of_singleton _. lia.
  - destruct (Compact_multi (a :: b :: l) minVersion Hs) as (kept & -> & -> & _);
      [simpl; lia|].
    set (vs := a :: b :: l) in *.
    assert (Hsk : ascending (filter (fun e => retained vs minVersion e) vs))
      by by apply ascending_filter.
    pose proof (Fetch_spec vs x Hs) as Hf.
    destruct (Fetch {| values := vs |} x) as [e|].
    + apply Fetch_latest; [done|].
      pose proof (latest_upto_retained vs minVersion x e Hle Hf) as Hret.
      destruct Hf as (Hin & Hex & Hmaxe). split; [|split; [done|]].
      * by apply list_elem_of_filter.
      * intros e' [_ He']%list_elem_of_filter. by apply Hmaxe.
    + apply Fetch_nothing; [done|].
      intros e [_ He]%list_elem_of_filter. by apply Hf.
Qed.

(** X5. Compaction does not disturb a reader at or above [minVersion]: on
    a non-empty ascending history, a fetch at such a version returns the
    same entry from the compacted history as from the original; and when
    [Compact] returns nil, the fetch returned a tombstone. *)
Theorem Compact_preserves_Fetch vs minVersion x :
  ascending vs → vs ≠ [] → minVersion <= x →
  match Compact (Some {| values := vs |}) minVersion with
  | Some kept => Fetch kept x = Fetch {| values := vs |} x
  | None => ∃ e, Fetch {| values := vs |} x = Some e ∧ IsDeleted e = true
  end.
Proof. intros. by apply Compact_fetch_stable. Qed.

Lemma Compact_preserves_Fetch_witness :
  match Compact (Some {| values := [mkValue 1 "a"; mkValue 5 "b"; mkValue 9 "c"] |}) 7
  with
  | Some kept =>
      Fetch kept 8
      = Fetch {| values := [mkValue 1 "a"; mkValue 5 "b"; mkValue 9 "c"] |} 8
  | None =>
      ∃ e, Fetch {| values := [mkValue 1 "a"; mkValue 5 "b"; mkValue 9 "c"] |} 8
           = Some e ∧ IsDeleted e = true
  end.
Proof.
  apply (Compact_preserves_Fetch [mkValue 1 "a"; mkValue 5 "b"; mkValue 9 "c"] 7 8).
  - apply (bool_decide_unpack _). vm_compute. exact I.
  - discriminate.
  - lia.
Defined.

(** X6. Compaction keeps a well-formed history well-formed: what it
    returns is a sub-sequence of the input with the same newest entry; it
    returns nil only for a history that is a single tombstone below
    [minVersion]. *)
Theorem Compact_keeps_newest maxv mv minVersion :
  wf_history maxv mv →
  match Compact (Some mv) minVersion with
  | Some r => wf_history maxv r ∧ last (values r) = last (values mv) ∧
              sublist (values r) (values mv)
  | None => ∃ e, values mv = [e] ∧ IsDeleted e = true ∧ Version e < minVersion
  end.
Proof.
  intros (Hne & Hs & Hall). destruct mv as [vs]; cbn [values] in *.
  destruct vs as [|a [|b l]]; [done| |].
  - cbn [Compact values].
    destruct (IsDeleted a) eqn:Hd; cbn [andb]; [|by repeat split].
    destruct (Z.ltb_spec (Version a) minVersion) as [Hlt|_]; [|by repeat split].
    exists a. done.
  - destruct (Compact_multi (a :: b :: l) minVersion Hs) as (kept & -> & -> & _);
      [simpl; lia|].
    set (vs := a :: b :: l) in *. cbn [values].
    destruct (last vs) as [x|] eqn:Hlast; [|by apply last_None in Hlast].
    assert (Hlk : last (filter (fun e => retained vs minVersion e) vs) = Some x).
    { apply last_filter; [done|]. by left. }
    split; [|split; [done|apply sublist_filter]].
    unfold wf_history. cbn [values]. repeat split.
    + intros Hnil. by rewrite Hnil in Hlk.
    + by apply ascending_filter.
    + apply Forall_forall. intros e [_ He]%list_elem_of_filter.
      rewrite Forall_forall in Hall. by apply Hall.
Qed.

Lemma Compact_keeps_newest_witness :
  match Compact (Some {| values := [mkValue 1 "a"; mkValue (-2) ""] |}) 5 with
  | Some r => wf_history 2 r ∧
              last (values r) = last [mkValue 1 "a"; mkValue (-2) ""] ∧
              sublist (values r) [mkValue 1 "a"; mkValue (-2) ""]
  | None => ∃ e, [mkValue 1 "a"; mkValue (-2) ""] = [e] ∧
                 IsDeleted e = true ∧ Version e < 5
  end.
Proof.
  apply (Compact_keeps_newest 2 {| values := [mkValue 1 "a"; mkValue (-2) ""] |} 5).
  apply (bool_decide_unpack _). vm_compute. exact I.
Defined.

(** X7. With two or more entries and [minVersion] at or above the newest
    version, compaction leaves the newest entry alone in the history; with
    [minVersion] at or below every version, it returns the history as it
    is. *)
Theorem Compact_extremes vs minVersion :
  ascending vs → vs ≠ [] →
  (∀ l, (2 <= length vs)%nat → last vs = Some l → Version l <= minVersion →
        Compact (Some {| values := vs |}) minVersion = Some {| values := [l] |}) ∧
  ((∀ e, e ∈ vs → minVersion <= Version e) →
   Compact (Some {| values := vs |}) minVersion = Some {| values := vs |}).
Proof.
  intros Hs Hne. split.
  - intros l Hlen Hlast Hle.
    destruct (Compact_multi vs minVersion Hs Hlen) as (kept & -> & -> & _).
    f_equal. f_equal.
    pose proof Hlast as [init ->]%last_Some.
    rewrite filter_app, filter_cons, decide_True by by left.
    rewrite filter_none; [done|].
    intros e He Hret.
    assert (Hlt : Version e < Version l).
    { apply (StronglySorted_app_1_elem_of
               (fun a b => Version a < Version b) init [l]); [done..|left]. }
    assert (Hl : l ∈ init ++ [l]) by set_solver.
    destruct Hret as [Hl' | [Hmin | (_ & _ & Hmaxe)]].
    + rewrite Hlast in Hl'. injection Hl' as ->. lia.
    + lia.
    + specialize (Hmaxe l Hl Hle). lia.
  - intros Hall. destruct vs as [|a [|b l]]; [done| |].
    + cbn [Compact values].
      destruct (Z.ltb_spec (Version a) minVersion) as [Hlt|_];
        [|by rewrite andb_false_r].
      specialize (Hall a ltac:(left)). lia.
    + destruct (Compact_multi (a :: b :: l) minVersion Hs) as (kept & -> & -> & _);
        [simpl; lia|].
      f_equal. f_equal. apply filter_all. intros e He. right; left. by apply Hall.
Qed.

Lemma Compact_extremes_witness :
  Compact (Some {| values := [mkValue 1 "a"; mkValue 5 "b"; mkValue 9 "c"] |}) 9
  = Some {| values := [mkValue 9 "c"] |}.
Proof.
  destruct (Compact_extremes [mkValue 1 "a"; mkValue 5 "b"; mkValue 9 "c"] 9)
    as [Hnewest _].
  - apply (bool_decide_unpack _). vm_compute. exact I.
  - discriminate.
  - apply Hnewest; [simpl; lia|reflexivity|]. vm_compute. discriminate.
Defined.

End histories.

(** ** The database: versions for compaction *)

Section min_version.

Lemma min_over_bound f l v :
  min_over f l v <= v ∧
  ∀ p sv, p ∈ l → f p = Some sv → min_over f l v <= sv.
Proof.
  unfold min_over. revert v. induction l as [|q l IH]; intros v; cbn [foldl].
  - split; [lia|]. intros p sv Hp. by apply elem_of_nil in Hp.
  - destruct (IH (match f q with Some sv => Z.min v sv | None => v end))
      as [Hle Hall].
    split; [destruct (f q); lia|].
    intros p sv [-> | Hp]%elem_of_cons Hf; [|by eapply Hall].
    rewrite Hf in *. lia.
Qed.

Lemma live_fold_bound (w : World) l v :
  let step := fun v tx =>
    min_over (tx_snapver w) (peers_of (database w) tx)
      (match tx_snapver w tx with Some sv => Z.min v sv | None => v end) in
  foldl step v l <= v ∧
  ∀ t, t ∈ l →
    (∀ sv, tx_snapver w t = Some sv → foldl step v l <= sv) ∧
    (∀ u sv, u ∈ peers_of (database w) t → tx_snapver w u = Some sv →
             foldl step v l <= sv).
Proof.
  intros step. revert v. induction l as [|q l IH]; intros v; cbn [foldl].
  - split; [lia|]. intros t Ht. by apply elem_of_nil in Ht.
  - destruct (IH (step v q)) as [Hle Hall].
    destruct (min_over_bound (tx_snapver w) (peers_of (database w) q)
                (match tx_snapver w q with Some sv => Z.min v sv | None => v end))
      as [Hq Hpeers].
    fold (step v q) in Hq, Hpeers.
    split; [destruct (tx_snapver w q); lia|].
    intros t [-> | Ht]%elem_of_cons; [|by apply Hall].
    split.
    + intros sv Hsv. rewrite Hsv in Hq. lia.
    + intros u sv Hu Hsv. specialize (Hpeers u sv Hu Hsv). lia.
Qed.

(** [minVersionLocked] is below every version it folds over. *)
Lemma minVersionLocked_le w :
  minVersionLocked w <= MaxInt64 ∧
  (∀ t sv, t ∈ liveTxes (database w) → tx_snapver w t = Some sv →
           minVersionLocked w <= sv) ∧
  (∀ t u sv, t ∈ liveTxes (database w) → u ∈ peers_of (database w) t →
             tx_snapver w u = Some sv → minVersionLocked w <= sv) ∧
  (∀ s sv, s ∈ liveSnaps (database w) → snap_snapver w s = Some sv →
           minVersionLocked w <= sv).
Proof.
  unfold minVersionLocked. cbn zeta.
  match goal with |- context [min_over _ _ ?v0] => set (v := v0) end.
  destruct (min_over_bound (snap_snapver w) (liveSnaps (database w)) v)
    as [Hle Hsnaps].
  destruct (live_fold_bound w (liveTxes (database w)) MaxInt64) as [Hv Hlive].
  cbn zeta in Hv, Hlive. fold v in Hv, Hlive.
  split; [lia|]. split; [|split].
  - intros t sv Ht Hsv. destruct (Hlive t Ht) as [H _]. specialize (H sv Hsv). lia.
  - intros t u sv Ht Hu Hsv. destruct (Hlive t Ht) as [_ H].
    specialize (H u sv Hu Hsv). lia.
  - intros s sv Hs Hsv. by apply (Hsnaps s).
Qed.

(** X8. The version [minVersionLocked] hands to compaction is at most
    [MaxInt64] and at most the snapshot version of every transaction in
    [liveTxes], of every peer recorded for such a transaction, and of every
    snapshot in [liveSnaps]. *)
Theorem minVersionLocked_bound w :
  minVersionLocked w <= MaxInt64 ∧
  (∀ t sv, t ∈ liveTxes (database w) → tx_snapver w t = Some sv →
           minVersionLocked w <= sv) ∧
  (∀ t u sv, t ∈ liveTxes (database w) → u ∈ peers_of (database w) t →
             tx_snapver w u = Some sv → minVersionLocked w <= sv) ∧
  (∀ s sv, s ∈ liveSnaps (database w) → snap_snapver w s = Some sv →
           minVersionLocked w <= sv).
Proof. apply minVersionLocked_le. Qed.

End min_version.

(** ** The database: liveness tracking *)

Section tracking.

Lemma handles_same_refl w : handles_same w w.
Proof. by repeat split. Qed.

Lemma handles_same_trans w1 w2 w3 :
  handles_same w1 w2 → handles_same w2 w3 → handles_same w1 w3.
Proof. intros (? & ? & ?) (? & ? & ?). repeat split; congruence. Qed.

Lemma handles_same_lookup w w' t :
  handles_same w w' → flags <$> txs w' !! t = flags <$> txs w !! t.
Proof. intros (_ & _ & H). by rewrite <- !list_lookup_fmap, H. Qed.

Lemma handles_same_set_tx w t T T' :
  txs w !! t = Some T → flags T' = flags T → handles_same w (set_tx w t T').
Proof.
  intros HT Hf. do 2 (split; [done|]). cbn [set_tx txs].
  rewrite list_fmap_insert, Hf. apply list_insert_id.
  by rewrite list_lookup_fmap, HT.
Qed.

Lemma tracked_same w w' : handles_same w w' → tracked w → tracked w'.
Proof.
  intros Hsame (Hnd & Hlive & Hcm & Hpeers & Hopen).
  pose proof Hsame as (Hl & Hc & _).
  assert (Hflags : ∀ t T', txs w' !! t = Some T' →
            ∃ T, txs w !! t = Some T ∧ flags T = flags T').
  { intros t T' HT'. pose proof (handles_same_lookup w w' t Hsame) as H.
    rewrite HT' in H. destruct (txs w !! t) as [T|]; [|done].
    exists T. cbn in H. split; congruence. }
  assert (Hflags' : ∀ t T, txs w !! t = Some T →
            ∃ T', txs w' !! t = Some T' ∧ flags T = flags T').
  { intros t T HT. pose proof (handles_same_lookup w w' t Hsame) as H.
    rewrite HT in H. destruct (txs w' !! t) as [T'|]; [|done].
    exists T'. cbn in H. split; congruence. }
  unfold tracked, peers_of. rewrite Hl, Hc. split; [done|]. split; [|split; [done|split; [done|]]].
  - intros t. rewrite Hlive. split.
    + intros (T & HT & Hdb). destruct (Hflags' t T HT) as (T' & HT' & [= Hd _ _]).
      exists T'. split; [done|congruence].
    + intros (T' & HT' & Hdb). destruct (Hflags t T' HT') as (T & HT & [= Hd _ _]).
      exists T. split; [done|congruence].
  - intros t T' HT' Hdb. destruct (Hflags t T' HT') as (T & HT & [= Hd _ Hcmt]).
    rewrite <- Hcmt. apply (Hopen t T HT). congruence.
Qed.

Lemma evolves_same w w' : handles_same w w' → evolves w w'.
Proof.
  intros Hsame. pose proof Hsame as (Hl & Hc & _). split.
  - intros t T HT. pose proof (handles_same_lookup w w' t Hsame) as H.
    rewrite HT in H. destruct (txs w' !! t) as [T'|]; [|done].
    cbn in H. injection H as Hd Hs Hcm. exists T'.
    split; [done|]. split; [done|]. split; congruence.
  - intros t u T' Hu _ _. unfold peers_of in *. by rewrite Hc.
Qed.

Lemma evolves_trans w1 w2 w3 :
  tracked w1 → evolves w1 w2 → evolves w2 w3 → evolves w1 w3.
Proof.
  intros (_ & Hlive & Hcm & _) [Hh1 Hp1] [Hh2 Hp2]. split.
  - intros t T HT.
    destruct (Hh1 t T HT) as (T2 & HT2 & Hs2 & Hd2 & Hc2).
    destruct (Hh2 t T2 HT2) as (T3 & HT3 & Hs3 & Hd3 & Hc3).
    exists T3. split; [done|]. split; [congruence|]. split; auto.
  - intros t u T3 Hu HT3 Hdb3.
    assert (t ∈ liveTxes (database w1)) as Ht.
    { apply Hcm. unfold peers_of in Hu.
      destruct (concurrentMap (database w1) !! t); [done|].
      by apply elem_of_nil in Hu. }
    apply Hlive in Ht as (T1 & HT1 & Hdb1).
    destruct (Hh1 t T1 HT1) as (T2 & HT2 & _).
    destruct (Hh2 t T2 HT2) as (T3' & HT3' & _ & Hd3 & _).
    replace T3' with T3 in * by congruence.
    destruct (db T2) eqn:Hdb2; [|specialize (Hd3 eq_refl); congruence].
    eapply Hp2; [|done..]. by eapply Hp1.
Qed.

(** What the loop of [NewTransaction] over the live transactions leaves in
    [concurrentMap]. *)
Lemma peers_fold_lookup (t : nat) l : ∀ (cm : gmap nat (list nat)) k,
  NoDup l →
  foldl (fun cm tx => <[tx := default [] (cm !! tx) ++ [t]]> cm) cm l !! k
  = if decide (k ∈ l) then Some (default [] (cm !! k) ++ [t]) else cm !! k.
Proof.
  induction l as [|q l IH]; intros cm k Hnd; cbn [foldl].
  - by rewrite decide_False by apply not_elem_of_nil.
  - apply NoDup_cons in Hnd as [Hq Hnd]. rewrite IH by done.
    destruct (decide (k = q)) as [->|Hne].
    + rewrite decide_False by done. rewrite lookup_insert_eq.
      by rewrite decide_True by left.
    + rewrite lookup_insert_ne by done.
      destruct (decide (k ∈ l)) as [Hk|Hk].
      * by rewrite decide_True by by right.
      * rewrite decide_False; [done|]. by intros [?|?]%elem_of_cons.
Qed.

Lemma tracked_fresh w : tracked w → length (txs w) ∉ liveTxes (database w).
Proof.
  intros (_ & Hlive & _) (T & HT & _)%Hlive.
  apply lookup_lt_Some in HT. lia.
Qed.

Lemma NewTransaction_concurrentMap w k :
  tracked w →
  concurrentMap (database (NewTransaction w).1) !! k
  = if decide (k ∈ liveTxes (database w))
    then Some (peers_of (database w) k ++ [length (txs w)])
    else if decide (k = length (txs w)) then Some (liveTxes (database w))
    else concurrentMap (database w) !! k.
Proof.
  intros Htr. pose proof (tracked_fresh w Htr) as Hfresh.
  destruct Htr as (Hnd & _).
  cbn [NewTransaction fst database concurrentMap].
  rewrite peers_fold_lookup by done. unfold peers_of.
  destruct (decide (k ∈ liveTxes (database w))) as [Hk|Hk].
  - rewrite lookup_insert_ne; [done|]. by intros <-.
  - destruct (decide (k = length (txs w))) as [->|Hne].
    + by rewrite lookup_insert_eq.
    + by rewrite lookup_insert_ne.
Qed.

Lemma tracked_NewTransaction w : tracked w → tracked (NewTransaction w).1.
Proof.
  intros Htr. pose proof (tracked_fresh w Htr) as Hfresh.
  pose proof (NewTransaction_concurrentMap w) as Hcm'.
  pose proof Htr as (Hnd & Hlive & Hcm & Hpeers & Hopen).
  set (t := length (txs w)) in *.
  assert (Hl' : liveTxes (database (NewTransaction w).1)
                = liveTxes (database w) ++ [t]) by done.
  assert (Htx' : txs (NewTransaction w).1
                 = txs w ++ [{| db := true;
                                snapshotVersion := maxCommitVersion (database w);
                                committed := false; reads := ∅; writes := ∅ |}])
    by done.
  unfold tracked. cbn zeta. rewrite Hl', Htx'.
  split; [|split; [|split; [|split]]].
  - apply NoDup_app. split; [done|]. split; [|apply NoDup_singleton].
    intros x Hx ->%list_elem_of_singleton. done.
  - intros u. rewrite elem_of_app, list_elem_of_singleton, Hlive. split.
    + intros [(T & HT & Hdb) | ->].
      * exists T. split; [|done]. by apply lookup_app_l_Some.
      * eexists. split; [by apply list_lookup_middle|done].
    + intros (T & HT & Hdb).
      apply lookup_app_Some in HT as [HT | [Hge HT]]; [left; eauto|right].
      apply list_lookup_singleton_Some in HT as [HT _]. fold t in Hge. lia.
  - intros u. rewrite Hcm' by done. rewrite elem_of_app, list_elem_of_singleton.
    destruct (decide (u ∈ liveTxes (database w))) as [Hu|Hu];
      [split; [by left|eauto]|].
    destruct (decide (u = t)) as [->|Hne]; [split; [by right|eauto]|].
    rewrite Hcm. tauto.
  - intros u u' Hu Hu' Hne. unfold peers_of. rewrite Hcm' by done.
    apply elem_of_app in Hu as [Hu | ->%list_elem_of_singleton];
      apply elem_of_app in Hu' as [Hu' | ->%list_elem_of_singleton]; try done.
    + rewrite decide_True by done. cbn. apply elem_of_app. left. by apply Hpeers.
    + rewrite decide_True by done. cbn. apply elem_of_app. right. left.
    + rewrite decide_False by done. rewrite decide_True by done. done.
  - intros u T HT Hdb.
    apply lookup_app_Some in HT as [HT | [_ HT]]; [by eapply Hopen|].
    by apply list_lookup_singleton_Some in HT as [_ <-].
Qed.

Lemma evolves_NewTransaction w : tracked w → evolves w (NewTransaction w).1.
Proof.
  intros Htr. pose proof (NewTransaction_concurrentMap w) as Hcm'.
  pose proof Htr as (_ & _ & Hcm & _). split.
  - intros t T HT. exists T. split; [|done].
    cbn [NewTransaction fst txs]. by apply lookup_app_l_Some.
  - intros t u T' Hu _ _.
    assert (t ∈ liveTxes (database w)) as Ht.
    { apply Hcm. unfold peers_of in Hu.
      destruct (concurrentMap (database w) !! t); [done|].
      by apply elem_of_nil in Hu. }
    unfold peers_of at 1. rewrite Hcm' by done. rewrite decide_True by done.
    cbn. apply elem_of_app. by left.
Qed.

Lemma closeTransaction_database w t :
  database (closeTransaction w t)
  = {| liveTxes := filter (fun v => v ≠ t) (liveTxes (database w));
       liveSnaps := liveSnaps (database w);
       concurrentMap := delete t (concurrentMap (database w));
       maxCommitVersion := maxCommitVersion (database w);
       kvs := kvs (database w) |}.
Proof. unfold closeTransaction. by destruct (txs w !! t). Qed.

Lemma closeTransaction_lookup w t u :
  txs (closeTransaction w t) !! u
  = if decide (u = t) then closed <$> txs w !! t else txs w !! u.
Proof.
  unfold closeTransaction. destruct (txs w !! t) as [T|] eqn:HT.
  - cbn [set_tx set_database txs]. destruct (decide (u = t)) as [->|Hne].
    + by rewrite list_lookup_insert_eq by by eapply lookup_lt_Some.
    + by rewrite list_lookup_insert_ne.
  - cbn [set_database txs]. by destruct (decide (u = t)) as [->|Hne].
Qed.

(** Closing [t] after a step that kept the bookkeeping and at most marked
    [t] committed. *)
Lemma tracked_close w w1 t :
  tracked w →
  liveTxes (database w1) = liveTxes (database w) →
  concurrentMap (database w1) = concurrentMap (database w) →
  (txs w1 = txs w ∨
   ∃ T, txs w !! t = Some T ∧ txs w1 = <[t := with_committed T true]> (txs w)) →
  tracked (closeTransaction w1 t) ∧ evolves w (closeTransaction w1 t).
Proof.
  intros (Hnd & Hlive & Hcm & Hpeers & Hopen) Hl Hc Htxs.
  assert (Hother : ∀ u, u ≠ t → txs w1 !! u = txs w !! u).
  { intros u Hne. destruct Htxs as [->|(T & _ & ->)]; [done|].
    by rewrite list_lookup_insert_ne. }
  assert (Hat : ∀ T, txs w !! t = Some T →
            ∃ T1, txs w1 !! t = Some T1 ∧
                  snapshotVersion T1 = snapshotVersion T ∧
                  (committed T = true → committed T1 = true)).
  { intros T HT. destruct Htxs as [->|(T' & HT' & ->)]; [eauto|].
    rewrite list_lookup_insert_eq by by eapply lookup_lt_Some.
    replace T' with T by congruence. eauto. }
  assert (Hpeers2 : ∀ u, u ≠ t →
            peers_of (database (closeTransaction w1 t)) u = peers_of (database w) u).
  { intros u Hne. unfold peers_of. rewrite closeTransaction_database.
    cbn [concurrentMap]. by rewrite lookup_delete_ne, Hc. }
  assert (Hopen2 : ∀ u T2, txs (closeTransaction w1 t) !! u = Some T2 →
            db T2 = true → u ≠ t ∧ txs w !! u = Some T2).
  { intros u T2. rewrite closeTransaction_lookup.
    destruct (decide (u = t)) as [->|Hne].
    - destruct (txs w1 !! t); [|done]. by intros [= <-].
    - rewrite Hother by done. done. }
  split.
  - unfold tracked. rewrite closeTransaction_database.
    cbn [liveTxes concurrentMap]. rewrite Hl, Hc.
    split; [by apply NoDup_filter|]. split; [|split; [|split]].
    + intros u. rewrite list_elem_of_filter, Hlive. split.
      * intros (Hne & T & HT & Hdb). exists T. split; [|done].
        rewrite closeTransaction_lookup, decide_False by done. by rewrite Hother.
      * intros (T2 & HT2 & Hdb). destruct (Hopen2 u T2 HT2 Hdb). eauto.
    + intros u. rewrite list_elem_of_filter.
      destruct (decide (u = t)) as [->|Hne].
      * rewrite lookup_delete_eq. split; [by intros [? ?]|by intros [? _]].
      * rewrite lookup_delete_ne by done. rewrite Hcm. tauto.
    + intros u u' [Hu Hin]%list_elem_of_filter [Hu' Hin']%list_elem_of_filter Hne.
      unfold peers_of. cbn [concurrentMap]. rewrite lookup_delete_ne by done.
      by apply Hpeers.
    + intros u T2 HT2 Hdb. destruct (Hopen2 u T2 HT2 Hdb) as [_ HT]. by eapply Hopen.
  - split.
    + intros u T HT. rewrite closeTransaction_lookup.
      destruct (decide (u = t)) as [->|Hne].
      * destruct (Hat T HT) as (T1 & -> & Hs & Hcmt). exists (closed T1).
        split; [done|]. split; [done|]. split; [done|]. exact Hcmt.
      * rewrite Hother by done. eauto.
    + intros u u' T2 Hu' HT2 Hdb. destruct (Hopen2 u T2 HT2 Hdb) as [Hne _].
      by rewrite Hpeers2.
Qed.

(** [commit] keeps the bookkeeping and at most marks [t] committed. *)
Lemma commit_handles w t w1 err :
  commit w t = Ret (w1, err) →
  liveTxes (database w1) = liveTxes (database w) ∧
  concurrentMap (database w1) = concurrentMap (database w) ∧
  (txs w1 = txs w ∨
   ∃ T, txs w !! t = Some T ∧ txs w1 = <[t := with_committed T true]> (txs w)).
Proof.
  intros Hc. destruct err as [e|].
  - apply commit_failure_frame in Hc as ->. auto.
  - apply commit_success_inv in Hc
      as (T & HT & _ & _ & [[_ ->] | (_ & _ & _ & kvs' & _ & ->)]);
      (do 2 (split; [done|])); right; eauto.
Qed.

Lemma handles_same_Transaction_Set w t key value w' err :
  Transaction_Set w t key value = Ret (w', err) → handles_same w w'.
Proof.
  unfold Transaction_Set. intros H.
  destruct (txs w !! t) as [T|] eqn:HT; [|done].
  case_bool_decide; [injection H as <- _; apply handles_same_refl|].
  destruct value as [r|]; [|injection H as <- _; apply handles_same_refl].
  destruct (ReadAll r) as [s [e|]]; injection H as <- _;
    [apply handles_same_refl|by eapply handles_same_set_tx].
Qed.

Lemma handles_same_Transaction_Delete w t key w' err :
  Transaction_Delete w t key = Ret (w', err) → handles_same w w'.
Proof.
  unfold Transaction_Delete. intros H.
  destruct (txs w !! t) as [T|] eqn:HT; [|done].
  case_bool_decide; injection H as <- _;
    [apply handles_same_refl|by eapply handles_same_set_tx].
Qed.

Lemma handles_same_Transaction_Get w t key w' r :
  Transaction_Get w t key = Ret (w', r) → handles_same w w'.
Proof.
  unfold Transaction_Get. intros H.
  destruct (txs w !! t) as [T|] eqn:HT; [|done].
  repeat (case_match; simplify_eq; try apply handles_same_refl).
  by eapply handles_same_set_tx.
Qed.

Lemma handles_same_Transaction_loop t yield keys :
  ∀ w it w' it',
    Transaction_loop w t yield keys it = Ret (w', it') → handles_same w w'.
Proof.
  induction keys as [|key keys IH]; intros w it w' it' H; cbn [Transaction_loop] in H.
  - injection H as <- _. apply handles_same_refl.
  - destruct (Transaction_Get w t key) as [[w1 r]|] eqn:Hg; [|done].
    apply handles_same_Transaction_Get in Hg. cbn in H.
    destruct r as [value|err].
    + destruct (yield key value).
      * eapply handles_same_trans; [done|]. by eapply IH.
      * by injection H as <- _.
    + case_bool_decide.
      * eapply handles_same_trans; [done|]. by eapply IH.
      * by injection H as <- _.
Qed.

Lemma exec_tracked w op w' :
  tracked w → exec w op = Ret w' → tracked w' ∧ evolves w w'.
Proof.
  intros Htr Hex.
  assert (Hsame : ∀ w1, handles_same w w1 → tracked w1 ∧ evolves w w1).
  { intros w1 Hs. split; [by eapply tracked_same|by apply evolves_same]. }
  assert (Hclose : ∀ w1 err t, commit w t = Ret (w1, err) →
            tracked (closeTransaction w1 t) ∧ evolves w (closeTransaction w1 t)).
  { intros w1 err t Hc. apply commit_handles in Hc as (? & ? & ?).
    by apply tracked_close. }
  destruct op; cbn in Hex.
  - injection Hex as <-.
    split; [by apply tracked_NewTransaction|by apply evolves_NewTransaction].
  - injection Hex as <-. by apply Hsame.
  - unfold Snapshot_Discard in Hex. destruct (snaps w !! s) as [sn|]; [|done].
    destruct (snap_db sn); cbn in Hex; injection Hex as <-;
      [|apply Hsame, handles_same_refl].
    apply Hsame. unfold closeSnapshot. by destruct (snaps w !! s).
  - destruct (Transaction_Set w t key value) as [[w1 e]|] eqn:H; [|done].
    injection Hex as <-. by eapply Hsame, handles_same_Transaction_Set.
  - destruct (Transaction_Delete w t key) as [[w1 e]|] eqn:H; [|done].
    injection Hex as <-. by eapply Hsame, handles_same_Transaction_Delete.
  - destruct (Transaction_Get w t key) as [[w1 e]|] eqn:H; [|done].
    injection Hex as <-. by eapply Hsame, handles_same_Transaction_Get.
  - unfold Transaction_Scan in Hex.
    destruct (Transaction_keys w t "" "") as [keys|]; [|done]. cbn in Hex.
    destruct (Transaction_loop _ _ _ _ _) as [[w1 it]|] eqn:H; [|done].
    injection Hex as <-. by eapply Hsame, handles_same_Transaction_loop.
  - unfold Transaction_Ascend in Hex.
    destruct (bad_range begin end_);
      [injection Hex as <-; apply Hsame, handles_same_refl|].
    destruct (Transaction_keys w t begin end_) as [keys|]; [|done]. cbn in Hex.
    destruct (Transaction_loop _ _ _ _ _) as [[w1 it]|] eqn:H; [|done].
    injection Hex as <-. by eapply Hsame, handles_same_Transaction_loop.
  - unfold Transaction_Descend in Hex.
    destruct (bad_range begin end_);
      [injection Hex as <-; apply Hsame, handles_same_refl|].
    destruct (Transaction_keys w t begin end_) as [keys|]; [|done]. cbn in Hex.
    destruct (Transaction_loop _ _ _ _ _) as [[w1 it]|] eqn:H; [|done].
    injection Hex as <-. by eapply Hsame, handles_same_Transaction_loop.
  - unfold Transaction_Commit in Hex. destruct (txs w !! t) as [T|]; [|done].
    destruct (db T); cbn [negb] in Hex;
      [|injection Hex as <-; apply Hsame, handles_same_refl].
    destruct (commit w t) as [[w1 e1]|] eqn:Hc; [|done]. cbn in Hex.
    injection Hex as <-. by eapply Hclose.
  - unfold Transaction_Rollback in Hex. destruct (txs w !! t) as [T|]; [|done].
    destruct (db T); cbn [negb] in Hex; injection Hex as <-;
      [|apply Hsame, handles_same_refl].
    apply tracked_close; auto.
Qed.

Lemma run_tracked ops : ∀ w w',
  tracked w → run w ops = Ret w' → tracked w' ∧ evolves w w'.
Proof.
  induction ops as [|op ops IH]; intros w w' Htr Hrun; cbn [run] in Hrun.
  - injection Hrun as <-. split; [done|apply evolves_same, handles_same_refl].
  - destruct (exec w op) as [w1|] eqn:Hex; [|done]. cbn in Hrun.
    destruct (exec_tracked w op w1 Htr Hex) as [Htr1 Hev1].
    destruct (IH w1 w' Htr1 Hrun) as [Htr' Hev'].
    split; [done|]. by eapply evolves_trans.
Qed.

Lemma tracked_New : tracked New.
Proof.
  unfold tracked. cbn. split; [constructor|]. split; [|split; [|split]].
  - intros t. split; [by intros ?%elem_of_nil|].
    intros (T & HT & _). by rewrite lookup_nil in HT.
  - intros t. rewrite lookup_empty. split; [by intros [? ?]|by intros ?%elem_of_nil].
  - intros t u Ht. by apply elem_of_nil in Ht.
  - intros t T HT. by rewrite lookup_nil in HT.
Qed.

(** X9. [NewTransaction] on a tracked state: the new handle is open, not
    committed, with empty buffers and the current [maxCommitVersion] as its
    snapshot version; it joins [liveTxes]; its peers are the transactions
    that were live, and each of those gets it appended to its peers; the
    committed data, the counter and the other handles are untouched. *)
Theorem NewTransaction_registers w :
  tracked w →
  txs (NewTransaction w).1 !! (NewTransaction w).2
  = Some {| db := true; snapshotVersion := maxCommitVersion (database w);
            committed := false; reads := ∅; writes := ∅ |} ∧
  liveTxes (database (NewTransaction w).1)
  = liveTxes (database w) ++ [(NewTransaction w).2] ∧
  peers_of (database (NewTransaction w).1) (NewTransaction w).2
  = liveTxes (database w) ∧
  (∀ u, u ∈ liveTxes (database w) →
     peers_of (database (NewTransaction w).1) u
     = peers_of (database w) u ++ [(NewTransaction w).2]) ∧
  kvs (database (NewTransaction w).1) = kvs (database w) ∧
  maxCommitVersion (database (NewTransaction w).1) = maxCommitVersion (database w) ∧
  (∀ u T, txs w !! u = Some T → txs (NewTransaction w).1 !! u = Some T).
Proof.
  intros Htr. pose proof (tracked_fresh w Htr) as Hfresh.
  pose proof (NewTransaction_concurrentMap w) as Hcm.
  split; [by apply list_lookup_middle|]. split; [done|]. split; [|split].
  - unfold peers_of at 1. rewrite Hcm by done.
    rewrite decide_False by done. by rewrite decide_True by done.
  - intros u Hu. unfold peers_of at 1. rewrite Hcm by done.
    by rewrite decide_True by done.
  - do 2 (split; [done|]). intros u T HT.
    cbn [NewTransaction fst txs]. by apply lookup_app_l_Some.
Qed.

Lemma NewTransaction_registers_witness :
  peers_of (database (NewTransaction (after [OpNewTransaction])).1) 1
  = [0%nat].
Proof.
  destruct (NewTransaction_registers (after [OpNewTransaction]))
    as (_ & _ & Hpeers & _).
  - apply tracked_NewTransaction, tracked_New.
  - exact Hpeers.
Defined.

(** X10. In every state reached from the empty database, a transaction
    whose handle is open is in [liveTxes] and is not committed, and any two
    distinct open transactions are recorded as peers of each other. *)
Theorem open_transactions_are_peers ops w t u T U :
  run New ops = Ret w →
  txs w !! t = Some T → db T = true →
  txs w !! u = Some U → db U = true → t ≠ u →
  t ∈ liveTxes (database w) ∧ committed T = false ∧
  u ∈ peers_of (database w) t ∧ t ∈ peers_of (database w) u.
Proof.
  intros Hrun HT HdT HU HdU Hne.
  destruct (run_tracked ops New w tracked_New Hrun)
    as [(_ & Hlive & _ & Hpeers & Hopen) _].
  assert (t ∈ liveTxes (database w)) as Ht by (apply Hlive; eauto).
  assert (u ∈ liveTxes (database w)) as Hu by (apply Hlive; eauto).
  split; [done|]. split; [by eapply Hopen|]. split; by apply Hpeers.
Qed.

Lemma open_transactions_are_peers_witness :
  2%nat ∈ peers_of (database (after blind_writers)) 1 ∧
  1%nat ∈ peers_of (database (after blind_writers)) 2.
Proof.
  destruct (open_transactions_are_peers blind_writers (after blind_writers) 1 2
              (tx_at (after blind_writers) 1) (tx_at (after blind_writers) 2))
    as (_ & _ & H12 & H21).
  - vm_compute. reflexivity.
  - vm_compute. reflexivity.
  - vm_compute. reflexivity.
  - vm_compute. reflexivity.
  - vm_compute. reflexivity.
  - discriminate.
  - split; [exact H12|exact H21].
Defined.

(** X11. Serializable snapshot isolation, end to end. Let [p] commit
    successfully while [t] is open, in a run from the empty database. Then,
    whatever calls follow, if [t] is still open when it commits with a
    non-empty write set, and [p] has a non-empty write set, and the reads
    of one of them meet the writes of the other, the commit of [t] aborts
    with an rw-dependency error: [p] is still among the peers of [t]. *)
Theorem committed_concurrent_writer_aborts ops0 w0 p t T0 w1 ops w2 T P :
  run New ops0 = Ret w0 →
  txs w0 !! t = Some T0 → db T0 = true → t ≠ p →
  Transaction_Commit w0 p = Ret (w1, None) →
  run w1 ops = Ret w2 →
  txs w2 !! t = Some T → db T = true → writes T ≠ ∅ →
  txs w2 !! p = Some P → writes P ≠ ∅ →
  overlap (reads T) (writes P) ∨ overlap (reads P) (writes T) →
  p ∈ peers_of (database w2) t ∧ committed P = true ∧
  ∃ e, is_rw_dependency e = true ∧
       Transaction_Commit w2 t = Ret (closeTransaction w2 t, Some e).
Proof.
  intros Hrun0 HT0 HdT0 Hne Hcp Hrun HT HdT HwT HP HwP Hov.
  destruct (run_tracked ops0 New w0 tracked_New Hrun0) as [Htr0 _].
  assert (Hex : exec w0 (OpCommit p) = Ret w1) by (cbn; by rewrite Hcp).
  destruct (exec_tracked w0 (OpCommit p) w1 Htr0 Hex) as [Htr1 Hev1].
  destruct (run_tracked ops w1 w2 Htr1 Hrun) as [Htr2 Hev2].
  pose proof (evolves_trans w0 w1 w2 Htr0 Hev1 Hev2) as [_ Hpeers02].
  (* [p] was open in [w0] and is committed in [w1] *)
  unfold Transaction_Commit in Hcp.
  destruct (txs w0 !! p) as [Tp|] eqn:HTp; [|done].
  destruct (db Tp) eqn:HdTp; [|done]. cbn [negb] in Hcp.
  destruct (commit w0 p) as [[w1' e1]|] eqn:Hc; [|done].
  cbn in Hcp. injection Hcp as <- ->.
  assert (∃ P1, txs (closeTransaction w1' p) !! p = Some P1 ∧ committed P1 = true)
    as (P1 & HP1 & HcP1).
  { rewrite closeTransaction_lookup, decide_True by done.
    apply commit_success_inv in Hc
      as (T' & HT' & _ & _ & [[_ ->] | (_ & _ & _ & kvs' & _ & ->)]);
      cbn [published set_tx set_database txs];
      rewrite list_lookup_insert_eq by (by eapply lookup_lt_Some);
      by eexists. }
  destruct Hev2 as [Hh2 _].
  destruct (Hh2 p P1 HP1) as (P' & HP' & _ & _ & HcP).
  replace P' with P in * by congruence. specialize (HcP HcP1).
  (* the two were live together, so [p] is a peer of [t] for good *)
  destruct Htr0 as (_ & Hlive0 & _ & Hpeers0 & _).
  assert (p ∈ peers_of (database w0) t) as Hp0.
  { apply Hpeers0; [apply Hlive0; eauto..|done]. }
  pose proof (Hpeers02 t p T Hp0 HT HdT) as Hp2.
  split; [done|]. split; [done|].
  destruct Htr2 as (_ & _ & _ & _ & Hopen2).
  pose proof (Hopen2 t T HT HdT) as HcT.
  destruct (ssi_check_aborts w2 T _ p P Hp2 HP HcP HwP Hov) as [e He].
  exists e. split; [by eapply ssi_check_is_rw|].
  unfold Transaction_Commit, commit. rewrite HT, HdT, HcT. cbn [negb].
  rewrite bool_decide_false by done. by rewrite He.
Qed.

Lemma committed_concurrent_writer_aborts_witness :
  ∃ e, is_rw_dependency e = true ∧
       Transaction_Commit (after (reading_writers ++ [OpCommit 1])) 2
       = Ret (closeTransaction (after (reading_writers ++ [OpCommit 1])) 2, Some e).
Proof.
  destruct (committed_concurrent_writer_aborts reading_writers
              (after reading_writers) 1 2 (tx_at (after reading_writers) 2)
              (after (reading_writers ++ [OpCommit 1])) []
              (after (reading_writers ++ [OpCommit 1]))
              (tx_at (after (reading_writers ++ [OpCommit 1])) 2)
              (tx_at (after (reading_writers ++ [OpCommit 1])) 1))
    as (_ & _ & e & Hrw & Hc).
  - vm_compute. reflexivity.
  - vm_compute. reflexivity.
  - vm_compute. reflexivity.
  - discriminate.
  - vm_compute. reflexivity.
  - reflexivity.
  - vm_compute. reflexivity.
  - vm_compute. reflexivity.
  - apply (bool_decide_unpack _). vm_compute. exact I.
  - vm_compute. reflexivity.
  - apply (bool_decide_unpack _). vm_compute. exact I.
  - left. exists "key1"%string. split; vm_compute; eauto.
  - exists e. split; [exact Hrw|exact Hc].
Defined.

End tracking.

(** ** The view of an open transaction *)

Section stable_view.

Lemma exec_quiet w op w1 :
  (∀ t, op ≠ OpCommit t) → exec w op = Ret w1 → quiet w w1.
Proof.
  intros Hop Hex. destruct op; cbn in Hex.
  - injection Hex as <-. apply quiet_NewTransaction.
  - injection Hex as <-. apply quiet_NewSnapshot.
  - destruct (Snapshot_Discard w s) as [[w' e]|] eqn:H; [|done].
    injection Hex as <-. by eapply quiet_Snapshot_Discard.
  - destruct (Transaction_Set w t key value) as [[w' e]|] eqn:H; [|done].
    injection Hex as <-. by eapply quiet_Transaction_Set.
  - destruct (Transaction_Delete w t key) as [[w' e]|] eqn:H; [|done].
    injection Hex as <-. by eapply quiet_Transaction_Delete.
  - destruct (Transaction_Get w t key) as [[w' e]|] eqn:H; [|done].
    injection Hex as <-. by eapply quiet_Transaction_Get.
  - destruct (Transaction_Scan w t None yield) as [[w' e]|] eqn:H; [|done].
    injection Hex as <-. by eapply quiet_Transaction_Scan.
  - destruct (Transaction_Ascend w t begin end_ None yield) as [[w' e]|] eqn:H; [|done].
    injection Hex as <-. by eapply quiet_Transaction_Ascend.
  - destruct (Transaction_Descend w t begin end_ None yield) as [[w' e]|] eqn:H; [|done].
    injection Hex as <-. by eapply quiet_Transaction_Descend.
  - by destruct (Hop t).
  - destruct (Transaction_Rollback w t) as [[w' e]|] eqn:H; [|done].
    injection Hex as <-. by eapply quiet_Transaction_Rollback.
Qed.

(** One buffered write does not change what a fetch between [minVersion]
    and the counter returns, for any key. *)
Lemma apply_write_fetch maxv minVersion m key value x m1 :
  0 <= maxv → maxv < MaxInt64 →
  (∀ mv, m !! key = Some mv → wf_history maxv mv) →
  minVersion <= x → x <= maxv →
  apply_write minVersion (maxv + 1) m (key, value) = Ret m1 →
  ∀ k, (m1 !! k ≫= fun mv => Fetch mv x) = (m !! k ≫= fun mv => Fetch mv x).
Proof.
  intros Hmin Hmax Hkey Hlo Hhi Happ k. unfold apply_write in Happ.
  pose proof (NewValue_written (maxv + 1) value ltac:(lia) ltac:(lia)) as Hnew.
  unfold NewValue in *. destruct (Z.leb_spec (maxv + 1) 0); [lia|].
  cbn in Hnew. injection Hnew as Hnew.
  unfold mbind, outcome_bind in Happ. rewrite Hnew in Happ.
  pose proof (written_Version (maxv + 1) value ltac:(lia) ltac:(lia)) as Hver.
  set (v := written (maxv + 1) value) in *.
  destruct (m !! key) as [mv|] eqn:Hm.
  - destruct (Append_fetch maxv mv v x) as (mv' & Ha & Hvals & Hf);
      [lia|lia|by apply Hkey|lia|lia|].
    rewrite Ha in Happ.
    destruct (Z.leb_spec (Version v) x) as [?|_]; [lia|].
    destruct (Append_wf maxv mv v) as (Ha' & _ & Hs' & _);
      [lia|lia|by apply Hkey|lia|lia|].
    assert (mv' = {| values := values mv ++ [v] |}) as -> by congruence.
    assert (Hne' : values mv ++ [v] ≠ []) by by destruct (values mv).
    pose proof (Compact_fetch_stable (values mv ++ [v]) minVersion x Hs' Hne' Hlo)
      as Hc.
    destruct (append_compact_wf maxv mv v minVersion) as (nmv & Hn & _);
      [lia|lia|by apply Hkey|lia|lia|].
    rewrite Hn in Hc, Happ. injection Happ as <-.
    destruct (decide (k = key)) as [->|Hne].
    + rewrite lookup_insert_eq, Hm. cbn [mbind option_bind]. by rewrite Hc, Hf.
    + by rewrite lookup_insert_ne.
  - injection Happ as <-. destruct (decide (k = key)) as [->|Hne].
    + rewrite lookup_insert_eq, Hm. cbn [mbind option_bind]. unfold NewMultiValue.
      apply Fetch_nothing; [repeat constructor|].
      intros e ->%list_elem_of_singleton. lia.
    + by rewrite lookup_insert_ne.
Qed.

Lemma apply_writes_fetch maxv minVersion x ws : ∀ m m',
  0 <= maxv → maxv < MaxInt64 → NoDup ws.*1 →
  (∀ k mv, k ∈ ws.*1 → m !! k = Some mv → wf_history maxv mv) →
  minVersion <= x → x <= maxv →
  apply_writes minVersion (maxv + 1) m ws = Ret m' →
  ∀ k, (m' !! k ≫= fun mv => Fetch mv x) = (m !! k ≫= fun mv => Fetch mv x).
Proof.
  induction ws as [|[key value] ws IH]; intros m m' Hmin Hmax Hnd Hm Hlo Hhi Happ k.
  - by injection Happ as <-.
  - cbn in Hnd. apply NoDup_cons in Hnd as [Hkey Hnd]. cbn [apply_writes] in Happ.
    destruct (apply_write_wf maxv minVersion m key value Hmin Hmax)
      as (nmv & Hw & _).
    { intros mv. apply Hm. cbn. left. }
    rewrite Hw in Happ. cbn in Happ.
    transitivity (<[key := nmv]> m !! k ≫= fun mv => Fetch mv x).
    + apply (IH (<[key := nmv]> m) m'); try done.
      intros k' mv Hk'. rewrite lookup_insert_ne by (intros ->; done).
      apply Hm. cbn. by right.
    + apply (apply_write_fetch maxv minVersion m key value x); try done.
      intros mv. apply Hm. cbn. left.
Qed.

(** [commit] does not change what a fetch between the version handed to
    compaction and the counter returns. *)
Lemma commit_fetch_stable w t w1 err x :
  wf w → commit w t = Ret (w1, err) →
  minVersionLocked w <= x → x <= maxCommitVersion (database w) →
  ∀ key, fetch_at w1 key x = fetch_at w key x.
Proof.
  intros Hwf Hc Hlo Hhi key. destruct err as [e|].
  { by apply commit_failure_frame in Hc as ->. }
  pose proof Hc as (T & HT & _ & _ & [[_ ->] | (Hne & _ & _ & kvs' & Happ & ->)])
    %commit_success_inv; [done|].
  destruct (commit_write_post w t T _ Hwf HT Hne Hc) as (Hlt & _).
  pose proof Hwf as ((Hmin & _) & Hkvs & _).
  rewrite wrap64_id in Happ
    by (unfold int64_range, MinInt64 in *; lia).
  unfold fetch_at. cbn [published set_tx set_database database kvs].
  eapply (apply_writes_fetch _ _ x); [..|exact Happ]; try done.
  - apply NoDup_fst_map_to_list.
  - intros k mv _ Hk. by apply (Hkvs k).
Qed.

Lemma exec_fetch_stable w op w1 t T T1 :
  wf w → tracked w → exec w op = Ret w1 →
  txs w !! t = Some T → txs w1 !! t = Some T1 → db T1 = true →
  ∀ key, fetch_at w1 key (snapshotVersion T) = fetch_at w key (snapshotVersion T).
Proof.
  intros Hwf Htr Hex HT HT1 Hdb1 key.
  destruct (exec_tracked w op w1 Htr Hex) as [_ [Hh _]].
  destruct (Hh t T HT) as (T1' & HT1' & _ & Hclosed & _).
  replace T1' with T1 in * by congruence.
  assert (Hdb : db T = true).
  { destruct (db T); [done|]. specialize (Hclosed eq_refl). congruence. }
  assert ((∃ t', op = OpCommit t') ∨ ∀ t', op ≠ OpCommit t') as [[t' ->]|Hop]
    by (destruct op; eauto).
  - cbn in Hex. unfold Transaction_Commit in Hex.
    destruct (txs w !! t') as [T'|]; [|done].
    destruct (db T'); cbn [negb] in Hex; [|by injection Hex as <-].
    destruct (commit w t') as [[w1' e1]|] eqn:Hc; [|done]. cbn in Hex.
    injection Hex as <-.
    unfold fetch_at at 1. rewrite closeTransaction_database. cbn [kvs].
    apply (commit_fetch_stable w t' w1' e1); [done..| |].
    + destruct Htr as (_ & Hlive & _).
      destruct (minVersionLocked_le w) as (_ & Hle & _).
      apply (Hle t); [apply Hlive; eauto|].
      unfold tx_snapver. by rewrite HT.
    + destruct Hwf as (_ & _ & Htxs).
      by apply (Forall_lookup_1 _ _ _ _ Htxs HT).
  - assert (quiet w w1) as (_ & Hk & _).
    { by apply (exec_quiet w op). }
    unfold fetch_at. by rewrite Hk.
Qed.

Lemma run_fetch_stable ops : ∀ w w' t T T',
  wf w → tracked w → run w ops = Ret w' →
  txs w !! t = Some T → txs w' !! t = Some T' → db T' = true →
  ∀ key, fetch_at w' key (snapshotVersion T) = fetch_at w key (snapshotVersion T).
Proof.
  induction ops as [|op ops IH]; intros w w' t T T' Hwf Htr Hrun HT HT' Hdb key;
    cbn [run] in Hrun.
  - by injection Hrun as <-.
  - destruct (exec w op) as [w1|] eqn:Hex; [|done]. cbn in Hrun.
    destruct (exec_step w op w1 Hwf Hex) as (Hwf1 & _).
    destruct (exec_tracked w op w1 Htr Hex) as [Htr1 [Hh1 _]].
    destruct (run_tracked ops w1 w' Htr1 Hrun) as [_ [Hh' _]].
    destruct (Hh1 t T HT) as (T1 & HT1 & Hsv1 & _).
    destruct (Hh' t T1 HT1) as (T'' & HT'' & _ & Hclosed & _).
    replace T'' with T' in * by congruence.
    assert (Hdb1 : db T1 = true).
    { destruct (db T1); [done|]. specialize (Hclosed eq_refl). congruence. }
    rewrite <- Hsv1.
    rewrite (IH w1 w' t T1 T' Hwf1 Htr1 Hrun HT1 HT' Hdb key).
    rewrite Hsv1. by apply (exec_fetch_stable w op w1 t T T1).
Qed.

(** X12. Repeatable reads. In a run from the empty database, as long as a
    transaction stays open, whatever the calls made in between (commits of
    other transactions among them): its snapshot version does not change;
    for every key, looking the key up in the database and fetching at that
    version finds the same entry as before; and a [Get] for a key it has
    neither buffered nor cached answers from that entry. *)
Theorem repeatable_read ops0 w t T ops w' T' :
  run New ops0 = Ret w → txs w !! t = Some T →
  run w ops = Ret w' → txs w' !! t = Some T' → db T' = true →
  snapshotVersion T' = snapshotVersion T ∧
  (∀ key, fetch_at w' key (snapshotVersion T)
          = fetch_at w key (snapshotVersion T)) ∧
  (∀ key, key ≠ ""%string → writes T' !! key = None → reads T' !! key = None →
     snd <$> Transaction_Get w' t key
     = Ret match fetch_at w key (snapshotVersion T) with
           | Some e => if IsDeleted e then inr ErrNotExist else inl (Data e)
           | None => inr ErrNotExist
           end).
Proof.
  intros Hrun0 HT Hrun HT' Hdb.
  pose proof (wf_reachable ops0 w Hrun0) as Hwf.
  destruct (run_tracked ops0 New w tracked_New Hrun0) as [Htr _].
  destruct (run_tracked ops w w' Htr Hrun) as [_ [Hh _]].
  destruct (Hh t T HT) as (T'' & HT'' & Hsv & _).
  replace T'' with T' in * by congruence.
  pose proof (run_fetch_stable ops w w' t T T' Hwf Htr Hrun HT HT' Hdb) as Hf.
  split; [done|]. split; [done|].
  intros key Hkey Hw Hr. rewrite <- Hf. unfold Transaction_Get, fetch_at.
  rewrite HT', bool_decide_false, Hw, Hr, Hdb, Hsv by done. cbn [negb].
  destruct (kvs (database w') !! key) as [mv|]; [|done]. cbn [mbind option_bind].
  destruct (Fetch mv (snapshotVersion T)) as [e|]; [|done].
  by destruct (IsDeleted e).
Qed.

End stable_view.

Lemma repeatable_read_witness :
  snd <$> Transaction_Get
            (after (reader_and_writer ++ [OpSet 2 "k" (payload "b"); OpCommit 2]))
            1 "k"
  = Ret (inl "a"%string).
Proof.
  destruct (repeatable_read reader_and_writer (after reader_and_writer) 1
              (tx_at (after reader_and_writer) 1)
              [OpSet 2 "k" (payload "b"); OpCommit 2]
              (after (reader_and_writer ++ [OpSet 2 "k" (payload "b"); OpCommit 2]))
              (tx_at (after (reader_and_writer
                             ++ [OpSet 2 "k" (payload "b"); OpCommit 2])) 1))
    as (_ & _ & Hget).
  - vm_compute. reflexivity.
  - vm_compute. reflexivity.
  - vm_compute. reflexivity.
  - vm_compute. reflexivity.
  - vm_compute. reflexivity.
  - rewrite (Hget "k"%string); [reflexivity|discriminate|..];
      vm_compute; reflexivity.
Defined.

(** ** Commit and rollback *)

Section commit_and_rollback.

(** X13. In a run from the empty database, the commit of an open
    transaction that wrote nothing succeeds whatever its peers did; it
    leaves the committed data and the counter as they were and closes the
    transaction, marked committed. *)
Theorem read_only_commit_succeeds ops w t T :
  run New ops = Ret w → txs w !! t = Some T → db T = true → writes T = ∅ →
  ∃ w', Transaction_Commit w t = Ret (w', None) ∧
        kvs (database w') = kvs (database w) ∧
        maxCommitVersion (database w') = maxCommitVersion (database w) ∧
        txs w' !! t = Some (closed (with_committed T true)) ∧
        t ∉ liveTxes (database w').
Proof.
  intros Hrun HT Hdb Hw.
  destruct (run_tracked ops New w tracked_New Hrun) as [(_ & _ & _ & _ & Hopen) _].
  pose proof (Hopen t T HT Hdb) as Hcm.
  exists (closeTransaction (set_tx w t (with_committed T true)) t). split.
  { unfold Transaction_Commit, commit. rewrite HT, Hdb, Hcm. cbn [negb].
    by rewrite bool_decide_true by done. }
  rewrite closeTransaction_database, closeTransaction_lookup, decide_True by done.
  cbn [kvs maxCommitVersion liveTxes set_tx txs database].
  do 2 (split; [done|]). split.
  - by rewrite list_lookup_insert_eq by by eapply lookup_lt_Some.
  - intros [Hne _]%list_elem_of_filter. done.
Qed.

Lemma read_only_commit_succeeds_witness :
  ∃ w', Transaction_Commit (after reader_and_writer) 1 = Ret (w', None).
Proof.
  destruct (read_only_commit_succeeds reader_and_writer
              (after reader_and_writer) 1 (tx_at (after reader_and_writer) 1))
    as (w' & Hc & _).
  - vm_compute. reflexivity.
  - vm_compute. reflexivity.
  - vm_compute. reflexivity.
  - vm_compute. reflexivity.
  - exists w'. exact Hc.
Defined.

(** X14. [Rollback] never panics on a handle and never touches the
    committed data, the counter, the snapshots or the other transactions and
    their peers: on an open transaction it returns nil, closes the handle and
    drops it from [liveTxes] and from [concurrentMap]; on a closed one it
    signals invalid input and changes nothing. *)
Theorem Rollback_leaves_database w t T :
  txs w !! t = Some T →
  ∃ w', Transaction_Rollback w t
        = Ret (w', if db T then None else Some ErrInvalid) ∧
        kvs (database w') = kvs (database w) ∧
        maxCommitVersion (database w') = maxCommitVersion (database w) ∧
        liveSnaps (database w') = liveSnaps (database w) ∧
        snaps w' = snaps w ∧
        (∀ u, u ≠ t → txs w' !! u = txs w !! u ∧
                      peers_of (database w') u = peers_of (database w) u) ∧
        (if db T
         then (txs w' !! t = Some (closed T) ∧ (t ∉ liveTxes (database w')) ∧
               concurrentMap (database w') !! t = None)
         else w' = w).
Proof.
  intros HT. unfold Transaction_Rollback. rewrite HT.
  destruct (db T) eqn:Hdb; cbn [negb]; [|by exists w].
  exists (closeTransaction w t). split; [done|].
  rewrite closeTransaction_database. cbn [kvs maxCommitVersion liveSnaps liveTxes concurrentMap].
  do 3 (split; [done|]). split; [|split; [|split; [|split]]].
  - unfold closeTransaction. by rewrite HT.
  - intros u Hne. rewrite closeTransaction_lookup, decide_False by done.
    split; [done|]. unfold peers_of. cbn [concurrentMap].
    by rewrite lookup_delete_ne.
  - rewrite closeTransaction_lookup, decide_True by done. by rewrite HT.
  - intros [Hne _]%list_elem_of_filter. done.
  - apply lookup_delete_eq.
Qed.

Lemma Rollback_leaves_database_witness :
  ∃ w', Transaction_Rollback (after blind_writers) 1 = Ret (w', None) ∧
        kvs (database w') = kvs (database (after blind_writers)).
Proof.
  destruct (Rollback_leaves_database (after blind_writers) 1
              (tx_at (after blind_writers) 1)) as (w' & Hr & Hk & _).
  - vm_compute. reflexivity.
  - exists w'. split; [exact Hr|exact Hk].
Defined.

(** X15. Closing by commit. Whatever [Commit] answers on an open handle in
    a run from the empty database, the handle is closed afterwards, gone
    from [liveTxes] and [concurrentMap], marked committed exactly when the
    answer was nil; and a second [Commit] or a [Rollback] on it signal
    invalid input and change nothing. *)
Theorem Commit_closes ops w t T w' err :
  run New ops = Ret w → txs w !! t = Some T → db T = true →
  Transaction_Commit w t = Ret (w', err) →
  (∃ T', txs w' !! t = Some T' ∧ db T' = false ∧
         (committed T' = true ↔ err = None)) ∧
  (t ∉ liveTxes (database w')) ∧
  concurrentMap (database w') !! t = None ∧
  Transaction_Commit w' t = Ret (w', Some ErrInvalid) ∧
  Transaction_Rollback w' t = Ret (w', Some ErrInvalid).
Proof.
  intros Hrun HT Hdb Hc.
  destruct (run_tracked ops New w tracked_New Hrun) as [(_ & _ & _ & _ & Hopen) _].
  pose proof (Hopen t T HT Hdb) as Hcm.
  unfold Transaction_Commit in Hc. rewrite HT, Hdb in Hc. cbn [negb] in Hc.
  destruct (commit w t) as [[w1 e1]|] eqn:Hcommit; [|done].
  cbn in Hc. injection Hc as <- <-.
  assert (∃ T1, txs w1 !! t = Some T1 ∧ (committed T1 = true ↔ e1 = None))
    as (T1 & HT1 & Hiff).
  { destruct e1 as [e|].
    - apply commit_failure_frame in Hcommit as ->. exists T.
      split; [done|]. rewrite Hcm. split; intros; discriminate.
    - apply commit_success_inv in Hcommit
        as (T' & HT' & _ & _ & [[_ ->] | (_ & _ & _ & kvs' & _ & ->)]);
        cbn [published set_tx set_database txs];
        rewrite list_lookup_insert_eq by (by eapply lookup_lt_Some);
        by eexists. }
  assert (Hclosed : txs (closeTransaction w1 t) !! t = Some (closed T1)).
  { rewrite closeTransaction_lookup, decide_True by done. by rewrite HT1. }
  split; [by exists (closed T1)|].
  rewrite closeTransaction_database. cbn [liveTxes concurrentMap].
  split; [by intros [Hne _]%list_elem_of_filter|].
  split; [apply lookup_delete_eq|].
  unfold Transaction_Commit, Transaction_Rollback. by rewrite Hclosed.
Qed.

Lemma Commit_closes_witness :
  Transaction_Commit (after (blind_writers ++ [OpCommit 1])) 1
  = Ret (after (blind_writers ++ [OpCommit 1]), Some ErrInvalid).
Proof.
  destruct (Commit_closes blind_writers (after blind_writers) 1
              (tx_at (after blind_writers) 1)
              (after (blind_writers ++ [OpCommit 1])) None)
    as (_ & _ & _ & Hc & _).
  - vm_compute. reflexivity.
  - vm_compute. reflexivity.
  - vm_compute. reflexivity.
  - vm_compute. reflexivity.
  - exact Hc.
Defined.

End commit_and_rollback.

(** ** What a commit publishes *)

Section publish.

Lemma written_answer ver value :
  0 < ver →
  (if IsDeleted (written ver value) then inr ErrNotExist
   else inl (Data (written ver value))) = answer value.
Proof.
  intros Hpos. rewrite written_IsDeleted by done. by destruct value.
Qed.

(** X16. Round trip through a commit. In a well-formed state, after a
    successful commit of a transaction that buffered a payload or a deletion
    for a non-empty key, a snapshot opened on the result reads the payload,
    or "does not exist" for the deletion, and so does a transaction begun on
    the result. *)
Theorem committed_write_visible w t T key value w' :
  wf w → txs w !! t = Some T → writes T !! key = Some value →
  key ≠ ""%string →
  Transaction_Commit w t = Ret (w', None) →
  Snapshot_Get (NewSnapshot w').1 (NewSnapshot w').2 key = Ret (answer value) ∧
  snd <$> Transaction_Get (NewTransaction w').1 (NewTransaction w').2 key
  = Ret (answer value).
Proof.
  intros Hwf HT Hw Hkey Hc.
  unfold Transaction_Commit in Hc. rewrite HT in Hc.
  destruct (db T); [|done]. cbn [negb] in Hc.
  destruct (commit w t) as [[w1 e1]|] eqn:Hcommit; [|done].
  cbn in Hc. injection Hc as <- ->.
  assert (Hne : writes T ≠ ∅).
  { intros He. by rewrite He, lookup_empty in Hw. }
  destruct (commit_write_post w t T w1 Hwf HT Hne Hcommit)
    as (Hlt & kvs' & -> & _ & Hin).
  destruct (Hin key value Hw) as (nmv & Hk & Hh & Hlast & _).
  destruct Hwf as ((Hmin & _) & _).
  set (maxv := maxCommitVersion (database w)) in *.
  pose proof (written_Version (maxv + 1) value ltac:(lia) ltac:(lia)) as Hver.
  assert (Hfetch : Fetch nmv (maxv + 1) = Some (written (maxv + 1) value)).
  { destruct (wf_history_last _ _ Hh) as (l & Hl & Hinl & Hlmax).
    replace l with (written (maxv + 1) value) in * by congruence.
    destruct Hh as (_ & Hs & _). destruct nmv as [vs]. cbn [values] in *.
    apply Fetch_latest; [done|]. split; [done|]. split; [lia|].
    intros e He _. by apply Hlmax. }
  assert (Hkvs : kvs (database (closeTransaction
                   (published w t T (maxv + 1) kvs') t)) !! key = Some nmv).
  { by rewrite closeTransaction_database. }
  assert (Hmax : maxCommitVersion (database (closeTransaction
                   (published w t T (maxv + 1) kvs') t)) = maxv + 1).
  { by rewrite closeTransaction_database. }
  set (w' := closeTransaction (published w t T (maxv + 1) kvs') t) in *.
  split.
  - unfold Snapshot_Get. cbn [NewSnapshot fst snd snaps database].
    rewrite list_lookup_middle by done. cbn [snap_db snap_snapshotVersion negb].
    rewrite bool_decide_false by done. rewrite Hkvs, Hmax, Hfetch.
    rewrite <- (written_answer (maxv + 1) value) by lia.
    by destruct (IsDeleted (written (maxv + 1) value)).
  - unfold Transaction_Get. cbn [NewTransaction fst snd txs].
    rewrite list_lookup_middle by done.
    cbn [db snapshotVersion reads writes negb database kvs].
    rewrite bool_decide_false by done. rewrite !lookup_empty.
    rewrite Hkvs, Hmax, Hfetch.
    rewrite <- (written_answer (maxv + 1) value) by lia.
    by destruct (IsDeleted (written (maxv + 1) value)).
Qed.

Lemma committed_write_visible_witness :
  Snapshot_Get (NewSnapshot (after (blind_writers ++ [OpCommit 1]))).1
               (NewSnapshot (after (blind_writers ++ [OpCommit 1]))).2 "key1"
  = Ret (answer (Some "value1"%string)).
Proof.
  destruct (committed_write_visible (after blind_writers) 1
              (tx_at (after blind_writers) 1) "key1" (Some "value1"%string)
              (after (blind_writers ++ [OpCommit 1]))) as [Hs _].
  - apply (bool_decide_unpack _). vm_compute. exact I.
  - vm_compute. reflexivity.
  - vm_compute. reflexivity.
  - discriminate.
  - vm_compute. reflexivity.
  - exact Hs.
Defined.

(** X17. On a handle of a well-formed state [Commit] never panics while
    the counter is below [MaxInt64]. At [MaxInt64], a commit that passed its
    checks with a non-empty write set panics when it builds the value for
    the overflowed version. *)
Theorem Commit_panics_only_on_overflow w t T :
  wf w → txs w !! t = Some T →
  (maxCommitVersion (database w) < MaxInt64 →
   ∃ w' err, Transaction_Commit w t = Ret (w', err)) ∧
  (maxCommitVersion (database w) = MaxInt64 →
   db T = true → committed T = false → writes T ≠ ∅ →
   ssi_check w T (peers_of (database w) t) = None →
   ww_check (database w) T (map_to_list (writes T)).*1 = None →
   ∃ msg, Transaction_Commit w t = Panic msg).
Proof.
  intros Hwf HT. pose proof Hwf as ((Hmin & _) & Hkvs & _). split.
  - intros Hlt. unfold Transaction_Commit, commit. rewrite HT.
    destruct (db T); cbn [negb]; [|eauto].
    destruct (committed T); [eauto|]. case_bool_decide; [eauto|].
    destruct (ssi_check _ _ _); [eauto|]. destruct (ww_check _ _ _); [eauto|].
    rewrite wrap64_id by (unfold int64_range, MinInt64 in *; lia).
    destruct (apply_writes_wf (maxCommitVersion (database w)) (minVersionLocked w)
                (map_to_list (writes T)) (kvs (database w)))
      as (m' & -> & _); [done|done|apply NoDup_fst_map_to_list| |cbn; eauto].
    intros k mv _ Hk. by apply (Hkvs k).
  - intros Heq Hdb Hcm Hne Hssi Hww.
    unfold Transaction_Commit, commit. rewrite HT, Hdb, Hcm. cbn [negb].
    rewrite bool_decide_false, Hssi, Hww, Heq by done.
    destruct (map_to_list (writes T)) as [|[key value] ws] eqn:Hl.
    { by apply map_to_list_empty_iff in Hl. }
    cbn [apply_writes apply_write].
    destruct (NewValue_panics (wrap64 (MaxInt64 + 1))) as [msg ->];
      [vm_compute; discriminate|]. cbn. eauto.
Qed.

Lemma Commit_panics_only_on_overflow_witness :
  ∃ w' err, Transaction_Commit (after blind_writers) 1 = Ret (w', err).
Proof.
  destruct (Commit_panics_only_on_overflow (after blind_writers) 1
              (tx_at (after blind_writers) 1)) as [Hok _].
  - apply (bool_decide_unpack _). vm_compute. exact I.
  - vm_compute. reflexivity.
  - apply Hok. vm_compute. reflexivity.
Defined.

Lemma exec_counter w op w1 :
  wf w → exec w op = Ret w1 →
  maxCommitVersion (database w) <= maxCommitVersion (database w1).
Proof.
  intros Hwf Hex.
  assert ((∃ t', op = OpCommit t') ∨ ∀ t', op ≠ OpCommit t') as [[t ->]|Hop]
    by (destruct op; eauto).
  - cbn in Hex. destruct (Transaction_Commit w t) as [[w' err]|] eqn:Hc; [|done].
    injection Hex as <-. unfold Transaction_Commit in Hc.
    destruct (txs w !! t) as [T|] eqn:HT; [|done].
    destruct (db T); cbn [negb] in Hc; [|injection Hc as <- _; lia].
    destruct (commit w t) as [[w1 e1]|] eqn:Hcommit; [|done].
    cbn in Hc. injection Hc as <- _. rewrite closeTransaction_database.
    cbn [maxCommitVersion].
    destruct e1 as [e|]; [apply commit_failure_frame in Hcommit as ->; lia|].
    destruct (decide (writes T = ∅)) as [He|Hne].
    + apply commit_success_inv in Hcommit
        as (T' & HT' & _ & _ & [[_ ->] | [Hne' _]]); [cbn; lia|congruence].
    + destruct (commit_write_step w t T w1 Hwf HT Hne Hcommit) as (_ & _ & _ & -> & _).
      lia.
  - destruct (exec_quiet w op w1 Hop Hex) as (-> & _). lia.
Qed.

(** X18. The invariants of the data model hold in every state reached
    from the empty database: the counter is a non-negative [int64]; every
    history in the database is non-empty and strictly ascending, with every
    version positive and at most the counter; and no transaction has a
    snapshot version above the counter. *)
Theorem reachable_invariants ops w :
  run New ops = Ret w →
  (0 <= maxCommitVersion (database w) ∧
   maxCommitVersion (database w) <= MaxInt64) ∧
  (∀ key mv, kvs (database w) !! key = Some mv →
     values mv ≠ [] ∧ ascending (values mv) ∧
     ∀ e, e ∈ values mv →
          0 < Version e ∧ Version e <= maxCommitVersion (database w)) ∧
  (∀ t T, txs w !! t = Some T →
          snapshotVersion T <= maxCommitVersion (database w)).
Proof.
  intros Hrun. destruct (wf_reachable ops w Hrun) as (Hrange & Hkvs & Htxs).
  split; [done|]. split.
  - intros key mv Hk. destruct (Hkvs key mv Hk) as (Hne & Hs & Hall).
    do 2 (split; [done|]). intros e He. rewrite Forall_forall in Hall.
    by apply Hall.
  - intros t T HT. by apply (Forall_lookup_1 _ _ _ _ Htxs HT).
Qed.

Lemma reachable_invariants_witness :
  0 <= maxCommitVersion (database (after blind_writers)) ∧
  maxCommitVersion (database (after blind_writers)) <= MaxInt64.
Proof.
  destruct (reachable_invariants blind_writers (after blind_writers)) as [H _].
  - vm_compute. reflexivity.
  - exact H.
Defined.

(** X19. Along any run from a well-formed state the counter never goes
    down, and a key that has a history keeps one, whose newest version
    never goes down: no call removes a key from the database. *)
Theorem histories_persist ops w w' :
  wf w → run w ops = Ret w' →
  maxCommitVersion (database w) <= maxCommitVersion (database w') ∧
  (∀ key, is_Some (kvs (database w) !! key) →
          is_Some (kvs (database w') !! key)) ∧
  (∀ key v, newest w key = Some v → ∃ v', newest w' key = Some v' ∧ v <= v').
Proof.
  intros Hwf Hrun.
  destruct (run_steps ops w w' Hwf Hrun) as (_ & _ & Hadv).
  split; [|split; [|exact Hadv]].
  - clear Hadv. revert w Hwf Hrun.
    induction ops as [|op ops IH]; intros w Hwf Hrun; cbn [run] in Hrun.
    + injection Hrun as <-. lia.
    + destruct (exec w op) as [w1|] eqn:Hex; [|done]. cbn in Hrun.
      destruct (exec_step w op w1 Hwf Hex) as (Hwf1 & _).
      pose proof (exec_counter w op w1 Hwf Hex).
      specialize (IH w1 Hwf1 Hrun). lia.
  - intros key [mv Hmv]. destruct Hwf as (_ & Hkvs & _).
    destruct (wf_history_last _ _ (Hkvs key mv Hmv)) as (l & Hl & _).
    destruct (Hadv key (Version l)) as (v' & Hv' & _).
    { unfold newest. rewrite Hmv. cbn. by rewrite Hl. }
    unfold newest in Hv'. by destruct (kvs (database w') !! key).
Qed.

Lemma histories_persist_witness :
  is_Some (kvs (database (after (blind_writers ++ [OpCommit 1; OpCommit 2])))
             !! "key1").
Proof.
  destruct (histories_persist [OpCommit 1; OpCommit 2] (after blind_writers)
              (after (blind_writers ++ [OpCommit 1; OpCommit 2])))
    as (_ & H & _).
  - apply (bool_decide_unpack _). vm_compute. exact I.
  - vm_compute. reflexivity.
  - apply H. vm_compute. eauto.
Defined.

End publish.

(** ** Range iteration *)

Section iteration.

Lemma string_compare_trans a : ∀ b c,
  String.compare a b ≠ Gt → String.compare b c ≠ Gt → String.compare a c ≠ Gt.
Proof.
  induction a as [|x a IH]; intros [|y b] [|z c]; cbn; try done.
  unfold Ascii.compare.
  destruct (N.compare_spec (Ascii.N_of_ascii x) (Ascii.N_of_ascii y)) as [Hxy|Hxy|Hxy];
    destruct (N.compare_spec (Ascii.N_of_ascii y) (Ascii.N_of_ascii z)) as [Hyz|Hyz|Hyz];
    destruct (N.compare_spec (Ascii.N_of_ascii x) (Ascii.N_of_ascii z)) as [Hxz|Hxz|Hxz];
    try done; try lia.
  apply IH.
Qed.

#[local] Instance string_le_trans : Transitive string_le.
Proof.
  intros a b c. unfold string_le, String.leb. intros Hab Hbc.
  pose proof (string_compare_trans a b c) as H.
  destruct (String.compare a b); try done;
    destruct (String.compare b c); try done;
    destruct (String.compare a c); try done; by destruct H.
Qed.

#[local] Instance string_le_total : Total string_le.
Proof. intros a b. apply String.leb_total. Qed.

Lemma string_le_lt a b : string_le a b → a ≠ b → string_lt a b.
Proof.
  unfold string_le, string_lt, String.leb, String.ltb. intros Hle Hne.
  destruct (String.compare a b) eqn:Hc; try done.
  by apply String.compare_eq_iff in Hc.
Qed.

Lemma strictly_sorted l :
  StronglySorted string_le l → NoDup l → StronglySorted string_lt l.
Proof.
  induction 1 as [|x l Hl IH Hx]; intros Hnd; [constructor|].
  apply NoDup_cons in Hnd as [Hx' Hnd]. constructor; [by apply IH|].
  rewrite Forall_forall in *. intros y Hy.
  apply string_le_lt; [by apply Hx|]. by intros ->.
Qed.

Lemma StronglySorted_reverse {A} (R : relation A) l :
  StronglySorted R l → StronglySorted (flip R) (reverse l).
Proof.
  induction 1 as [|x l Hl IH Hx]; [constructor|].
  rewrite reverse_cons. apply StronglySorted_app_2; [|done|repeat constructor].
  intros x1 x2 Hx1 ->%list_elem_of_singleton. rewrite elem_of_reverse in Hx1.
  rewrite Forall_forall in Hx. unfold flip. by apply Hx.
Qed.

Lemma StronglySorted_sublist {A} (R : relation A) l1 l2 :
  l1 `sublist_of` l2 → StronglySorted R l2 → StronglySorted R l1.
Proof.
  induction 1 as [|x l1 l2 Hsub IH|x l1 l2 Hsub IH]; intros Hs; [done| |].
  - apply StronglySorted_cons in Hs as [Hx Hs]. constructor; [by apply IH|].
    rewrite Forall_forall in *. intros y Hy. apply Hx.
    by eapply elem_of_sublist.
  - apply StronglySorted_cons in Hs as [_ Hs]. by apply IH.
Qed.

(** The keys handed to a loop by [Ascend]: strictly ascending, all of them
    from the unsorted list. *)
Lemma sort_strings_sorted l :
  NoDup l → StronglySorted string_lt (sort_strings l) ∧ sort_strings l ≡ₚ l.
Proof.
  intros Hnd. unfold sort_strings.
  pose proof (merge_sort_Permutation string_le l) as Hp. split; [|done].
  apply strictly_sorted.
  - apply StronglySorted_merge_sort; apply _.
  - by rewrite Hp.
Qed.

Lemma Snapshot_keys_NoDup w b e : NoDup (Snapshot_keys w b e).
Proof. apply NoDup_filter, NoDup_elements. Qed.

Lemma Snapshot_keys_spec w b e k :
  k ∈ Snapshot_keys w b e ↔ is_Some (kvs (database w) !! k) ∧ in_range b e k.
Proof.
  unfold Snapshot_keys. rewrite list_elem_of_filter, elem_of_elements, elem_of_dom.
  tauto.
Qed.

(** What a snapshot loop yields: pairs read by [Get], for keys taken in
    order from the list it was given. *)
Lemma Snapshot_loop_yields w s yield keys : ∀ it it',
  Snapshot_loop w s yield keys it = Ret it' →
  ∃ l, yielded it' = yielded it ++ l ∧ l.*1 `sublist_of` keys ∧
       Forall (fun kv => Snapshot_Get w s kv.1 = Ret (inl kv.2)) l.
Proof.
  induction keys as [|key keys IH]; intros it it' H; cbn [Snapshot_loop] in H.
  - injection H as <-. exists []. by rewrite app_nil_r.
  - destruct (Snapshot_Get w s key) as [[value|err]|] eqn:Hg; [| |done]; cbn in H.
    + destruct (yield key value).
      * destruct (IH _ _ H) as (l & Hy & Hsub & Hall). cbn [yielded] in Hy.
        exists ((key, value) :: l). rewrite Hy, <- app_assoc. split; [done|].
        split; [by apply sublist_skip|]. by constructor.
      * injection H as <-. exists [(key, value)]. split; [done|].
        split; [apply sublist_skip, sublist_nil_l|]. by repeat constructor.
    + injection H as <-. exists []. cbn. rewrite app_nil_r. split; [done|].
      split; [apply sublist_nil_l|constructor].
Qed.

(** X20. Ordered iteration over a snapshot. What [Ascend] yields has its
    keys in strictly ascending byte-wise order, and what [Descend] yields in
    strictly descending order; every key yielded has a history in the
    database and lies in the range; every pair yielded is what [Get] reads
    for its key. When both bounds are given and [begin] is above [end], the
    iterations yield nothing and store the invalid-input error, even on a
    discarded snapshot. *)
Theorem Snapshot_iteration_order w s b e slot yield :
  (∀ it, Snapshot_Ascend w s b e slot yield = Ret it →
         StronglySorted string_lt (yielded it).*1 ∧
         Forall (fun kv => is_Some (kvs (database w) !! kv.1) ∧ in_range b e kv.1 ∧
                           Snapshot_Get w s kv.1 = Ret (inl kv.2)) (yielded it)) ∧
  (∀ it, Snapshot_Descend w s b e slot yield = Ret it →
         StronglySorted (flip string_lt) (yielded it).*1 ∧
         Forall (fun kv => is_Some (kvs (database w) !! kv.1) ∧ in_range b e kv.1 ∧
                           Snapshot_Get w s kv.1 = Ret (inl kv.2)) (yielded it)) ∧
  (bad_range b e = true →
   Snapshot_Ascend w s b e slot yield
   = Ret {| yielded := []; errp := Some ErrInvalid |} ∧
   Snapshot_Descend w s b e slot yield
   = Ret {| yielded := []; errp := Some ErrInvalid |}).
Proof.
  destruct (sort_strings_sorted (Snapshot_keys w b e) (Snapshot_keys_NoDup w b e))
    as [Hsorted Hperm].
  assert (Hall : ∀ keys it l,
            keys ≡ₚ Snapshot_keys w b e → yielded it = [] ++ l →
            l.*1 `sublist_of` keys →
            Forall (fun kv => Snapshot_Get w s kv.1 = Ret (inl kv.2)) l →
            Forall (fun kv => is_Some (kvs (database w) !! kv.1) ∧ in_range b e kv.1 ∧
                              Snapshot_Get w s kv.1 = Ret (inl kv.2)) (yielded it)).
  { intros keys it l Hp -> Hsub Hget. cbn. rewrite Forall_forall in *.
    intros kv Hkv. split_and!; [..|by apply Hget];
      apply (Snapshot_keys_spec w b e); rewrite <- Hp;
      (eapply elem_of_sublist; [|done]); by apply list_elem_of_fmap_2. }
  split; [|split].
  - intros it. unfold Snapshot_Ascend.
    destruct (bad_range b e); [intros [= <-]; split; constructor|].
    intros (l & Hy & Hsub & Hget)%Snapshot_loop_yields. cbn [yielded] in Hy.
    split; [|by eapply Hall].
    rewrite Hy. cbn. by eapply StronglySorted_sublist.
  - intros it. unfold Snapshot_Descend.
    destruct (bad_range b e); [intros [= <-]; split; constructor|].
    intros (l & Hy & Hsub & Hget)%Snapshot_loop_yields. cbn [yielded] in Hy.
    split; [|eapply Hall; [|done..]; by rewrite reverse_Permutation].
    rewrite Hy. cbn. eapply StronglySorted_sublist; [done|].
    by apply StronglySorted_reverse.
  - intros Hbad. unfold Snapshot_Ascend, Snapshot_Descend. by rewrite Hbad.
Qed.

Lemma Snapshot_iteration_order_witness :
  StronglySorted string_lt ["k1"; "k2"]%string.
Proof.
  destruct (Snapshot_iteration_order (after two_keys) 0 "" "" None consume_all)
    as [Hasc _].
  destruct (Hasc {| yielded := [("k1", "a"); ("k2", "b")]%string; errp := None |})
    as [Hsorted _].
  - vm_compute. reflexivity.
  - exact Hsorted.
Defined.




End iteration.

(** ** Transactions: buffers and iteration *)

Section transactions.

Lemma Transaction_Get_errors w t key w' err :
  Transaction_Get w t key = Ret (w', inr err) →
  err = ErrInvalid ∨ err = ErrNotExist.
Proof.
  unfold Transaction_Get. intros H.
  destruct (txs w !! t) as [T|]; [|done].
  repeat (case_match; simplify_eq; auto).
Qed.

Lemma Transaction_loop_yields t yield keys : ∀ w it w' it',
  Transaction_loop w t yield keys it = Ret (w', it') →
  (∃ l, yielded it' = yielded it ++ l ∧ l.*1 `sublist_of` keys) ∧
  (errp it' = errp it ∨ errp it' = Some ErrInvalid).
Proof.
  induction keys as [|key keys IH]; intros w it w' it' H; cbn [Transaction_loop] in H.
  - injection H as <- <-. split; [|by left]. exists []. by rewrite app_nil_r.
  - destruct (Transaction_Get w t key) as [[w1 [value|err]]|] eqn:Hg; [| |done];
      cbn in H.
    + destruct (yield key value).
      * destruct (IH _ _ _ _ H) as [(l & Hy & Hsub) He]. cbn [yielded errp] in *.
        split; [|done]. exists ((key, value) :: l).
        rewrite Hy, <- app_assoc. split; [done|]. by apply sublist_skip.
      * injection H as <- <-. split; [|by left]. exists [(key, value)].
        split; [done|]. apply sublist_skip, sublist_nil_l.
    + case_bool_decide as Herr.
      * destruct (IH _ _ _ _ H) as [(l & Hy & Hsub) He].
        split; [|done]. exists l. split; [done|]. by apply sublist_cons.
      * injection H as <- <-. split.
        -- exists []. cbn. rewrite app_nil_r. split; [done|]. apply sublist_nil_l.
        -- right. cbn. f_equal.
           destruct (Transaction_Get_errors _ _ _ _ _ Hg); congruence.
Qed.

(** X22. Ordered iteration over a transaction. What [Ascend] yields has
    its keys in strictly ascending byte-wise order and what [Descend] yields
    in strictly descending order, every key within the range; and the error
    slot comes back as the caller set it or with the invalid-input error,
    never with "does not exist". *)
Theorem Transaction_iteration_order w t b e slot yield :
  (∀ w' it, Transaction_Ascend w t b e slot yield = Ret (w', it) →
            StronglySorted string_lt (yielded it).*1 ∧
            Forall (in_range b e) (yielded it).*1 ∧
            (errp it = slot ∨ errp it = Some ErrInvalid)) ∧
  (∀ w' it, Transaction_Descend w t b e slot yield = Ret (w', it) →
            StronglySorted (flip string_lt) (yielded it).*1 ∧
            Forall (in_range b e) (yielded it).*1 ∧
            (errp it = slot ∨ errp it = Some ErrInvalid)).
Proof.
  assert (Hkeys : ∀ keys, Transaction_keys w t b e = Ret keys →
            NoDup keys ∧ Forall (in_range b e) keys).
  { unfold Transaction_keys. intros keys H.
    destruct (txs w !! t) as [T|]; [|done]. destruct (db T); [|done].
    injection H as <-. split; [apply NoDup_filter, NoDup_elements|].
    apply Forall_forall. by intros k [? _]%list_elem_of_filter. }
  assert (Hrange : ∀ keys keys' l, keys' ≡ₚ keys → Forall (in_range b e) keys →
            l `sublist_of` keys' → Forall (in_range b e) l).
  { intros keys keys' l Hp Hall Hsub. rewrite Forall_forall in *.
    intros k Hk. apply Hall. rewrite <- Hp. by eapply elem_of_sublist. }
  split; intros w' it.
  - unfold Transaction_Ascend.
    destruct (bad_range b e);
      [intros [= <- <-]; split; [constructor|split; [constructor|by right]]|].
    destruct (Transaction_keys w t b e) as [keys|] eqn:Hk; [|done]. cbn.
    destruct (Hkeys keys eq_refl) as [Hnd Hall].
    destruct (sort_strings_sorted keys Hnd) as [Hsorted Hperm].
    intros [(l & Hy & Hsub) He]%Transaction_loop_yields. cbn in Hy, He.
    rewrite Hy. split; [by eapply StronglySorted_sublist|]. split; [|done].
    by eapply Hrange.
  - unfold Transaction_Descend.
    destruct (bad_range b e);
      [intros [= <- <-]; split; [constructor|split; [constructor|by right]]|].
    destruct (Transaction_keys w t b e) as [keys|] eqn:Hk; [|done]. cbn.
    destruct (Hkeys keys eq_refl) as [Hnd Hall].
    destruct (sort_strings_sorted keys Hnd) as [Hsorted Hperm].
    intros [(l & Hy & Hsub) He]%Transaction_loop_yields. cbn in Hy, He.
    rewrite Hy. split; [|split; [|done]].
    + eapply StronglySorted_sublist; [done|]. by apply StronglySorted_reverse.
    + eapply (Hrange keys); [|done..]. by rewrite reverse_Permutation.
Qed.

(** X23. Read your writes. On any handle and for a non-empty key, after
    [Set] has buffered the bytes of a source, [Get] returns exactly those
    bytes, and after [Delete], [Get] signals "does not exist"; in both cases
    without consulting the database or changing the state further. *)
Theorem read_your_writes w t T key :
  txs w !! t = Some T → key ≠ ""%string →
  (∀ chunks, ∃ w1,
     Transaction_Set w t key (Some (foldr Chunk EOF chunks)) = Ret (w1, None) ∧
     Transaction_Get w1 t key = Ret (w1, inl (all_bytes chunks)) ∧
     database w1 = database w) ∧
  (∃ w1, Transaction_Delete w t key = Ret (w1, None) ∧
         Transaction_Get w1 t key = Ret (w1, inr ErrNotExist) ∧
         database w1 = database w).
Proof.
  intros HT Hkey. pose proof (lookup_lt_Some _ _ _ HT) as Hlt. split.
  - intros chunks. eexists. split; [|split].
    + unfold Transaction_Set. rewrite HT, bool_decide_false, ReadAll_eof by done.
      reflexivity.
    + unfold Transaction_Get. cbn [set_tx txs].
      rewrite list_lookup_insert_eq, bool_decide_false by done.
      cbn [with_writes writes]. by rewrite lookup_insert_eq.
    + done.
  - eexists. split; [|split].
    + unfold Transaction_Delete. rewrite HT, bool_decide_false by done.
      reflexivity.
    + unfold Transaction_Get. cbn [set_tx txs].
      rewrite list_lookup_insert_eq, bool_decide_false by done.
      cbn [with_writes writes]. by rewrite lookup_insert_eq.
    + done.
Qed.

Lemma read_your_writes_witness :
  ∃ w1, Transaction_Delete (after two_keys) 1 "k1" = Ret (w1, None) ∧
        Transaction_Get w1 1 "k1" = Ret (w1, inr ErrNotExist).
Proof.
  destruct (read_your_writes (after two_keys) 1 (tx_at (after two_keys) 1) "k1")
    as [_ (w1 & Hd & Hg & _)].
  - vm_compute. reflexivity.
  - discriminate.
  - exists w1. split; [exact Hd|exact Hg].
Defined.

(** X24. The last buffered intent for a key wins: a [Set] or a [Delete]
    after an earlier [Set] or [Delete] of the same key in the same
    transaction leaves exactly the state it would have left alone. *)
Theorem last_write_wins w t T key w1 :
  txs w !! t = Some T → key ≠ ""%string →
  (∃ r, Transaction_Set w t key r = Ret (w1, None)) ∨
    Transaction_Delete w t key = Ret (w1, None) →
  (∀ chunks, Transaction_Set w1 t key (Some (foldr Chunk EOF chunks))
             = Transaction_Set w t key (Some (foldr Chunk EOF chunks))) ∧
  Transaction_Delete w1 t key = Transaction_Delete w t key.
Proof.
  intros HT Hkey Hfirst. pose proof (lookup_lt_Some _ _ _ HT) as Hlt.
  assert (∃ v, w1 = set_tx w t (with_writes T (<[key := v]> (writes T))))
    as [v ->].
  { destruct Hfirst as [[r Hs] | Hd].
    - unfold Transaction_Set in Hs. rewrite HT, bool_decide_false in Hs by done.
      destruct r as [r|]; [|done]. destruct (ReadAll r) as [s [err|]]; [done|].
      injection Hs as <-. eauto.
    - unfold Transaction_Delete in Hd. rewrite HT, bool_decide_false in Hd by done.
      injection Hd as <-. eauto. }
  split; [intros chunks|];
    unfold Transaction_Set, Transaction_Delete; cbn [set_tx txs];
    rewrite list_lookup_insert_eq, HT, bool_decide_false by done;
    rewrite ?ReadAll_eof; unfold set_tx, with_writes; cbn;
    by rewrite list_insert_insert_eq, insert_insert_eq.
Qed.

Lemma last_write_wins_witness :
  Transaction_Delete (after blind_writers) 1 "key1"
  = Transaction_Delete (after (blind_writers ++ [OpDelete 1 "key1"])) 1 "key1".
Proof.
  destruct (last_write_wins (after (blind_writers ++ [OpDelete 1 "key1"])) 1
              (tx_at (after (blind_writers ++ [OpDelete 1 "key1"])) 1) "key1"
              (after (blind_writers ++ [OpDelete 1 "key1"; OpDelete 1 "key1"])))
    as [_ Hd].
  - vm_compute. reflexivity.
  - discriminate.
  - right. vm_compute. reflexivity.
  - vm_compute. reflexivity.
Defined.

(** X25. [Get] is idempotent: whatever a [Get] on a handle answered and
    whatever state it left, the same [Get] on that state answers the same
    and leaves the state alone: a payload found in the database is served
    from the reads afterwards. *)
Theorem Get_idempotent w t key w1 r :
  Transaction_Get w t key = Ret (w1, r) →
  Transaction_Get w1 t key = Ret (w1, r).
Proof.
  unfold Transaction_Get. intros H.
  destruct (txs w !! t) as [T|] eqn:HT; [|done].
  pose proof (lookup_lt_Some _ _ _ HT) as Hlt.
  case_bool_decide as Hkey; [injection H as <- <-; by rewrite HT|].
  destruct (writes T !! key) as [[v|]|] eqn:Hw.
  - injection H as <- <-. by rewrite HT, Hw.
  - injection H as <- <-. by rewrite HT, Hw.
  - destruct (reads T !! key) as [v|] eqn:Hr.
    + injection H as <- <-. by rewrite HT, Hw, Hr.
    + destruct (db T) eqn:Hdb; [|done]. cbn [negb] in H.
      destruct (kvs (database w) !! key) as [mv|] eqn:Hk.
      * destruct (Fetch mv (snapshotVersion T)) as [e|] eqn:Hf.
        -- destruct (IsDeleted e) eqn:Hd.
           ++ injection H as <- <-.
              by rewrite HT, Hw, Hr, Hdb, Hk, Hf, Hd.
           ++ injection H as <- <-. cbn [set_tx txs].
              rewrite list_lookup_insert_eq by done.
              cbn [with_reads writes reads]. by rewrite Hw, lookup_insert_eq.
        -- injection H as <- <-.
           by rewrite HT, Hw, Hr, Hdb, Hk, Hf.
      * injection H as <- <-. by rewrite HT, Hw, Hr, Hdb, Hk.
Qed.

Lemma Get_idempotent_witness :
  ∃ w1, Transaction_Get (after two_keys) 1 "k1" = Ret (w1, inl "a"%string) ∧
        Transaction_Get w1 1 "k1" = Ret (w1, inl "a"%string).
Proof.
  exists (after (two_keys ++ [OpGet 1 "k1"])).
  assert (H : Transaction_Get (after two_keys) 1 "k1"
              = Ret (after (two_keys ++ [OpGet 1 "k1"]), inl "a"%string))
    by (vm_compute; reflexivity).
  split; [exact H|]. exact (Get_idempotent _ _ _ _ _ H).
Defined.

End transactions.

(** ** Snapshots, key overlap and the search *)

Section snapshots.

(** X26. [Discard] on a live snapshot returns nil and only marks the
    handle discarded: the committed data, the counter and the transactions
    are untouched. On the discarded handle a second [Discard] signals
    invalid input and changes nothing, [Get] of the empty key still signals
    invalid input, and [Get] of any other key dereferences the nil
    database. *)
Theorem Discard_closes w s sn :
  snaps w !! s = Some sn → snap_db sn = true →
  ∃ w1, Snapshot_Discard w s = Ret (w1, None) ∧
        kvs (database w1) = kvs (database w) ∧
        maxCommitVersion (database w1) = maxCommitVersion (database w) ∧
        liveTxes (database w1) = liveTxes (database w) ∧
        concurrentMap (database w1) = concurrentMap (database w) ∧
        txs w1 = txs w ∧
        Snapshot_Discard w1 s = Ret (w1, Some ErrInvalid) ∧
        Snapshot_Get w1 s "" = Ret (inr ErrInvalid) ∧
        (∀ key, key ≠ ""%string →
                Snapshot_Get w1 s key = Panic "nil pointer dereference").
Proof.
  intros Hs Hdb. pose proof (lookup_lt_Some _ _ _ Hs) as Hlt.
  exists (closeSnapshot w s).
  assert (Hs1 : snaps (closeSnapshot w s) !! s
                = Some {| snap_db := false;
                          snap_snapshotVersion := snap_snapshotVersion sn |}).
  { unfold closeSnapshot. rewrite Hs. cbn [set_snap snaps].
    by rewrite list_lookup_insert_eq. }
  split; [unfold Snapshot_Discard; by rewrite Hs, Hdb|].
  unfold Snapshot_Discard, Snapshot_Get. rewrite Hs1. cbn [snap_db negb].
  unfold closeSnapshot. rewrite Hs. cbn.
  do 7 (split; [done|]). intros key Hkey. by rewrite bool_decide_false.
Qed.

Lemma Discard_closes_witness :
  ∃ w1, Snapshot_Discard (after two_keys) 0 = Ret (w1, None) ∧
        Snapshot_Discard w1 0 = Ret (w1, Some ErrInvalid).
Proof.
  destruct (Discard_closes (after two_keys) 0
              {| snap_db := true; snap_snapshotVersion := 1 |})
    as (w1 & Hd & _ & _ & _ & _ & _ & Hd2 & _).
  - vm_compute. reflexivity.
  - reflexivity.
  - exists w1. split; [exact Hd|exact Hd2].
Defined.

(** X27. [overlappingKeys] returns, without repetition, exactly the keys
    present in both maps. *)
Theorem overlappingKeys_spec rs ws :
  NoDup (overlappingKeys rs ws) ∧
  ∀ k, k ∈ overlappingKeys rs ws ↔ is_Some (rs !! k) ∧ is_Some (ws !! k).
Proof.
  unfold overlappingKeys. split.
  - apply NoDup_filter, NoDup_fst_map_to_list.
  - intros k. rewrite list_elem_of_filter, list_elem_of_fmap. split.
    + intros [Hws ([k' v] & -> & Hkv)]. apply elem_of_map_to_list in Hkv.
      split; [eauto|done].
    + intros [[v Hv] Hws]. split; [done|]. exists (k, v).
      split; [done|]. by apply elem_of_map_to_list.
Qed.

(** X28. The binary search with [findValue] on a strictly ascending
    history returns the position that separates the versions below the
    target from the versions at or above it, and reports a hit exactly when
    some entry has the target version, which is then the entry at that
    position. *)
Theorem BinarySearchFunc_position x target :
  ascending x →
  splits_at x target (BinarySearchFunc x target).1 ∧
  ((BinarySearchFunc x target).2 = true ↔ ∃ e, e ∈ x ∧ Version e = target) ∧
  (∀ e, e ∈ x → Version e = target →
        x !! (BinarySearchFunc x target).1 = Some e).
Proof.
  intros Hs. pose proof (BinarySearchFunc_splits x target Hs) as Hsplit.
  pose proof (BinarySearchFunc_found x target) as Hfound.
  destruct Hsplit as (Hlen & Hlo & Hhi).
  assert (Hat : ∀ e, e ∈ x → Version e = target →
            x !! (BinarySearchFunc x target).1 = Some e).
  { intros e [k Hk]%list_elem_of_lookup Hv.
    set (r := (BinarySearchFunc x target).1) in *.
    destruct (decide (k < r)%nat) as [Hlt|Hge].
    { specialize (Hlo k e Hlt Hk). lia. }
    destruct (decide (k = r)) as [->|Hne]; [done|].
    destruct (lookup_lt_is_Some_2 x r) as [er Her].
    { apply lookup_lt_Some in Hk. lia. }
    pose proof (Hhi r er ltac:(lia) Her).
    pose proof (ascending_lookup x r k er e Hs ltac:(lia) Her Hk). lia. }
  split; [done|]. split; [|done]. rewrite Hfound. split.
  - intros (e & He & Hv). exists e. split; [|done]. by eapply list_elem_of_lookup_2.
  - intros (e & He & Hv). exists e. split; [|done]. by apply Hat.
Qed.

Lemma BinarySearchFunc_position_witness :
  [mkValue 1 "a"; mkValue 5 "b"; mkValue 9 "c"]
    !! (BinarySearchFunc [mkValue 1 "a"; mkValue 5 "b"; mkValue 9 "c"] 5).1
  = Some (mkValue 5 "b").
Proof.
  destruct (BinarySearchFunc_position
              [mkValue 1 "a"; mkValue 5 "b"; mkValue 9 "c"] 5) as (_ & _ & Hat).
  - apply (bool_decide_unpack _). vm_compute. exact I.
  - apply Hat; [right; left|reflexivity].
Defined.

End snapshots.
